(** * Verification of the teaching programs of c_cpp_programming

    A shallow embedding of the C functions of the repository and the
    proofs of their specification.

    Conventions of the embedding.
    - A C [int] is a [Z] in the range [INT_MIN .. INT_MAX]; every
      arithmetic operation of the source is followed by [wrap], the
      two's-complement wrap-around of a 32-bit machine (the C standard
      leaves signed overflow undefined; [wrap] is what the hardware does).
    - A [size_t] is a [Z] in [0 .. SIZE_MAX], with [wrap_size] (64 bits).
    - A C array [int arr[]] is a [list Z]; reading or writing outside of it
      is the outcome [Fault].
    - The nodes of a linked list live in a heap, a finite map from
      addresses to nodes; a pointer is an address or [NULL].
    - What the C library decides (whether an allocation succeeds, whether a
      file opens, whether a stream is written out when it is closed) is an
      argument of the function that asks for it.
    - A loop is a [Fixpoint] over a fuel argument; running out of fuel is
      the outcome [Timeout].  The theorems give the fuel that suffices.
    - [printf] and the like are left out: they change no value. *)

From Stdlib Require Import ZArith Permutation Sorted Factorial.
From Stdlib Require Import Floats.SpecFloat.
From stdpp Require Import base option list gmap.

Local Open Scope Z_scope.

(** ** Machine integers *)

Module MachineInt.

Definition INT_MAX : Z := 2147483647.
Definition INT_MIN : Z := -2147483648.
Definition SIZE_MAX : Z := 18446744073709551615.

(** Signed 32-bit wrap-around. *)
Definition wrap (z : Z) : Z := (z + 2147483648) mod 4294967296 - 2147483648.

(** Unsigned 64-bit wrap-around ([size_t]). *)
Definition wrap_size (z : Z) : Z := z mod 18446744073709551616.

Definition in_int (z : Z) : Prop := INT_MIN <= z <= INT_MAX.
Definition in_size (z : Z) : Prop := 0 <= z <= SIZE_MAX.

End MachineInt.
Import MachineInt.

(** ** Outcomes of a run *)

Inductive outcome (A : Type) : Type :=
| Done (a : A)   (* the code ran to its end and produced [a] *)
| Fault          (* undefined behaviour: an access outside of an array or
                    through a dangling pointer, a division by zero *)
| Timeout.       (* the fuel of the model ran out *)
Arguments Done {A} a.
Arguments Fault {A}.
Arguments Timeout {A}.

#[global] Instance outcome_ret : MRet outcome := fun A a => Done a.
#[global] Instance outcome_bind : MBind outcome := fun A B f m =>
  match m with
  | Done a => f a
  | Fault => Fault
  | Timeout => Timeout
  end.

(** ** C arrays of [int] *)

Definition load (arr : list Z) (i : Z) : outcome Z :=
  if 0 <=? i then
    match arr !! Z.to_nat i with
    | Some v => Done v
    | None => Fault
    end
  else Fault.

Definition store (arr : list Z) (i v : Z) : outcome (list Z) :=
  if (0 <=? i) && (i <? Z.of_nat (length arr))
  then Done (<[Z.to_nat i := v]> arr)
  else Fault.

(** ** data-structures/beginner/searching.c *)

Module Searching.

(** [for (int i = 0; i < size; i++) if (arr[i] == target) return i;] *)
Fixpoint linear_search_loop (fuel : nat) (arr : list Z) (size target i : Z)
  : outcome Z :=
  match fuel with
  | O => Timeout
  | S fuel' =>
    if i <? size then
      ai ← load arr i;
      if ai =? target then Done i
      else linear_search_loop fuel' arr size target (wrap (i + 1))
    else Done (-1)
  end.

Definition linear_search (fuel : nat) (arr : list Z) (size target : Z)
  : outcome Z :=
  linear_search_loop fuel arr size target 0.

(** [while (left <= right) { mid = left + (right - left) / 2; ... }] *)
Fixpoint binary_search_loop (fuel : nat) (arr : list Z) (target left right : Z)
  : outcome Z :=
  match fuel with
  | O => Timeout
  | S fuel' =>
    if left <=? right then
      let mid := wrap (left + wrap (wrap (right - left) ÷ 2)) in
      amid ← load arr mid;
      if amid =? target then Done mid
      else if amid <? target
           then binary_search_loop fuel' arr target (wrap (mid + 1)) right
           else binary_search_loop fuel' arr target left (wrap (mid - 1))
    else Done (-1)
  end.

Definition binary_search (fuel : nat) (arr : list Z) (size target : Z)
  : outcome Z :=
  let left := 0 in
  let right := wrap (size - 1) in
  binary_search_loop fuel arr target left right.

Fixpoint binary_search_recursive (fuel : nat) (arr : list Z)
  (left right target : Z) : outcome Z :=
  match fuel with
  | O => Timeout
  | S fuel' =>
    if left >? right then Done (-1)
    else
      let mid := wrap (left + wrap (wrap (right - left) ÷ 2)) in
      amid ← load arr mid;
      if amid =? target then Done mid
      else if amid <? target
           then binary_search_recursive fuel' arr (wrap (mid + 1)) right target
           else binary_search_recursive fuel' arr left (wrap (mid - 1)) target
  end.

End Searching.

(** ** data-structures/beginner/array_operations.c *)

Module ArrayOperations.

Definition MAX_SIZE : Z := 100.

(** [for (int i = size; i > position; i--) arr[i] = arr[i - 1];] *)
Fixpoint insert_shift (fuel : nat) (arr : list Z) (i position : Z)
  : outcome (list Z) :=
  match fuel with
  | O => Timeout
  | S fuel' =>
    if i >? position then
      v ← load arr (wrap (i - 1));
      arr1 ← store arr i v;
      insert_shift fuel' arr1 (wrap (i - 1)) position
    else Done arr
  end.

(** The array after the call, and the size the call returns. *)
Definition insert_element (fuel : nat) (arr : list Z) (size element position : Z)
  : outcome (list Z * Z) :=
  if (position <? 0) || (position >? size) then Done (arr, size)
  else if size >=? MAX_SIZE then Done (arr, size)
  else
    arr1 ← insert_shift fuel arr size position;
    arr2 ← store arr1 position element;
    Done (arr2, wrap (size + 1)).

(** [for (int i = position; i < size - 1; i++) arr[i] = arr[i + 1];] *)
Fixpoint delete_shift (fuel : nat) (arr : list Z) (i size : Z)
  : outcome (list Z) :=
  match fuel with
  | O => Timeout
  | S fuel' =>
    if i <? wrap (size - 1) then
      v ← load arr (wrap (i + 1));
      arr1 ← store arr i v;
      delete_shift fuel' arr1 (wrap (i + 1)) size
    else Done arr
  end.

Definition delete_element (fuel : nat) (arr : list Z) (size position : Z)
  : outcome (list Z * Z) :=
  if (position <? 0) || (position >=? size) then Done (arr, size)
  else
    arr1 ← delete_shift fuel arr position size;
    Done (arr1, wrap (size - 1)).

(** [while (start < end) { swap arr[start], arr[end]; start++; end--; }] *)
Fixpoint reverse_subarray (fuel : nat) (arr : list Z) (start end_ : Z)
  : outcome (list Z) :=
  match fuel with
  | O => Timeout
  | S fuel' =>
    if start <? end_ then
      temp ← load arr start;
      v ← load arr end_;
      arr1 ← store arr start v;
      arr2 ← store arr1 end_ temp;
      reverse_subarray fuel' arr2 (wrap (start + 1)) (wrap (end_ - 1))
    else Done arr
  end.

(** [while (left < right) { swap arr[left], arr[right]; left++; right--; }] *)
Fixpoint reverse_array_loop (fuel : nat) (arr : list Z) (left right : Z)
  : outcome (list Z) :=
  match fuel with
  | O => Timeout
  | S fuel' =>
    if left <? right then
      temp ← load arr left;
      v ← load arr right;
      arr1 ← store arr left v;
      arr2 ← store arr1 right temp;
      reverse_array_loop fuel' arr2 (wrap (left + 1)) (wrap (right - 1))
    else Done arr
  end.

Definition reverse_array (fuel : nat) (arr : list Z) (size : Z) : outcome (list Z) :=
  let left := 0 in
  let right := wrap (size - 1) in
  reverse_array_loop fuel arr left right.

(** [a % b] on [int]; a zero divisor is the outcome [Fault]. *)
Definition int_rem (a b : Z) : outcome Z :=
  if b =? 0 then Fault else Done (wrap (Z.rem a b)).

Definition MAX_ROTATE_BUFFER : Z := 256.

(** [for (int i = 0; i < n; i++) dest[i] = src[i];]: the loop that fills
    [temp] in [rotate_left], empties it in [rotate_right], and copies the
    first array in [merge_arrays]. *)
Fixpoint copy_loop (fuel : nat) (dest src : list Z) (n i : Z) : outcome (list Z) :=
  match fuel with
  | O => Timeout
  | S fuel' =>
    if i <? n then
      v ← load src i;
      dest1 ← store dest i v;
      copy_loop fuel' dest1 src n (wrap (i + 1))
    else Done dest
  end.

(** [for (int i = 0; i < n; i++) dest[offset + i] = src[i];]: the loop that
    empties [temp] in [rotate_left] (offset [size - positions]) and copies
    the second array in [merge_arrays] (offset [size1]). *)
Fixpoint copy_to_offset_loop (fuel : nat) (dest src : list Z) (offset n i : Z)
  : outcome (list Z) :=
  match fuel with
  | O => Timeout
  | S fuel' =>
    if i <? n then
      v ← load src i;
      dest1 ← store dest (wrap (offset + i)) v;
      copy_to_offset_loop fuel' dest1 src offset n (wrap (i + 1))
    else Done dest
  end.

(** [for (int i = 0; i < n; i++) dest[i] = src[offset + i];]: the loop that
    fills [temp] in [rotate_right] (offset [size - positions]). *)
Fixpoint copy_from_offset_loop (fuel : nat) (dest src : list Z) (offset n i : Z)
  : outcome (list Z) :=
  match fuel with
  | O => Timeout
  | S fuel' =>
    if i <? n then
      v ← load src (wrap (offset + i));
      dest1 ← store dest i v;
      copy_from_offset_loop fuel' dest1 src offset n (wrap (i + 1))
    else Done dest
  end.

(** [for (int i = 0; i < size - positions; i++) arr[i] = arr[i + positions];] *)
Fixpoint shift_left_loop (fuel : nat) (arr : list Z) (size positions i : Z)
  : outcome (list Z) :=
  match fuel with
  | O => Timeout
  | S fuel' =>
    if i <? wrap (size - positions) then
      v ← load arr (wrap (i + positions));
      arr1 ← store arr i v;
      shift_left_loop fuel' arr1 size positions (wrap (i + 1))
    else Done arr
  end.

(** [for (int i = size - 1; i >= positions; i--) arr[i] = arr[i - positions];] *)
Fixpoint shift_right_loop (fuel : nat) (arr : list Z) (positions i : Z)
  : outcome (list Z) :=
  match fuel with
  | O => Timeout
  | S fuel' =>
    if i >=? positions then
      v ← load arr (wrap (i - positions));
      arr1 ← store arr i v;
      shift_right_loop fuel' arr1 positions (wrap (i - 1))
    else Done arr
  end.

(** [temp] is the local buffer of [MAX_ROTATE_BUFFER] cells, with what it
    holds on entry. *)
Definition rotate_left (fuel : nat) (temp arr : list Z) (size positions : Z)
  : outcome (list Z) :=
  if size =? 0 then Done arr
  else
    positions ← int_rem positions size;
    if positions =? 0 then Done arr
    else if positions >? MAX_ROTATE_BUFFER then
      arr1 ← reverse_subarray fuel arr 0 (wrap (positions - 1));
      arr2 ← reverse_subarray fuel arr1 positions (wrap (size - 1));
      reverse_subarray fuel arr2 0 (wrap (size - 1))
    else
      temp1 ← copy_loop fuel temp arr positions 0;
      arr1 ← shift_left_loop fuel arr size positions 0;
      copy_to_offset_loop fuel arr1 temp1 (wrap (size - positions)) positions 0.

Definition rotate_right (fuel : nat) (temp arr : list Z) (size positions : Z)
  : outcome (list Z) :=
  if size =? 0 then Done arr
  else
    positions ← int_rem positions size;
    if positions =? 0 then Done arr
    else if positions >? MAX_ROTATE_BUFFER then
      arr1 ← reverse_subarray fuel arr 0 (wrap (size - 1));
      arr2 ← reverse_subarray fuel arr1 0 (wrap (positions - 1));
      reverse_subarray fuel arr2 positions (wrap (size - 1))
    else
      temp1 ← copy_from_offset_loop fuel temp arr (wrap (size - positions)) positions 0;
      arr1 ← shift_right_loop fuel arr positions (wrap (size - 1));
      copy_loop fuel arr1 temp1 positions 0.

(** [for (int i = 1; i < size; i++) if (arr[i] > max) max = arr[i];] *)
Fixpoint find_max_loop (fuel : nat) (arr : list Z) (size i max : Z) : outcome Z :=
  match fuel with
  | O => Timeout
  | S fuel' =>
    if i <? size then
      ai ← load arr i;
      if ai >? max then
        v ← load arr i;
        find_max_loop fuel' arr size (wrap (i + 1)) v
      else find_max_loop fuel' arr size (wrap (i + 1)) max
    else Done max
  end.

Definition find_max (fuel : nat) (arr : list Z) (size : Z) : outcome Z :=
  if size =? 0 then Done (-1)
  else
    max ← load arr 0;
    find_max_loop fuel arr size 1 max.

(** [for (int i = 1; i < size; i++) if (arr[i] < min) min = arr[i];] *)
Fixpoint find_min_loop (fuel : nat) (arr : list Z) (size i min : Z) : outcome Z :=
  match fuel with
  | O => Timeout
  | S fuel' =>
    if i <? size then
      ai ← load arr i;
      if ai <? min then
        v ← load arr i;
        find_min_loop fuel' arr size (wrap (i + 1)) v
      else find_min_loop fuel' arr size (wrap (i + 1)) min
    else Done min
  end.

Definition find_min (fuel : nat) (arr : list Z) (size : Z) : outcome Z :=
  if size =? 0 then Done (-1)
  else
    min ← load arr 0;
    find_min_loop fuel arr size 1 min.

Definition merge_arrays (fuel : nat) (arr1 : list Z) (size1 : Z) (arr2 : list Z)
  (size2 : Z) (result : list Z) : outcome (list Z) :=
  result1 ← copy_loop fuel result arr1 size1 0;
  copy_to_offset_loop fuel result1 arr2 size1 size2 0.

End ArrayOperations.

(** ** data-structures/beginner/sorting.c *)

Module Sorting.

(** The inner loop of [bubble_sort]:
    [for (int j = 0; j < size - i - 1; j++) if (arr[j] > arr[j + 1]) swap]. *)
Fixpoint bubble_inner (fuel : nat) (arr : list Z) (size i j : Z) (swapped : bool)
  : outcome (list Z * bool) :=
  match fuel with
  | O => Timeout
  | S fuel' =>
    if j <? wrap (wrap (size - i) - 1) then
      aj ← load arr j;
      aj1 ← load arr (wrap (j + 1));
      if aj >? aj1 then
        temp ← load arr j;
        v ← load arr (wrap (j + 1));
        arr1 ← store arr j v;
        arr2 ← store arr1 (wrap (j + 1)) temp;
        bubble_inner fuel' arr2 size i (wrap (j + 1)) true
      else bubble_inner fuel' arr size i (wrap (j + 1)) swapped
    else Done (arr, swapped)
  end.

(** The outer loop, with its [break] when a pass swapped nothing. *)
Fixpoint bubble_outer (fuel : nat) (arr : list Z) (size i : Z) : outcome (list Z) :=
  match fuel with
  | O => Timeout
  | S fuel' =>
    if i <? wrap (size - 1) then
      pass ← bubble_inner fuel arr size i 0 false;
      let '(arr', swapped) := pass in
      if negb swapped then Done arr'
      else bubble_outer fuel' arr' size (wrap (i + 1))
    else Done arr
  end.

Definition bubble_sort (fuel : nat) (arr : list Z) (size : Z) : outcome (list Z) :=
  bubble_outer fuel arr size 0.

(** The inner loop of [selection_sort]:
    [for (int j = i + 1; j < size; j++) if (arr[j] < arr[min_idx]) min_idx = j]. *)
Fixpoint selection_inner (fuel : nat) (arr : list Z) (size j min_idx : Z)
  : outcome Z :=
  match fuel with
  | O => Timeout
  | S fuel' =>
    if j <? size then
      aj ← load arr j;
      amin ← load arr min_idx;
      if aj <? amin
      then selection_inner fuel' arr size (wrap (j + 1)) j
      else selection_inner fuel' arr size (wrap (j + 1)) min_idx
    else Done min_idx
  end.

Fixpoint selection_outer (fuel : nat) (arr : list Z) (size i : Z) : outcome (list Z) :=
  match fuel with
  | O => Timeout
  | S fuel' =>
    if i <? wrap (size - 1) then
      min_idx ← selection_inner fuel arr size (wrap (i + 1)) i;
      arr' ← (if negb (min_idx =? i) then
                temp ← load arr i;
                v ← load arr min_idx;
                arr1 ← store arr i v;
                store arr1 min_idx temp
              else Done arr);
      selection_outer fuel' arr' size (wrap (i + 1))
    else Done arr
  end.

Definition selection_sort (fuel : nat) (arr : list Z) (size : Z) : outcome (list Z) :=
  selection_outer fuel arr size 0.

(** The inner loop of [insertion_sort]:
    [while (j >= 0 && arr[j] > key) { arr[j + 1] = arr[j]; j = j - 1; }];
    [arr[j]] is read only when [j >= 0]. *)
Fixpoint insertion_inner (fuel : nat) (arr : list Z) (key j : Z)
  : outcome (list Z * Z) :=
  match fuel with
  | O => Timeout
  | S fuel' =>
    if j >=? 0 then
      aj ← load arr j;
      if aj >? key then
        v ← load arr j;
        arr1 ← store arr (wrap (j + 1)) v;
        insertion_inner fuel' arr1 key (wrap (j - 1))
      else Done (arr, j)
    else Done (arr, j)
  end.

Fixpoint insertion_outer (fuel : nat) (arr : list Z) (size i : Z) : outcome (list Z) :=
  match fuel with
  | O => Timeout
  | S fuel' =>
    if i <? size then
      key ← load arr i;
      let j := wrap (i - 1) in
      shifted ← insertion_inner fuel arr key j;
      let '(arr1, j') := shifted in
      arr2 ← store arr1 (wrap (j' + 1)) key;
      insertion_outer fuel' arr2 size (wrap (i + 1))
    else Done arr
  end.

Definition insertion_sort (fuel : nat) (arr : list Z) (size : Z) : outcome (list Z) :=
  insertion_outer fuel arr size 1.

(** [for (int i = 0; i < size; i++) dest[i] = src[i];] *)
Fixpoint copy_array_loop (fuel : nat) (dest src : list Z) (size i : Z)
  : outcome (list Z) :=
  match fuel with
  | O => Timeout
  | S fuel' =>
    if i <? size then
      v ← load src i;
      dest1 ← store dest i v;
      copy_array_loop fuel' dest1 src size (wrap (i + 1))
    else Done dest
  end.

Definition copy_array (fuel : nat) (dest src : list Z) (size : Z) : outcome (list Z) :=
  copy_array_loop fuel dest src size 0.

(** [for (int i = 0; i < size - 1; i++) if (arr[i] > arr[i + 1]) return false;] *)
Fixpoint is_sorted_loop (fuel : nat) (arr : list Z) (size i : Z) : outcome bool :=
  match fuel with
  | O => Timeout
  | S fuel' =>
    if i <? wrap (size - 1) then
      a ← load arr i;
      b ← load arr (wrap (i + 1));
      if a >? b then Done false
      else is_sorted_loop fuel' arr size (wrap (i + 1))
    else Done true
  end.

Definition is_sorted (fuel : nat) (arr : list Z) (size : Z) : outcome bool :=
  is_sorted_loop fuel arr size 0.

End Sorting.

(** [arr[lo..hi-1]] is non-decreasing. *)
Definition sorted_range (arr : list Z) (lo hi : nat) : Prop :=
  forall a b : nat, (lo <= a)%nat -> (a <= b)%nat -> (b < hi)%nat ->
    arr !!! a <= arr !!! b.

(** Every element of [arr[0..m-1]] is at most every element of
    [arr[m..n-1]]. *)
Definition split_at (arr : list Z) (m n : nat) : Prop :=
  forall a b : nat, (a < m)%nat -> (m <= b)%nat -> (b < n)%nat ->
    arr !!! a <= arr !!! b.

(** ** fundamentals/intermediate/math_utils.c *)

Module MathUtils.

(** The C [double]: IEEE 754 binary64. *)
Definition prec : Z := 53.
Definition emax : Z := 1024.
Definition double : Type := spec_float.

(** The conversion [(double)a] of an [int]. *)
Definition double_of_int (a : Z) : double := binary_normalize prec emax a 0 false.

Definition is_zero (x : double) : bool :=
  match x with
  | S754_zero _ => true
  | _ => false
  end.

(** [x / y]; dividing by zero is the outcome [Fault]. *)
Definition double_div (x y : double) : outcome double :=
  if is_zero y then Fault else Done (SFdiv prec emax x y).

Definition divide (a b : Z) : outcome double :=
  if b =? 0 then Done (S754_zero false)
  else double_div (double_of_int a) (double_of_int b).

(** [a % b] on [int]; a zero divisor is the outcome [Fault]. *)
Definition int_rem (a b : Z) : outcome Z :=
  if b =? 0 then Fault else Done (wrap (Z.rem a b)).

(** [for (int i = 5; i * i <= n; i += 6)
      if (n % i == 0 || n % (i + 2) == 0) return false;] *)
Fixpoint is_prime_loop (fuel : nat) (n i : Z) : outcome bool :=
  match fuel with
  | O => Timeout
  | S fuel' =>
    if wrap (i * i) <=? n then
      r1 ← int_rem n i;
      if r1 =? 0 then Done false
      else
        r2 ← int_rem n (wrap (i + 2));
        if r2 =? 0 then Done false
        else is_prime_loop fuel' n (wrap (i + 6))
    else Done true
  end.

Definition is_prime (fuel : nat) (n : Z) : outcome bool :=
  if n <=? 1 then Done false
  else if n <=? 3 then Done true
  else
    r2 ← int_rem n 2;
    if r2 =? 0 then Done false
    else
      r3 ← int_rem n 3;
      if r3 =? 0 then Done false
      else is_prime_loop fuel n 5.

(** [while (!is_prime(candidate)) candidate++;] *)
Fixpoint next_prime_loop (fuel : nat) (candidate : Z) : outcome Z :=
  match fuel with
  | O => Timeout
  | S fuel' =>
    p ← is_prime fuel candidate;
    if negb p then next_prime_loop fuel' (wrap (candidate + 1))
    else Done candidate
  end.

Definition next_prime (fuel : nat) (n : Z) : outcome Z :=
  if n <? 2 then Done 2
  else
    let candidate := wrap (n + 1) in
    next_prime_loop fuel candidate.

Definition add (a b : Z) : Z := wrap (a + b).

Definition subtract (a b : Z) : Z := wrap (a - b).

Definition multiply (a b : Z) : Z := wrap (a * b).

(** The macro [ABS(x)]: [((x) < 0 ? -(x) : (x))]. *)
Definition ABS (x : Z) : Z := if x <? 0 then wrap (- x) else x.

(** [for (int i = 2; i <= n; i++) result *= i;] *)
Fixpoint factorial_loop (fuel : nat) (n i result : Z) : outcome Z :=
  match fuel with
  | O => Timeout
  | S fuel' =>
    if i <=? n then factorial_loop fuel' n (wrap (i + 1)) (wrap (result * i))
    else Done result
  end.

Definition factorial (fuel : nat) (n : Z) : outcome Z :=
  if n <? 0 then Done 0
  else if (n =? 0) || (n =? 1) then Done 1
  else
    let result := 1 in
    factorial_loop fuel n 2 result.

(** [for (int i = 2; i <= n; i++) { next = prev + curr; prev = curr;
      curr = next; }] *)
Fixpoint fibonacci_loop (fuel : nat) (n i prev curr : Z) : outcome Z :=
  match fuel with
  | O => Timeout
  | S fuel' =>
    if i <=? n then
      let next := wrap (prev + curr) in
      fibonacci_loop fuel' n (wrap (i + 1)) curr next
    else Done curr
  end.

Definition fibonacci (fuel : nat) (n : Z) : outcome Z :=
  if n <=? 0 then Done 0
  else if n =? 1 then Done 1
  else fibonacci_loop fuel n 2 0 1.

(** [while (b != 0) { temp = b; b = a % b; a = temp; }] *)
Fixpoint gcd_loop (fuel : nat) (a b : Z) : outcome Z :=
  match fuel with
  | O => Timeout
  | S fuel' =>
    if negb (b =? 0) then
      let temp := b in
      r ← int_rem a b;
      gcd_loop fuel' temp r
    else Done a
  end.

Definition gcd (fuel : nat) (a b : Z) : outcome Z :=
  let a := ABS a in
  let b := ABS b in
  gcd_loop fuel a b.

(** [a / b] on [int]; a zero divisor is the outcome [Fault]. *)
Definition int_div (a b : Z) : outcome Z :=
  if b =? 0 then Fault else Done (wrap (a ÷ b)).

Definition lcm (fuel : nat) (a b : Z) : outcome Z :=
  if (a =? 0) || (b =? 0) then Done 0
  else
    g ← gcd fuel a b;
    int_div (ABS (wrap (a * b))) g.

(** The inline functions of math_utils.h; the [int] they return is 1 or 0. *)
Definition is_even (n : Z) : Z := if Z.rem n 2 =? 0 then 1 else 0.

Definition is_odd (n : Z) : Z := if negb (Z.rem n 2 =? 0) then 1 else 0.

End MathUtils.

(** The Fibonacci numbers: 0, 1, 1, 2, 3, 5, ... *)
Fixpoint fib (n : nat) : Z :=
  match n with
  | O => 0
  | S m =>
    match m with
    | O => 1
    | S k => fib k + fib m
    end
  end.

(** Trial division on [Z], without wrap-around: no [e] with
    [d <= e < d + fuel] divides [n]. *)
Fixpoint no_divisor_from (fuel : nat) (n d : Z) : bool :=
  match fuel with
  | O => true
  | S fuel' => negb (Z.rem n d =? 0) && no_divisor_from fuel' n (d + 1)
  end.

(** ** What a C function hands back, by the type of its return value *)

Inductive creturn : Type :=
| Rint (z : Z)        (* an [int] *)
| Rbool (b : bool)    (* a [bool] *)
| Rnull               (* the pointer [NULL] *)
| Rpointer.           (* a pointer to an object *)

Definition return_of_pointer {A : Type} (p : option A) : creturn :=
  match p with
  | None => Rnull
  | Some _ => Rpointer
  end.

(** The return codes of the error handling section: -1 and [NULL]. *)
Definition minus_one_or_NULL (r : creturn) : Prop := r = Rint (-1) \/ r = Rnull.

(** ** exercises/intermediate/ex01_dynamic_array.c *)

Module DynamicArray.

(** The struct; [data] is the memory seen through the pointer [data],
    cell by cell.  The allocator does not bound it: a store past the
    allocated block lands in the memory behind it. *)
Record DynamicArray : Type := mkDynamicArray {
  data : Z -> Z;
  size : Z;
  capacity : Z
}.

Definition sizeof_int : Z := 4.

(** [data[i] = v] *)
Definition poke (mem : Z -> Z) (i v : Z) : Z -> Z :=
  fun k => if k =? i then v else mem k.

(** [malloc(bytes)]: the environment says whether it succeeds, and what the
    fresh block holds.  The cells are not bounded by [bytes]: a property
    that reads back what was stored says that the byte count of the block
    did not wrap. *)
Definition malloc (ok : bool) (contents : Z -> Z) (bytes : Z) : option (Z -> Z) :=
  if ok then Some contents else None.

(** [realloc(ptr, bytes)]: on success the cells are kept; on failure the
    old block stays as it was, which C guarantees for a request of more
    than 0 bytes.  A property that rests on a failing call says that
    [bytes] is not 0. *)
Definition realloc (ok : bool) (ptr : Z -> Z) (bytes : Z) : option (Z -> Z) :=
  if ok then Some ptr else None.

(** A pointer to the struct is [Some] of its current value, [NULL] is
    [None]; a function that writes through the pointer returns the new
    value next to its result. *)
Definition create_array (malloc_struct malloc_data : bool) (contents : Z -> Z)
  (initial_capacity : Z) : option DynamicArray :=
  if negb malloc_struct then None
  else
    match malloc malloc_data contents (wrap_size (initial_capacity * sizeof_int)) with
    | None => None
    | Some d => Some {| data := d; size := 0; capacity := initial_capacity |}
    end.

Definition resize_array (realloc_ok : bool) (arr : option DynamicArray)
  (new_capacity : Z) : bool * option DynamicArray :=
  match arr with
  | None => (false, None)
  | Some a =>
    if new_capacity <? size a then (false, Some a)
    else
      match realloc realloc_ok (data a) (wrap_size (new_capacity * sizeof_int)) with
      | None => (false, Some a)
      | Some new_data =>
        (true, Some {| data := new_data; size := size a; capacity := new_capacity |})
      end
  end.

Definition append (realloc_ok : bool) (arr : option DynamicArray) (value : Z)
  : bool * option DynamicArray :=
  match arr with
  | None => (false, None)
  | Some a =>
    let resized :=
      if size a >=? capacity a then
        let new_capacity := wrap_size (capacity a * 2) in
        resize_array realloc_ok (Some a) new_capacity
      else (true, Some a) in
    match resized with
    | (true, Some a1) =>
      (true, Some {| data := poke (data a1) (size a1) value;
                     size := wrap_size (size a1 + 1);
                     capacity := capacity a1 |})
    | (_, arr1) => (false, arr1)
    end
  end.

(** [for (size_t i = arr->size; i > index; i--) data[i] = data[i - 1];] *)
Fixpoint shift_right (fuel : nat) (mem : Z -> Z) (i index : Z) : outcome (Z -> Z) :=
  match fuel with
  | O => Timeout
  | S fuel' =>
    if i >? index
    then shift_right fuel' (poke mem i (mem (wrap_size (i - 1)))) (wrap_size (i - 1)) index
    else Done mem
  end.

Definition insert (fuel : nat) (realloc_ok : bool) (arr : option DynamicArray)
  (index value : Z) : outcome (bool * option DynamicArray) :=
  match arr with
  | None => Done (false, None)
  | Some a =>
    if index >? size a then Done (false, Some a)
    else
      let resized :=
        if size a >=? capacity a then
          let new_capacity := wrap_size (capacity a * 2) in
          resize_array realloc_ok (Some a) new_capacity
        else (true, Some a) in
      match resized with
      | (true, Some a1) =>
        mem ← shift_right fuel (data a1) (size a1) index;
        Done (true, Some {| data := poke mem index value;
                            size := wrap_size (size a1 + 1);
                            capacity := capacity a1 |})
      | (_, arr1) => Done (false, arr1)
      end
  end.

(** [for (size_t i = index; i < arr->size - 1; i++) data[i] = data[i + 1];] *)
Fixpoint shift_left (fuel : nat) (mem : Z -> Z) (i bound : Z) : outcome (Z -> Z) :=
  match fuel with
  | O => Timeout
  | S fuel' =>
    if i <? bound
    then shift_left fuel' (poke mem i (mem (wrap_size (i + 1)))) (wrap_size (i + 1)) bound
    else Done mem
  end.

Definition delete (fuel : nat) (realloc_ok : bool) (arr : option DynamicArray)
  (index : Z) : outcome (bool * option DynamicArray) :=
  match arr with
  | None => Done (false, None)
  | Some a =>
    if index >=? size a then Done (false, Some a)
    else
      mem ← shift_left fuel (data a) index (wrap_size (size a - 1));
      let a1 := {| data := mem; size := wrap_size (size a - 1); capacity := capacity a |} in
      if (capacity a1 >? 4) && (size a1 <? capacity a1 / 4)
      then Done (true, snd (resize_array realloc_ok (Some a1) (capacity a1 / 2)))
      else Done (true, Some a1)
  end.

(** [value] is the cell the out-parameter points to, [None] when the
    pointer is [NULL]. *)
Definition get (arr : option DynamicArray) (index : Z) (value : option Z)
  : bool * option Z :=
  match arr with
  | None => (false, value)
  | Some a =>
    if index >=? size a then (false, value)
    else
      match value with
      | None => (false, None)
      | Some _ => (true, Some (data a index))
      end
  end.

(** The sequence of the elements: [data[0], ..., data[size - 1]]. *)
Definition elements (a : DynamicArray) : list Z :=
  map (fun k : nat => data a (Z.of_nat k)) (seq 0 (Z.to_nat (size a))).

(** A call of the interface, with what the allocator answers to it. *)
Inductive operation : Type :=
| Append (realloc_ok : bool) (value : Z)
| Insert (realloc_ok : bool) (index value : Z)
| Delete (realloc_ok : bool) (index : Z).

Definition perform (fuel : nat) (op : operation) (arr : option DynamicArray)
  : outcome (bool * option DynamicArray) :=
  match op with
  | Append ok value => Done (append ok arr value)
  | Insert ok index value => insert fuel ok arr index value
  | Delete ok index => delete fuel ok arr index
  end.

(** The indices of a call are [size_t]. *)
Definition operation_in_size (op : operation) : Prop :=
  match op with
  | Append _ _ => True
  | Insert _ index _ => in_size index
  | Delete _ index => in_size index
  end.

(** A sequence of calls that all report success; [None] when one reports
    a failure. *)
Fixpoint perform_all (fuel : nat) (ops : list operation) (arr : option DynamicArray)
  : outcome (option (option DynamicArray)) :=
  match ops with
  | [] => Done (Some arr)
  | op :: rest =>
    r ← perform fuel op arr;
    match r with
    | (true, arr') => perform_all fuel rest arr'
    | (false, _) => Done None
    end
  end.

End DynamicArray.

(** ** exercises/intermediate/ex02_linked_list.c *)

Module LinkedList.

(** A pointer to a node is an address, [NULL] is [None]; the heap maps the
    addresses of the allocated nodes to their contents. *)
Record Node : Type := mkNode {
  data : Z;
  next : option nat
}.

(** [p->data], [p->next]: reading through a pointer that is not allocated
    is the outcome [Fault]. *)
Definition deref (h : gmap nat Node) (p : nat) : outcome Node :=
  match h !! p with
  | Some n => Done n
  | None => Fault
  end.

(** [malloc(sizeof(Node))] answers with a fresh address, or [None]. *)
Definition create_node (h : gmap nat Node) (malloc : option nat) (d : Z)
  : gmap nat Node * option nat :=
  match malloc with
  | None => (h, None)
  | Some new_node => (<[new_node := {| data := d; next := None |}]> h, Some new_node)
  end.

(** [while (current->next != NULL && current->next->data != data)
      current = current->next;] *)
Fixpoint delete_node_loop (fuel : nat) (h : gmap nat Node) (current : nat) (d : Z)
  : outcome nat :=
  match fuel with
  | O => Timeout
  | S fuel' =>
    c ← deref h current;
    match next c with
    | None => Done current
    | Some nx =>
      n ← deref h nx;
      if negb (data n =? d) then delete_node_loop fuel' h nx d
      else Done current
    end
  end.

(** [head] is the value of [*head]; the result carries the new heap and
    the new value of [*head]. *)
Definition delete_node (fuel : nat) (h : gmap nat Node) (head : option nat) (d : Z)
  : outcome (bool * gmap nat Node * option nat) :=
  match head with
  | None => Done (false, h, head)
  | Some hd =>
    hn ← deref h hd;
    if data hn =? d then
      let temp := hd in
      Done (true, base.delete temp h, next hn)
    else
      current ← delete_node_loop fuel h hd d;
      c ← deref h current;
      match next c with
      | None => Done (false, h, head)
      | Some temp =>
        t ← deref h temp;
        let h1 := <[current := {| data := data c; next := next t |}]> h in
        Done (true, base.delete temp h1, head)
      end
  end.

(** [while (current != NULL) { next = current->next; current->next = prev;
      prev = current; current = next; }] *)
Fixpoint reverse_list_loop (fuel : nat) (h : gmap nat Node) (prev current : option nat)
  : outcome (gmap nat Node * option nat) :=
  match fuel with
  | O => Timeout
  | S fuel' =>
    match current with
    | None => Done (h, prev)
    | Some c =>
      n ← deref h c;
      let nx := next n in
      let h1 := <[c := {| data := data n; next := prev |}]> h in
      reverse_list_loop fuel' h1 (Some c) nx
    end
  end.

Definition reverse_list (fuel : nat) (h : gmap nat Node) (head : option nat)
  : outcome (gmap nat Node * option nat) :=
  reverse_list_loop fuel h None head.

(** [p->next = q]: a write through a pointer that is not allocated is the
    outcome [Fault]. *)
Definition set_next (h : gmap nat Node) (p : nat) (q : option nat)
  : outcome (gmap nat Node) :=
  n ← deref h p;
  Done (<[p := {| data := data n; next := q |}]> h).

Definition insert_front (h : gmap nat Node) (malloc : option nat)
  (head : option nat) (d : Z) : outcome (gmap nat Node * option nat) :=
  let '(h1, new_node) := create_node h malloc d in
  match new_node with
  | None => Done (h1, head)
  | Some n =>
    h2 ← set_next h1 n head;
    Done (h2, Some n)
  end.

(** [while (current->next != NULL) current = current->next;] *)
Fixpoint insert_end_loop (fuel : nat) (h : gmap nat Node) (current : nat)
  : outcome nat :=
  match fuel with
  | O => Timeout
  | S fuel' =>
    c ← deref h current;
    match next c with
    | None => Done current
    | Some nx => insert_end_loop fuel' h nx
    end
  end.

Definition insert_end (fuel : nat) (h : gmap nat Node) (malloc : option nat)
  (head : option nat) (d : Z) : outcome (gmap nat Node * option nat) :=
  let '(h1, new_node) := create_node h malloc d in
  match new_node with
  | None => Done (h1, head)
  | Some n =>
    match head with
    | None => Done (h1, Some n)
    | Some hd =>
      current ← insert_end_loop fuel h1 hd;
      h2 ← set_next h1 current (Some n);
      Done (h2, head)
    end
  end.

(** [while (current != NULL && current->data != target)
      current = current->next;] *)
Fixpoint insert_after_loop (fuel : nat) (h : gmap nat Node) (current : option nat)
  (target : Z) : outcome (option nat) :=
  match fuel with
  | O => Timeout
  | S fuel' =>
    match current with
    | None => Done None
    | Some c =>
      n ← deref h c;
      if negb (data n =? target) then insert_after_loop fuel' h (next n) target
      else Done current
    end
  end.

Definition insert_after (fuel : nat) (h : gmap nat Node) (malloc : option nat)
  (head : option nat) (target d : Z) : outcome (bool * gmap nat Node) :=
  current ← insert_after_loop fuel h head target;
  match current with
  | None => Done (false, h)
  | Some c =>
    let '(h1, new_node) := create_node h malloc d in
    match new_node with
    | None => Done (false, h1)
    | Some n =>
      cn ← deref h1 c;
      h2 ← set_next h1 n (next cn);
      h3 ← set_next h2 c (Some n);
      Done (true, h3)
    end
  end.

(** [while (current != NULL) { if (current->data == data) return current;
      current = current->next; } return NULL;] *)
Fixpoint search (fuel : nat) (h : gmap nat Node) (current : option nat) (d : Z)
  : outcome (option nat) :=
  match fuel with
  | O => Timeout
  | S fuel' =>
    match current with
    | None => Done None
    | Some c =>
      n ← deref h c;
      if data n =? d then Done current
      else search fuel' h (next n) d
    end
  end.

(** [while (current != NULL) { count++; current = current->next; }] *)
Fixpoint get_length_loop (fuel : nat) (h : gmap nat Node) (current : option nat)
  (count : Z) : outcome Z :=
  match fuel with
  | O => Timeout
  | S fuel' =>
    match current with
    | None => Done count
    | Some c =>
      n ← deref h c;
      get_length_loop fuel' h (next n) (wrap_size (count + 1))
    end
  end.

Definition get_length (fuel : nat) (h : gmap nat Node) (head : option nat)
  : outcome Z :=
  get_length_loop fuel h head 0.

(** [while (current != NULL) { next = current->next; free(current);
      current = next; }] *)
Fixpoint free_list_loop (fuel : nat) (h : gmap nat Node) (current : option nat)
  : outcome (gmap nat Node) :=
  match fuel with
  | O => Timeout
  | S fuel' =>
    match current with
    | None => Done h
    | Some c =>
      n ← deref h c;
      free_list_loop fuel' (base.delete c h) (next n)
    end
  end.

(** The heap after the call and the new value of [*head]. *)
Definition free_list (fuel : nat) (h : gmap nat Node) (head : option nat)
  : outcome (gmap nat Node * option nat) :=
  h1 ← free_list_loop fuel h head;
  Done (h1, None).

(** The nodes reached from [p], with their addresses, up to [NULL]. *)
Fixpoint list_cells (h : gmap nat Node) (p : option nat) (cells : list (nat * Z))
  : Prop :=
  match cells with
  | [] => p = None
  | (l, v) :: rest =>
    p = Some l /\ exists nx, h !! l = Some {| data := v; next := nx |}
                            /\ list_cells h nx rest
  end.

(** [p] is the head of a list holding the sequence of values [vs]. *)
Definition holds (h : gmap nat Node) (p : option nat) (vs : list Z) : Prop :=
  exists cells, list_cells h p cells /\ cells.*2 = vs.

(** [vs] without the first occurrence of [d]. *)
Fixpoint remove_first (d : Z) (vs : list Z) : list Z :=
  match vs with
  | [] => []
  | v :: rest => if v =? d then rest else v :: remove_first d rest
  end.

End LinkedList.

(** ** exercises/intermediate/ex03_file_copy.c *)

Module FileCopy.

Definition BUFFER_SIZE : Z := 8192.

(** What the C library answers to [copy_file]. *)
Record environment : Type := mkEnvironment {
  malloc_buffer : bool;               (* [malloc(BUFFER_SIZE)] succeeds *)
  fopen_source : option (list Z);     (* the bytes [fread] delivers, [None]: [fopen] fails *)
  ftell_source : Z;                   (* the size [ftell] reports *)
  fopen_dest : bool;                  (* [fopen(dest_path, "wb")] succeeds *)
  fwrite_short : nat -> bool;         (* the k-th [fwrite] writes less than asked *)
  ferror_source : bool                (* the reading ended on an error *)
}.

(** [get_file_size]: -1 on a [NULL] file. *)
Definition get_file_size (file : option (list Z)) (ftell : Z) : Z :=
  match file with
  | None => -1
  | Some _ => ftell
  end.

(** [while ((bytes_read = fread(buffer, 1, BUFFER_SIZE, source)) > 0)],
    returning whether every write was complete and the bytes written. *)
Fixpoint copy_chunks (fuel : nat) (env : environment) (k : nat)
  (source dest : list Z) : outcome (bool * list Z) :=
  match fuel with
  | O => Timeout
  | S fuel' =>
    let buffer := take (Z.to_nat BUFFER_SIZE) source in
    let bytes_read := length buffer in
    if (0 <? bytes_read)%nat then
      if fwrite_short env k then Done (false, dest)
      else copy_chunks fuel' env (S k) (drop (Z.to_nat BUFFER_SIZE) source) (dest ++ buffer)
    else Done (true, dest)
  end.

(** The result code, and the bytes the destination stream has taken from
    [fwrite] when it was opened; the stream is closed at [cleanup],
    below. *)
Definition copy_file (fuel : nat) (env : environment) : outcome (Z * option (list Z)) :=
  let result := -1 in
  if negb (malloc_buffer env) then Done (-1, None)
  else
    match fopen_source env with
    | None => Done (result, None)
    | Some source =>
      let file_size := get_file_size (Some source) (ftell_source env) in
      if file_size <? 0 then Done (result, None)
      else if negb (fopen_dest env) then Done (result, None)
      else
        copied ← copy_chunks fuel env 0 source [];
        let '(complete, dest) := copied in
        if negb complete then Done (result, Some dest)
        else if ferror_source env then Done (result, Some dest)
        else Done (0, Some dest)
    end.

Definition EOF : Z := -1.

(** [fclose(dest)] writes out what the stream still holds.  [answer] is
    what the C library does: [None], it succeeds, returns 0, and the file
    holds the bytes of the stream; [Some remains], it fails, returns [EOF],
    and [remains] is what the file holds. *)
Definition fclose (answer : option (list Z)) (stream : list Z) : Z * list Z :=
  match answer with
  | None => (0, stream)
  | Some remains => (EOF, remains)
  end.

(** The label [cleanup] of [copy_file], for the destination:
    [if (dest != NULL) fclose(dest);], the result of [fclose] dropped, then
    [return result;].  It gives the result code and the destination
    file. *)
Definition cleanup (fclose_dest : option (list Z)) (result : Z)
  (dest : option (list Z)) : Z * option (list Z) :=
  match dest with
  | None => (result, None)
  | Some stream =>
    let '(_, file) := fclose fclose_dest stream in
    (result, Some file)
  end.

(** [copy_file] up to its return. *)
Definition copy_file_cleanup (fuel : nat) (env : environment)
  (fclose_dest : option (list Z)) : outcome (Z * option (list Z)) :=
  r ← copy_file fuel env;
  let '(result, dest) := r in
  Done (cleanup fclose_dest result dest).

(** [fgetc]: the next byte of the file, or [EOF]; and what is left to
    read. *)
Definition fgetc (file : list Z) : Z * list Z :=
  match file with
  | [] => (EOF, [])
  | byte :: rest => (byte, rest)
  end.

(** [while ((ch1 = fgetc(file1)) != EOF) { ch2 = fgetc(file2);
      if (ch1 != ch2) return false; }] *)
Fixpoint compare_bytes (fuel : nat) (file1 file2 : list Z) : outcome bool :=
  match fuel with
  | O => Timeout
  | S fuel' =>
    let '(ch1, rest1) := fgetc file1 in
    if negb (ch1 =? EOF) then
      let '(ch2, rest2) := fgetc file2 in
      if negb (ch1 =? ch2) then Done false
      else compare_bytes fuel' rest1 rest2
    else Done true
  end.

(** [file1], [file2]: what [fopen] answers for the two paths; [ftell1],
    [ftell2]: the sizes [ftell] reports for them. *)
Definition verify_copy (fuel : nat) (file1 file2 : option (list Z))
  (ftell1 ftell2 : Z) : outcome bool :=
  match file1, file2 with
  | Some f1, Some f2 =>
    let size1 := get_file_size file1 ftell1 in
    let size2 := get_file_size file2 ftell2 in
    if negb (size1 =? size2) then Done false
    else compare_bytes fuel f1 f2
  | _, _ => Done false
  end.

End FileCopy.

(** * Proofs *)

(** [lia] with the divisions and remainders by constants spelled out. *)
Ltac div_lia := Z.div_mod_to_equations; lia.

(** Side conditions of [wrap_id] and [wrap_size_id]: the value is in range. *)
Ltac int_range :=
  unfold in_int, in_size, INT_MIN, INT_MAX, SIZE_MAX in *; lia.

Lemma wrap_id z : in_int z -> wrap z = z.
Proof.
  unfold in_int, INT_MIN, INT_MAX, wrap. intros H.
  rewrite Z.mod_small; lia.
Qed.

Lemma load_Done arr i v :
  arr !! i = Some v -> load arr (Z.of_nat i) = Done v.
Proof.
  intros H. unfold load.
  destruct (Z.leb_spec 0 (Z.of_nat i)); [|lia].
  by rewrite Nat2Z.id, H.
Qed.

(** ** Linear search *)

Lemma linear_search_loop_spec arr target :
  Z.of_nat (length arr) <= INT_MAX ->
  forall (k : nat) (i : nat) (fuel : nat),
    (i + k = length arr)%nat -> (k < fuel)%nat ->
    (forall j, (j < i)%nat -> arr !! j ≠ Some target) ->
    exists r,
      Searching.linear_search_loop fuel arr (Z.of_nat (length arr)) target (Z.of_nat i)
      = Done r
      /\ ((exists j, arr !! j = Some target) ->
            0 <= r /\ arr !! Z.to_nat r = Some target
            /\ forall j, (j < Z.to_nat r)%nat -> arr !! j ≠ Some target)
      /\ ((forall j, arr !! j ≠ Some target) -> r = -1).
Proof.
  intros Hmax. induction k as [|k IH]; intros i fuel Hik Hfuel Hprev.
  - destruct fuel as [|fuel]; [lia|]. simpl.
    destruct (Z.ltb_spec (Z.of_nat i) (Z.of_nat (length arr))); [lia|].
    exists (-1). split; [done|]. split; [|done].
    intros [j Hj]. exfalso. apply (Hprev j); [|done].
    apply lookup_lt_Some in Hj. lia.
  - destruct fuel as [|fuel]; [lia|]. simpl.
    destruct (Z.ltb_spec (Z.of_nat i) (Z.of_nat (length arr))); [|lia].
    destruct (lookup_lt_is_Some_2 arr i) as [v Hv]; [lia|].
    rewrite (load_Done _ _ _ Hv). simpl.
    destruct (Z.eqb_spec v target) as [->|Hne].
    + exists (Z.of_nat i). split; [done|]. split.
      * intros _. rewrite Nat2Z.id. split; [lia|]. split; [done|]. done.
      * intros Hno. by destruct (Hno i).
    + rewrite wrap_id by int_range.
      replace (Z.of_nat i + 1) with (Z.of_nat (S i)) by lia.
      apply IH; [lia|lia|].
      intros j Hj. destruct (decide (j = i)) as [->|]; [congruence|].
      apply Hprev. lia.
Qed.

(** C6. On every array, with [size] its length, [linear_search] returns
    the index of the first occurrence of the target when the target is in
    the array, and -1 when it is not. *)
Theorem linear_search_first_occurrence (arr : list Z) (target : Z) :
  Z.of_nat (length arr) <= INT_MAX ->
  exists r,
    (forall fuel, (length arr < fuel)%nat ->
       Searching.linear_search fuel arr (Z.of_nat (length arr)) target = Done r)
    /\ (target ∈ arr ->
          0 <= r /\ arr !! Z.to_nat r = Some target
          /\ forall j, (j < Z.to_nat r)%nat -> arr !! j ≠ Some target)
    /\ (target ∉ arr -> r = -1).
Proof.
  intros Hmax.
  destruct (linear_search_loop_spec arr target Hmax (length arr) 0 (S (length arr)))
    as (r & Hr & Hin & Hout); [lia|lia|intros; lia|].
  exists r. split; [|split].
  - intros fuel Hfuel.
    destruct (linear_search_loop_spec arr target Hmax (length arr) 0 fuel)
      as (r' & Hr' & Hin' & Hout'); [lia|lia|intros; lia|].
    unfold Searching.linear_search. change 0 with (Z.of_nat 0) at 1.
    rewrite Hr'. f_equal.
    destruct (decide (target ∈ arr)) as [Hd|Hd].
    + apply list_elem_of_lookup in Hd.
      destruct (Hin Hd) as (? & ? & Hm), (Hin' Hd) as (? & ? & Hm').
      destruct (Z.lt_trichotomy r r') as [?|[?|?]]; [|done|].
      * exfalso. apply (Hm' (Z.to_nat r)); [lia|done].
      * exfalso. apply (Hm (Z.to_nat r')); [lia|done].
    + rewrite Hout, Hout'; [done| |]; intros j Hj; apply Hd;
        apply list_elem_of_lookup; eauto.
  - intros Hd. apply Hin. by apply list_elem_of_lookup.
  - intros Hd. apply Hout. intros j Hj. apply Hd. apply list_elem_of_lookup; eauto.
Qed.

Lemma linear_search_first_occurrence_witness :
  Z.of_nat (length [3; 1; 4; 1; 5]) <= INT_MAX
  /\ exists r,
    (forall fuel, (length [3; 1; 4; 1; 5] < fuel)%nat ->
       Searching.linear_search fuel [3; 1; 4; 1; 5] (Z.of_nat (length [3; 1; 4; 1; 5])) 1 = Done r)
    /\ (1 ∈ [3; 1; 4; 1; 5] ->
          0 <= r /\ [3; 1; 4; 1; 5] !! Z.to_nat r = Some 1
          /\ forall j, (j < Z.to_nat r)%nat -> [3; 1; 4; 1; 5] !! j ≠ Some 1)
    /\ (1 ∉ [3; 1; 4; 1; 5] -> r = -1).
Proof.
  split; [vm_compute; discriminate|].
  apply (linear_search_first_occurrence [3; 1; 4; 1; 5] 1).
  vm_compute; discriminate.
Defined.

(** ** Binary search *)

Lemma Sorted_le_lookup (arr : list Z) :
  Sorted Z.le arr ->
  forall i j x y, (i <= j)%nat -> arr !! i = Some x -> arr !! j = Some y -> x <= y.
Proof.
  intros Hs. apply Sorted_StronglySorted in Hs; [|intros a b c; lia].
  induction Hs as [|a l Hl IH Hall]; intros i j x y Hij Hi Hj; [done|].
  destruct i as [|i], j as [|j]; simpl in *; simplify_eq; try lia.
  - rewrite Forall_forall in Hall. apply Hall.
    apply list_elem_of_lookup. eauto.
  - apply (IH i j); [lia|done|done].
Qed.

Lemma mid_bounds left right :
  0 <= left -> left <= right -> right <= INT_MAX ->
  wrap (left + wrap (wrap (right - left) ÷ 2)) = left + (right - left) / 2
  /\ left <= left + (right - left) / 2 <= right.
Proof.
  unfold INT_MAX. intros H0 Hlr Hr.
  rewrite (wrap_id (right - left)) by int_range.
  rewrite Z.quot_div_nonneg by lia.
  assert (0 <= (right - left) / 2 <= right - left).
  { split; [apply Z.div_pos; lia|apply Z.div_le_upper_bound; lia]. }
  rewrite (wrap_id ((right - left) / 2)) by int_range.
  rewrite wrap_id by int_range. lia.
Qed.

Lemma load_in_range (arr : list Z) i :
  0 <= i < Z.of_nat (length arr) ->
  exists v, arr !! Z.to_nat i = Some v /\ load arr i = Done v.
Proof.
  intros Hi. destruct (lookup_lt_is_Some_2 arr (Z.to_nat i)) as [v Hv]; [lia|].
  exists v. split; [done|]. unfold load.
  destruct (Z.leb_spec 0 i); [|lia]. by rewrite Hv.
Qed.

Lemma binary_search_loop_spec (arr : list Z) target :
  Z.of_nat (length arr) <= INT_MAX ->
  forall (fuel : nat) (left right : Z),
    0 <= left -> right < Z.of_nat (length arr) ->
    (0 < fuel)%nat -> right - left + 1 < Z.of_nat fuel ->
    exists r, Searching.binary_search_loop fuel arr target left right = Done r
      /\ (Sorted Z.le arr ->
          (forall j, arr !! j = Some target -> left <= Z.of_nat j <= right) ->
          ((exists j, arr !! j = Some target) ->
             0 <= r /\ arr !! Z.to_nat r = Some target)
          /\ ((forall j, arr !! j ≠ Some target) -> r = -1)).
Proof.
  intros Hmax. induction fuel as [|fuel IH]; intros left right Hl Hr Hpos Hfuel; [lia|].
  simpl. destruct (Z.leb_spec left right) as [Hlr|Hlr].
  - destruct (mid_bounds left right) as [-> Hmid]; [lia..|].
    set (m := left + (right - left) / 2) in *.
    destruct (load_in_range arr m) as (v & Hv & ->); [lia|]. simpl.
    destruct (Z.eqb_spec v target) as [->|Hne].
    { exists m. split; [done|]. intros _ _. split; [intros _; split; [lia|done]|].
      intros Hno. by destruct (Hno (Z.to_nat m)). }
    destruct (Z.ltb_spec v target) as [Hlt|Hge].
    + rewrite wrap_id by int_range.
      destruct (IH (m + 1) right) as (r & -> & Hspec); [lia..|].
      exists r. split; [done|]. intros Hs Hinv. apply Hspec; [done|].
      intros j Hj. specialize (Hinv j Hj). split; [|lia].
      destruct (Z.le_gt_cases (m + 1) (Z.of_nat j)); [done|].
      assert (target <= v); [|lia].
      apply (Sorted_le_lookup arr Hs j (Z.to_nat m)); [lia|done|done].
    + rewrite wrap_id by int_range.
      destruct (IH left (m - 1)) as (r & -> & Hspec); [lia..|].
      exists r. split; [done|]. intros Hs Hinv. apply Hspec; [done|].
      intros j Hj. specialize (Hinv j Hj). split; [lia|].
      destruct (Z.le_gt_cases (Z.of_nat j) (m - 1)); [done|].
      assert (v <= target); [|lia].
      apply (Sorted_le_lookup arr Hs (Z.to_nat m) j); [lia|done|done].
  - exists (-1). split; [done|]. intros _ Hinv. split; [|done].
    intros [j Hj]. specialize (Hinv j Hj). lia.
Qed.

Lemma binary_search_loop_fuel (arr : list Z) target fuel :
  forall fuel' left right r,
    (fuel <= fuel')%nat ->
    Searching.binary_search_loop fuel arr target left right = Done r ->
    Searching.binary_search_loop fuel' arr target left right = Done r.
Proof.
  induction fuel as [|fuel IH]; intros fuel' left right r Hle; [done|].
  destruct fuel' as [|fuel']; [lia|]. simpl.
  destruct (left <=? right); [|done].
  destruct (load arr _) as [v| |]; simpl; [|done..].
  destruct (v =? target); [done|].
  destruct (v <? target); apply IH; lia.
Qed.

Lemma binary_search_recursive_loop (arr : list Z) target fuel :
  forall left right,
    Searching.binary_search_recursive fuel arr left right target
    = Searching.binary_search_loop fuel arr target left right.
Proof.
  induction fuel as [|fuel IH]; intros left right; [done|]. simpl.
  rewrite Z.gtb_ltb, Z.ltb_antisym. destruct (left <=? right); simpl; [|done].
  destruct (load arr _) as [v| |]; simpl; [|done..].
  destruct (v =? target); [done|].
  destruct (v <? target); apply IH.
Qed.

(** C1. On a sorted array whose length the [int] [size] holds, the
    iterative and the recursive binary search both return an index at which
    the target stands when the target occurs in the array, and -1 when it
    does not. *)
Theorem binary_search_correct (arr : list Z) (target : Z) :
  Sorted Z.le arr ->
  Z.of_nat (length arr) <= INT_MAX ->
  exists r r',
    (forall fuel, (length arr < fuel)%nat ->
       Searching.binary_search fuel arr (Z.of_nat (length arr)) target = Done r
       /\ Searching.binary_search_recursive fuel arr 0 (Z.of_nat (length arr) - 1) target
          = Done r')
    /\ (target ∈ arr ->
          0 <= r /\ arr !! Z.to_nat r = Some target
          /\ 0 <= r' /\ arr !! Z.to_nat r' = Some target)
    /\ (target ∉ arr -> r = -1 /\ r' = -1).
Proof.
  intros Hs Hmax.
  destruct (binary_search_loop_spec arr target Hmax (S (length arr)) 0
              (Z.of_nat (length arr) - 1)) as (r & Hr & Hspec); [lia..|].
  destruct Hspec as [Hin Hout]; [done| |].
  { intros j Hj. apply lookup_lt_Some in Hj. lia. }
  exists r, r. split; [|split].
  - intros fuel Hfuel. unfold Searching.binary_search.
    rewrite binary_search_recursive_loop.
    rewrite wrap_id by int_range.
    split; apply (binary_search_loop_fuel arr target (S (length arr))); (lia || done).
  - intros Hd. apply list_elem_of_lookup in Hd. destruct (Hin Hd). done.
  - intros Hd. split; apply Hout; intros j Hj; apply Hd, list_elem_of_lookup; eauto.
Qed.

Lemma binary_search_correct_witness :
  Sorted Z.le [1; 3; 5; 7; 9]
  /\ Z.of_nat (length [1; 3; 5; 7; 9]) <= INT_MAX
  /\ exists r r',
    (forall fuel, (length [1; 3; 5; 7; 9] < fuel)%nat ->
       Searching.binary_search fuel [1; 3; 5; 7; 9] (Z.of_nat (length [1; 3; 5; 7; 9])) 7 = Done r
       /\ Searching.binary_search_recursive fuel [1; 3; 5; 7; 9] 0
            (Z.of_nat (length [1; 3; 5; 7; 9]) - 1) 7 = Done r')
    /\ (7 ∈ [1; 3; 5; 7; 9] ->
          0 <= r /\ [1; 3; 5; 7; 9] !! Z.to_nat r = Some 7
          /\ 0 <= r' /\ [1; 3; 5; 7; 9] !! Z.to_nat r' = Some 7)
    /\ (7 ∉ [1; 3; 5; 7; 9] -> r = -1 /\ r' = -1).
Proof.
  assert (Hs : Sorted Z.le [1; 3; 5; 7; 9]).
  { repeat constructor; vm_compute; discriminate. }
  split; [exact Hs|]. split; [vm_compute; discriminate|].
  apply (binary_search_correct [1; 3; 5; 7; 9] 7 Hs).
  vm_compute; discriminate.
Defined.

(** ** Primes: [is_prime] and [next_prime] *)

Lemma wrap_in_int z : in_int (wrap z).
Proof.
  unfold in_int, INT_MIN, INT_MAX, wrap.
  pose proof (Z.mod_pos_bound (z + 2147483648) 4294967296). lia.
Qed.

Lemma int_rem_Done n d :
  0 <= n <= INT_MAX -> 0 < d ->
  MathUtils.int_rem n d = Done (Z.rem n d) /\ (Z.rem n d = 0 <-> (d | n)).
Proof.
  unfold INT_MAX. intros Hn Hd. unfold MathUtils.int_rem.
  destruct (Z.eqb_spec d 0); [lia|].
  pose proof (Z.rem_bound_pos n d).
  pose proof (Z.rem_le n d).
  rewrite wrap_id by int_range.
  split; [done|]. apply Z.rem_divide. lia.
Qed.

Lemma divisor_not_even n d : ~ (2 | n) -> (d | n) -> d mod 2 <> 0.
Proof.
  intros Hn Hd Hm. apply Hn. apply Z.divide_trans with d; [|done].
  apply Z.mod_divide; lia.
Qed.

Lemma divisor_not_triple n d : ~ (3 | n) -> (d | n) -> d mod 3 <> 0.
Proof.
  intros Hn Hd Hm. apply Hn. apply Z.divide_trans with d; [|done].
  apply Z.mod_divide; lia.
Qed.

Lemma no_small_divisor_prime n i :
  1 < n -> n < i * i -> 0 < i ->
  (forall d, 1 < d < i -> ~ (d | n)) -> Z.prime n.
Proof.
  intros Hn Hi Hpos Hno. split; [done|].
  intros d Hd [q Hq].
  assert (1 < q) by nia.
  destruct (Z.lt_ge_cases d i) as [Hlt|Hge].
  - apply (Hno d); [lia|]. by exists q.
  - assert (q < i) by nia.
    apply (Hno q); [lia|]. exists d. lia.
Qed.

Lemma divisor_not_prime n d : 1 < d < n -> (d | n) -> ~ Z.prime n.
Proof.
  intros Hd Hdiv [_ Hp]. by apply (Hp d).
Qed.

Lemma is_prime_loop_spec n :
  3 < n < 2147117569 -> ~ (2 | n) -> ~ (3 | n) ->
  forall (fuel : nat) (i : Z),
    i mod 6 = 5 -> 5 <= i <= 46337 ->
    (forall d, 1 < d < i -> ~ (d | n)) ->
    46343 - i < 6 * Z.of_nat fuel ->
    exists b, MathUtils.is_prime_loop fuel n i = Done b /\ (b = true <-> Z.prime n).
Proof.
  intros Hn H2 H3. induction fuel as [|fuel IH]; intros i Hmod Hi Hno Hfuel; [lia|].
  simpl.
  rewrite (wrap_id (i * i)) by (unfold in_int, INT_MIN, INT_MAX; nia).
  destruct (Z.leb_spec (i * i) n) as [Hle|Hgt].
  - destruct (int_rem_Done n i) as [-> Hr1]; [unfold INT_MAX; lia|lia|].
    cbn [mbind outcome_bind]. destruct (Z.eqb_spec (Z.rem n i) 0) as [E1|E1].
    { exists false. split; [done|]. split; [done|].
      intros Hp. exfalso. apply (divisor_not_prime n i); [nia|by apply Hr1|done]. }
    rewrite (wrap_id (i + 2)) by int_range.
    destruct (int_rem_Done n (i + 2)) as [-> Hr2]; [unfold INT_MAX; lia|lia|].
    cbn [mbind outcome_bind]. destruct (Z.eqb_spec (Z.rem n (i + 2)) 0) as [E2|E2].
    { exists false. split; [done|]. split; [done|].
      intros Hp. exfalso. apply (divisor_not_prime n (i + 2)); [nia|by apply Hr2|done]. }
    rewrite (wrap_id (i + 6)) by int_range.
    assert (i < 46337) by nia.
    apply IH; [div_lia|div_lia| |lia].
    intros d Hd Hdiv.
    pose proof (divisor_not_even n d H2 Hdiv).
    pose proof (divisor_not_triple n d H3 Hdiv).
    destruct (Z.lt_ge_cases d i) as [Hlt|Hge]; [apply (Hno d); [lia|done]|].
    assert (d = i \/ d = i + 2) as [->| ->] by div_lia.
    + apply E1. by apply Hr1.
    + apply E2. by apply Hr2.
  - exists true. split; [done|]. split; [|done]. intros _.
    apply (no_small_divisor_prime n i); [lia..|done].
Qed.

Lemma is_prime_spec n (fuel : nat) :
  n < 2147117569 -> 7724 <= Z.of_nat fuel ->
  exists b, MathUtils.is_prime fuel n = Done b /\ (b = true <-> Z.prime n).
Proof.
  intros Hn Hfuel. unfold MathUtils.is_prime.
  destruct (Z.leb_spec n 1).
  { exists false. split; [done|]. split; [done|]. intros [? _]. lia. }
  destruct (Z.leb_spec n 3).
  { exists true. split; [done|]. split; [|done]. intros _.
    assert (n = 2 \/ n = 3) as [->| ->] by lia; [apply Z.prime_2|apply Z.prime_3]. }
  destruct (int_rem_Done n 2) as [-> Hr2]; [unfold INT_MAX; lia|lia|].
  cbn [mbind outcome_bind]. destruct (Z.eqb_spec (Z.rem n 2) 0) as [E2|E2].
  { exists false. split; [done|]. split; [done|]. intros Hp. exfalso.
    apply (divisor_not_prime n 2); [lia|by apply Hr2|done]. }
  destruct (int_rem_Done n 3) as [-> Hr3]; [unfold INT_MAX; lia|lia|].
  cbn [mbind outcome_bind]. destruct (Z.eqb_spec (Z.rem n 3) 0) as [E3|E3].
  { exists false. split; [done|]. split; [done|]. intros Hp. exfalso.
    apply (divisor_not_prime n 3); [lia|by apply Hr3|done]. }
  apply is_prime_loop_spec; [lia|tauto|tauto|done|lia| |lia].
  intros d Hd Hdiv.
  pose proof (divisor_not_even n d (proj1 (not_iff_compat Hr2) E2) Hdiv).
  pose proof (divisor_not_triple n d (proj1 (not_iff_compat Hr3) E3) Hdiv).
  div_lia.
Qed.






Lemma next_prime_loop_S (fuel : nat) (c : Z) :
  MathUtils.next_prime_loop (S fuel) c
  = (p ← MathUtils.is_prime (S fuel) c;
     if negb p then MathUtils.next_prime_loop fuel (wrap (c + 1)) else Done c).
Proof. reflexivity. Qed.

Lemma is_prime_below_2 (fuel : nat) (c : Z) :
  c <= 1 -> MathUtils.is_prime fuel c = Done false.
Proof.
  intros Hc. unfold MathUtils.is_prime. destruct (Z.leb_spec c 1); [done|lia].
Qed.

(** What the wrap-around makes of [next_prime(INT_MAX)]: the candidate
    starts again at [INT_MIN] and the loop stops at 2. *)
Lemma next_prime_loop_below_2 :
  forall (k : nat) (c : Z),
    INT_MIN <= c -> c + Z.of_nat k = 2 ->
    MathUtils.next_prime_loop (S k) c = Done 2.
Proof.
  induction k as [|k IH]; intros c Hmin Hk.
  - replace c with 2 by lia. reflexivity.
  - rewrite next_prime_loop_S, is_prime_below_2 by lia.
    cbn [mbind outcome_bind negb].
    rewrite wrap_id by int_range.
    apply IH; lia.
Qed.

Lemma next_prime_INT_MAX_wraps :
  exists fuel, MathUtils.next_prime fuel INT_MAX = Done 2.
Proof.
  exists (S (Z.to_nat 2147483650)). unfold MathUtils.next_prime.
  change (INT_MAX <? 2) with false. change (wrap (INT_MAX + 1)) with INT_MIN.
  cbv iota. apply next_prime_loop_below_2; unfold INT_MIN; lia.
Qed.

(** *** Where [i * i] leaves the [int] range

    From 46343 on, [i * i] no longer fits an [int].  On the prime
    [INT_MAX] the wrapped square never exceeds [n], and the loop of
    [is_prime] runs until [i + 2] is [n] itself. *)

Lemma no_divisor_from_spec (fuel : nat) :
  forall n d, 0 < d -> no_divisor_from fuel n d = true ->
    forall e, d <= e < d + Z.of_nat fuel -> ~ (e | n).
Proof.
  induction fuel as [|fuel IH]; intros n d Hd Hcheck e He; [lia|].
  cbn [no_divisor_from] in Hcheck. apply andb_prop in Hcheck as [Hrem Hrest].
  destruct (Z.eq_dec e d) as [->|Hne].
  - intros Hdiv. apply Z.rem_divide in Hdiv; [|lia].
    rewrite Hdiv in Hrem. discriminate.
  - apply (IH n (d + 1)); [lia|done|lia].
Qed.

Lemma prime_INT_MAX : Z.prime INT_MAX.
Proof.
  apply (no_small_divisor_prime INT_MAX 46343); [done|done|done|].
  intros d Hd.
  apply (no_divisor_from_spec (Z.to_nat 46341) INT_MAX 2); [done| |lia].
  vm_compute. reflexivity.
Qed.

Lemma is_prime_loop_S (fuel : nat) (n i : Z) :
  MathUtils.is_prime_loop (S fuel) n i
  = (if wrap (i * i) <=? n then
       r1 ← MathUtils.int_rem n i;
       if r1 =? 0 then Done false
       else
         r2 ← MathUtils.int_rem n (wrap (i + 2));
         if r2 =? 0 then Done false
         else MathUtils.is_prime_loop fuel n (wrap (i + 6))
     else Done true).
Proof. reflexivity. Qed.

Lemma is_prime_loop_INT_MAX :
  forall (k : nat) (i : Z),
    5 <= i -> i + 6 * Z.of_nat k = 2147483645 ->
    MathUtils.is_prime_loop (S k) INT_MAX i = Done false.
Proof.
  pose proof prime_INT_MAX as [_ Hprime].
  induction k as [|k IH]; intros i Hi Hk; rewrite is_prime_loop_S;
    pose proof (wrap_in_int (i * i)) as [_ Hsq];
    (destruct (Z.leb_spec (wrap (i * i)) INT_MAX); [|lia]);
    (destruct (int_rem_Done INT_MAX i) as [-> Hr1]; [done|lia|]);
    cbn [mbind outcome_bind];
    (destruct (Z.eqb_spec (Z.rem INT_MAX i) 0) as [E1|E1];
       [exfalso; apply (Hprime i); [unfold INT_MAX; lia|by apply Hr1]|]);
    rewrite (wrap_id (i + 2)) by int_range;
    (destruct (int_rem_Done INT_MAX (i + 2)) as [-> Hr2]; [done|lia|]);
    cbn [mbind outcome_bind].
  - replace (i + 2) with INT_MAX by (unfold INT_MAX; lia).
    by rewrite Z.rem_same.
  - destruct (Z.eqb_spec (Z.rem INT_MAX (i + 2)) 0) as [E2|E2];
      [exfalso; apply (Hprime (i + 2)); [unfold INT_MAX; lia|by apply Hr2]|].
    rewrite wrap_id by int_range. apply IH; lia.
Qed.

Lemma is_prime_loop_fuel (fuel : nat) :
  forall fuel' n i b,
    (fuel <= fuel')%nat ->
    MathUtils.is_prime_loop fuel n i = Done b ->
    MathUtils.is_prime_loop fuel' n i = Done b.
Proof.
  induction fuel as [|fuel IH]; intros fuel' n i b Hle; [done|].
  destruct fuel' as [|fuel']; [lia|]. rewrite !is_prime_loop_S.
  destruct (_ <=? _); [|done].
  destruct (MathUtils.int_rem n i) as [r1| |]; cbn [mbind outcome_bind]; [|done..].
  destruct (r1 =? 0); [done|].
  destruct (MathUtils.int_rem n _) as [r2| |]; cbn [mbind outcome_bind]; [|done..].
  destruct (r2 =? 0); [done|]. apply IH. lia.
Qed.

Lemma is_prime_fuel (fuel fuel' : nat) (n : Z) (b : bool) :
  (fuel <= fuel')%nat ->
  MathUtils.is_prime fuel n = Done b -> MathUtils.is_prime fuel' n = Done b.
Proof.
  intros Hle. unfold MathUtils.is_prime.
  destruct (n <=? 1); [done|]. destruct (n <=? 3); [done|].
  destruct (MathUtils.int_rem n 2) as [r2| |]; cbn [mbind outcome_bind]; [|done..].
  destruct (r2 =? 0); [done|].
  destruct (MathUtils.int_rem n 3) as [r3| |]; cbn [mbind outcome_bind]; [|done..].
  destruct (r3 =? 0); [done|]. by apply is_prime_loop_fuel.
Qed.

(** [is_prime] takes the prime [INT_MAX] for a composite number. *)
Lemma is_prime_INT_MAX_false (fuel : nat) :
  357913941 <= Z.of_nat fuel -> MathUtils.is_prime fuel INT_MAX = Done false.
Proof.
  intros Hfuel. apply (is_prime_fuel (S (Z.to_nat 357913940))); [lia|].
  unfold MathUtils.is_prime.
  change (INT_MAX <=? 1) with false. change (INT_MAX <=? 3) with false. cbv iota.
  change (MathUtils.int_rem INT_MAX 2) with (Done (A:=Z) 1).
  change (MathUtils.int_rem INT_MAX 3) with (Done (A:=Z) 1).
  cbn [mbind outcome_bind]. change (1 =? 0) with false. cbv iota.
  apply is_prime_loop_INT_MAX; lia.
Qed.

Lemma next_prime_loop_skip :
  forall (k : nat) (c : Z) (fuel : nat) (r : Z),
    c + Z.of_nat k <= INT_MAX + 1 -> INT_MIN <= c ->
    (forall e f, c <= e < c + Z.of_nat k -> (fuel <= f)%nat ->
       MathUtils.is_prime (S f) e = Done false) ->
    MathUtils.next_prime_loop fuel (wrap (c + Z.of_nat k)) = Done r ->
    MathUtils.next_prime_loop (k + fuel) (wrap c) = Done r.
Proof.
  induction k as [|k IH]; intros c fuel r Hmax Hmin Hcomposite Hrun.
  - by rewrite Z.add_0_r in Hrun.
  - cbn [Nat.add]. rewrite (wrap_id c) by int_range. rewrite next_prime_loop_S.
    rewrite (Hcomposite c (k + fuel)%nat) by lia. cbn [mbind outcome_bind negb].
    apply IH; [lia|lia| |].
    + intros e f He Hf. apply Hcomposite; lia.
    + by replace (c + 1 + Z.of_nat k) with (c + Z.of_nat (S k)) by lia.
Qed.

(** The largest prime an [int] holds is never returned: from 2147483629,
    the prime before it, [next_prime] passes over [INT_MAX], wraps around
    and returns 2. *)
Lemma next_prime_2147483629_wraps :
  exists fuel, MathUtils.next_prime fuel 2147483629 = Done 2.
Proof.
  exists (18 + S (Z.to_nat 2147483650))%nat. unfold MathUtils.next_prime.
  change (2147483629 <? 2) with false. cbv iota.
  apply next_prime_loop_skip.
  - done.
  - done.
  - intros e f He Hf.
    destruct (Z.eq_dec e INT_MAX) as [->|Hne]; [apply is_prime_INT_MAX_false; lia|].
    apply (is_prime_fuel (Z.to_nat 7724)); [lia|].
    unfold INT_MAX in Hne.
    assert (e = 2147483630 \/ e = 2147483631 \/ e = 2147483632 \/ e = 2147483633
            \/ e = 2147483634 \/ e = 2147483635 \/ e = 2147483636 \/ e = 2147483637
            \/ e = 2147483638 \/ e = 2147483639 \/ e = 2147483640 \/ e = 2147483641
            \/ e = 2147483642 \/ e = 2147483643 \/ e = 2147483644 \/ e = 2147483645
            \/ e = 2147483646) as Hcases by lia.
    repeat (destruct Hcases as [->|Hcases]; [vm_compute; reflexivity|]).
    subst e. vm_compute. reflexivity.
  - change (wrap (2147483629 + 1 + Z.of_nat 18)) with INT_MIN.
    apply next_prime_loop_below_2; unfold INT_MIN; lia.
Qed.




(** ** [divide] *)

Lemma digits2_pos_size p : digits2_pos p = Pos.size p.
Proof. induction p; simpl; congruence. Qed.

Lemma digits2_pos_iter_xO p k :
  digits2_pos (Pos.iter xO p k) = (digits2_pos p + k)%positive.
Proof.
  induction k using Pos.peano_ind.
  - simpl. lia.
  - rewrite Pos.iter_succ. simpl. rewrite IHk. lia.
Qed.

Lemma digits2_pos_bound p : Z.pos p <= 2147483648 -> Z.pos (digits2_pos p) <= 32.
Proof.
  intros Hp. rewrite digits2_pos_size.
  pose proof (Pos.size_le p) as Hs.
  destruct (Z.le_gt_cases (Z.pos (Pos.size p)) 32) as [|Hgt]; [done|exfalso].
  assert (2 ^ 33 <= 2 ^ Z.pos (Pos.size p)) by (apply Z.pow_le_mono_r; lia).
  assert (Z.pos (2 ^ Pos.size p) <= Z.pos p~0) by (apply Pos2Z.pos_le_pos, Hs).
  rewrite Pos2Z.inj_pow in *. change (2 ^ 33) with 8589934592 in *. lia.
Qed.

Lemma binary_round_not_zero s p :
  Z.pos p <= 2147483648 -> MathUtils.is_zero (binary_round MathUtils.prec MathUtils.emax s p 0) = false.
Proof.
  intros Hp. pose proof (digits2_pos_bound p Hp) as Hd.
  unfold binary_round, shl_align.
  assert (Hf : fexp MathUtils.prec MathUtils.emax (Z.pos (digits2_pos p) + 0) = Z.pos (digits2_pos p) - 53).
  { unfold fexp, emin, MathUtils.prec, MathUtils.emax. lia. }
  rewrite Hf.
  destruct (Z.pos (digits2_pos p) - 53 - 0) as [|k|k] eqn:Hk; try lia.
  unfold binary_round_aux, shr_fexp.
  cbn [Zdigits2]. rewrite digits2_pos_iter_xO.
  assert (Hs : fexp MathUtils.prec MathUtils.emax (Z.pos (digits2_pos p + k) + (Z.pos (digits2_pos p) - 53))
               - (Z.pos (digits2_pos p) - 53) = 0).
  { unfold fexp, emin, MathUtils.prec, MathUtils.emax. lia. }
  rewrite Hs. cbn [shr shr_record_of_loc shr_m loc_of_shr_record round_nearest_even Zdigits2].
  rewrite digits2_pos_iter_xO, Hs. cbn [shr shr_m shr_record_of_loc].
  destruct (_ <=? _); reflexivity.
Qed.

Lemma double_of_int_not_zero b :
  in_int b -> b <> 0 -> MathUtils.is_zero (MathUtils.double_of_int b) = false.
Proof.
  unfold in_int, INT_MIN, INT_MAX. intros Hb Hne.
  destruct b as [|p|p]; [done| |]; unfold MathUtils.double_of_int, binary_normalize;
    apply binary_round_not_zero; lia.
Qed.

Example divide_7_2 :
  MathUtils.divide 7 2 = Done (S754_finite false 7881299347898368 (-51)).
Proof. reflexivity. Qed.

(** C9. [divide] returns a value on every pair of [int]: 0.0 when [b] is
    zero and the quotient of the two conversions to [double] when it is
    not, and it never divides by zero. *)
Theorem divide_total (a b : Z) :
  in_int b ->
  (b = 0 -> MathUtils.divide a b = Done (S754_zero false))
  /\ (b <> 0 ->
      MathUtils.divide a b
      = Done (SFdiv MathUtils.prec MathUtils.emax
                (MathUtils.double_of_int a) (MathUtils.double_of_int b)))
  /\ MathUtils.divide a b <> Fault.
Proof.
  intros Hb. unfold MathUtils.divide, MathUtils.double_div.
  destruct (Z.eqb_spec b 0) as [->|Hne].
  - split; [done|]. split; [done|]. discriminate.
  - rewrite (double_of_int_not_zero b Hb Hne).
    split; [done|]. split; [done|]. discriminate.
Qed.

Lemma divide_total_witness :
  in_int 2
  /\ (2 = 0 -> MathUtils.divide 7 2 = Done (S754_zero false))
  /\ (2 <> 0 ->
      MathUtils.divide 7 2
      = Done (SFdiv MathUtils.prec MathUtils.emax
                (MathUtils.double_of_int 7) (MathUtils.double_of_int 2)))
  /\ MathUtils.divide 7 2 <> Fault.
Proof.
  split; [vm_compute; split; discriminate|].
  apply (divide_total 7 2). vm_compute; split; discriminate.
Defined.

(** ** The dynamic array *)

Lemma wrap_size_id z : in_size z -> wrap_size z = z.
Proof.
  unfold in_size, SIZE_MAX, wrap_size. intros H. apply Z.mod_small. lia.
Qed.

Lemma shift_right_Done (fuel : nat) :
  forall mem i index,
    0 <= index -> i <= SIZE_MAX -> Z.max 0 (i - index) < Z.of_nat fuel ->
    exists mem', DynamicArray.shift_right fuel mem i index = Done mem'.
Proof.
  induction fuel as [|fuel IH]; intros mem i index H0 Hi Hfuel; [lia|].
  - simpl. destruct (Z.gtb_spec i index); [|by eexists].
    rewrite wrap_size_id by int_range. apply IH; lia.
Qed.

Lemma shift_left_Done (fuel : nat) :
  forall mem i bound,
    0 <= i -> bound <= SIZE_MAX -> Z.max 0 (bound - i) < Z.of_nat fuel ->
    exists mem', DynamicArray.shift_left fuel mem i bound = Done mem'.
Proof.
  induction fuel as [|fuel IH]; intros mem i bound H0 Hb Hfuel; [lia|].
  - simpl. destruct (Z.ltb_spec i bound); [|by eexists].
    rewrite wrap_size_id by int_range. apply IH; lia.
Qed.

(** C3, as stated, fails when the capacity is at most 4: deleting the only
    element of an array of capacity 4 leaves size 0, below a quarter of
    the capacity, and the capacity stays 4. *)
Lemma delete_capacity_4_not_halved :
  exists a',
    DynamicArray.delete 1 true
      (Some {| DynamicArray.data := fun _ => 0; DynamicArray.size := 1;
               DynamicArray.capacity := 4 |}) 0
    = Done (true, Some a')
    /\ DynamicArray.size a' < 4 / 4
    /\ DynamicArray.capacity a' <> 4 / 2.
Proof.
  eexists. split; [reflexivity|]. split; [reflexivity|]. discriminate.
Qed.

(** C3, amended. When the reallocation succeeds, [append] and [insert] on
    an array [a] whose size equals its capacity store the element in an
    array of twice the capacity.  [delete], on any array [b] and at any
    position below its size, halves the capacity exactly when it leaves
    the size below a quarter of a capacity greater than 4; otherwise, and
    so whenever the capacity is 4 or less, it leaves the capacity as it
    is. *)
Theorem doubling_halving (a b : DynamicArray.DynamicArray)
  (index value position : Z) (fuel : nat) :
  0 <= DynamicArray.size a -> DynamicArray.size a = DynamicArray.capacity a ->
  2 * DynamicArray.capacity a <= SIZE_MAX ->
  0 <= index <= DynamicArray.size a -> DynamicArray.size a < Z.of_nat fuel ->
  0 <= position < DynamicArray.size b -> DynamicArray.size b <= SIZE_MAX ->
  DynamicArray.size b < Z.of_nat fuel ->
  (exists a',
     DynamicArray.append true (Some a) value = (true, Some a')
     /\ DynamicArray.capacity a' = 2 * DynamicArray.capacity a
     /\ DynamicArray.size a' = DynamicArray.size a + 1
     /\ DynamicArray.data a' (DynamicArray.size a) = value)
  /\ (exists a',
        DynamicArray.insert fuel true (Some a) index value = Done (true, Some a')
        /\ DynamicArray.capacity a' = 2 * DynamicArray.capacity a
        /\ DynamicArray.size a' = DynamicArray.size a + 1
        /\ DynamicArray.data a' index = value)
  /\ (exists b',
        DynamicArray.delete fuel true (Some b) position = Done (true, Some b')
        /\ DynamicArray.size b' = DynamicArray.size b - 1
        /\ DynamicArray.capacity b'
           = if (4 <? DynamicArray.capacity b)
                && (DynamicArray.size b - 1 <? DynamicArray.capacity b / 4)
             then DynamicArray.capacity b / 2
             else DynamicArray.capacity b).
Proof.
  destruct a as [mem sz cap], b as [memb szb capb].
  cbn [DynamicArray.size DynamicArray.capacity DynamicArray.data].
  unfold SIZE_MAX. intros Hsz -> Hcap Hidx Hfuel Hpos Hszb Hfuelb. split; [|split].
  - unfold DynamicArray.append, DynamicArray.resize_array, DynamicArray.realloc.
    cbn [DynamicArray.size DynamicArray.capacity DynamicArray.data].
    destruct (Z.geb_spec cap cap); [|lia].
    rewrite (wrap_size_id (cap * 2)) by int_range.
    destruct (Z.ltb_spec (cap * 2) cap); [lia|].
    eexists. split; [reflexivity|].
    cbn [DynamicArray.size DynamicArray.capacity DynamicArray.data].
    rewrite wrap_size_id by int_range.
    split; [lia|]. split; [done|]. unfold DynamicArray.poke. by rewrite Z.eqb_refl.
  - unfold DynamicArray.insert, DynamicArray.resize_array, DynamicArray.realloc.
    cbn [DynamicArray.size DynamicArray.capacity DynamicArray.data].
    destruct (Z.gtb_spec index cap); [lia|].
    destruct (Z.geb_spec cap cap); [|lia].
    rewrite (wrap_size_id (cap * 2)) by int_range.
    destruct (Z.ltb_spec (cap * 2) cap); [lia|].
    cbn [DynamicArray.size DynamicArray.capacity DynamicArray.data].
    destruct (shift_right_Done fuel mem cap index) as [mem' ->];
      [lia|unfold SIZE_MAX; lia|lia|].
    eexists. split; [reflexivity|].
    cbn [DynamicArray.size DynamicArray.capacity DynamicArray.data].
    rewrite wrap_size_id by int_range.
    split; [lia|]. split; [done|]. unfold DynamicArray.poke. by rewrite Z.eqb_refl.
  - unfold DynamicArray.delete.
    cbn [DynamicArray.size DynamicArray.capacity DynamicArray.data].
    destruct (Z.geb_spec position szb); [lia|].
    rewrite (wrap_size_id (szb - 1)) by int_range.
    destruct (shift_left_Done fuel memb position (szb - 1)) as [mem' ->];
      [lia|unfold SIZE_MAX; lia|lia|].
    cbn [mbind outcome_bind DynamicArray.size DynamicArray.capacity DynamicArray.data].
    rewrite Z.gtb_ltb.
    destruct (Z.ltb_spec 4 capb) as [Hgt|Hle]; cbn [andb].
    + destruct (Z.ltb_spec (szb - 1) (capb / 4)) as [Hquarter|Hquarter].
      * unfold DynamicArray.resize_array, DynamicArray.realloc.
        cbn [DynamicArray.size DynamicArray.capacity DynamicArray.data].
        destruct (Z.ltb_spec (capb / 2) (szb - 1)); [div_lia|].
        eexists. split; [reflexivity|]. cbn. split; done.
      * eexists. split; [reflexivity|]. cbn. split; done.
    + eexists. split; [reflexivity|]. cbn. split; done.
Qed.

Lemma doubling_halving_witness :
  (exists a',
     DynamicArray.append true
       (Some {| DynamicArray.data := fun k => k; DynamicArray.size := 8;
                DynamicArray.capacity := 8 |}) 50
     = (true, Some a')
     /\ DynamicArray.capacity a' = 2 * 8
     /\ DynamicArray.size a' = 8 + 1
     /\ DynamicArray.data a' 8 = 50)
  /\ (exists a',
        DynamicArray.insert 9 true
          (Some {| DynamicArray.data := fun k => k; DynamicArray.size := 8;
                   DynamicArray.capacity := 8 |}) 3 50
        = Done (true, Some a')
        /\ DynamicArray.capacity a' = 2 * 8
        /\ DynamicArray.size a' = 8 + 1
        /\ DynamicArray.data a' 3 = 50)
  /\ (exists b',
        DynamicArray.delete 9 true
          (Some {| DynamicArray.data := fun k => k; DynamicArray.size := 5;
                   DynamicArray.capacity := 32 |}) 0
        = Done (true, Some b')
        /\ DynamicArray.size b' = 5 - 1
        /\ DynamicArray.capacity b' = 16).
Proof.
  apply (doubling_halving
           {| DynamicArray.data := fun k => k; DynamicArray.size := 8;
              DynamicArray.capacity := 8 |}
           {| DynamicArray.data := fun k => k; DynamicArray.size := 5;
              DynamicArray.capacity := 32 |} 3 50 0 9).
  - simpl; lia.
  - reflexivity.
  - vm_compute; discriminate.
  - simpl; lia.
  - simpl; lia.
  - simpl; lia.
  - vm_compute; discriminate.
  - simpl; lia.
Defined.

(** The guard of the shrinking at work: whatever the size, [delete] from
    an array of capacity 4 or less leaves the capacity as it is. *)
Lemma delete_capacity_le_4_unchanged (b : DynamicArray.DynamicArray)
  (position : Z) (fuel : nat) (ok : bool) (r : option DynamicArray.DynamicArray) :
  DynamicArray.capacity b <= 4 ->
  DynamicArray.delete fuel ok (Some b) position = Done (true, r) ->
  exists b', r = Some b' /\ DynamicArray.capacity b' = DynamicArray.capacity b.
Proof.
  intros Hcap. unfold DynamicArray.delete.
  destruct (position >=? DynamicArray.size b); [discriminate|].
  destruct (DynamicArray.shift_left _ _ _ _) as [mem| |];
    cbn [mbind outcome_bind]; try discriminate.
  cbn [DynamicArray.capacity].
  destruct (Z.gtb_spec (DynamicArray.capacity b) 4); [lia|]. cbn [andb].
  intros [= <-]. by eexists.
Qed.

(** The halving of C3 at work: the fifth element of an array of capacity 32
    goes, four stay, and the capacity is 16. *)
Example delete_halves_capacity_32 :
  exists a',
    DynamicArray.delete 6 true
      (Some {| DynamicArray.data := fun k => k; DynamicArray.size := 5;
               DynamicArray.capacity := 32 |}) 0
    = Done (true, Some a')
    /\ DynamicArray.size a' = 4 /\ DynamicArray.capacity a' = 16.
Proof. eexists. split; [reflexivity|]. split; reflexivity. Qed.

(** The calls of [main]: five appends from capacity 2, an insertion and
    four deletions.  The array ends with the elements 40, 50 and capacity 8:
    size 2 is not below 8 / 4, so the last deletion does not shrink it. *)
Example main_calls :
  exists a',
    DynamicArray.perform_all 7
      [DynamicArray.Append true 10; DynamicArray.Append true 20;
       DynamicArray.Append true 30; DynamicArray.Append true 40;
       DynamicArray.Append true 50; DynamicArray.Insert true 2 25;
       DynamicArray.Delete true 0; DynamicArray.Delete true 0;
       DynamicArray.Delete true 0; DynamicArray.Delete true 0]
      (DynamicArray.create_array true true (fun _ => 0) 2)
    = Done (Some (Some a'))
    /\ DynamicArray.size a' = 2 /\ DynamicArray.capacity a' = 8
    /\ DynamicArray.data a' 0 = 40 /\ DynamicArray.data a' 1 = 50.
Proof. eexists. split; [vm_compute; reflexivity|]. repeat split. Qed.

(** C8. The invariant [size <= capacity] breaks on an array created with
    capacity 0: [append] doubles 0 to 0, the reallocation succeeds, the
    element is stored and the call reports success with size 1 and
    capacity 0. *)
Theorem append_to_capacity_0_breaks_invariant :
  exists arr a1,
    DynamicArray.create_array true true (fun _ => 0) 0 = Some arr
    /\ DynamicArray.size arr <= DynamicArray.capacity arr
    /\ DynamicArray.perform_all 1 [DynamicArray.Append true 10] (Some arr)
       = Done (Some (Some a1))
    /\ DynamicArray.size a1 = 1
    /\ DynamicArray.capacity a1 = 0
    /\ ~ DynamicArray.size a1 <= DynamicArray.capacity a1.
Proof.
  do 2 eexists. split; [reflexivity|]. split; [discriminate|].
  split; [reflexivity|]. split; [reflexivity|]. split; [reflexivity|].
  intros H. by apply H.
Qed.

(** The defect is the capacity 0 alone: from a positive capacity every
    call that reports success keeps [size <= capacity]. *)
Lemma size_le_capacity_step (fuel : nat) (op : DynamicArray.operation)
  (a : DynamicArray.DynamicArray) (r : option DynamicArray.DynamicArray) :
  DynamicArray.operation_in_size op ->
  0 < DynamicArray.capacity a <= SIZE_MAX ->
  0 <= DynamicArray.size a <= DynamicArray.capacity a ->
  DynamicArray.perform fuel op (Some a) = Done (true, r) ->
  exists a', r = Some a'
    /\ 0 < DynamicArray.capacity a' <= SIZE_MAX
    /\ 0 <= DynamicArray.size a' <= DynamicArray.capacity a'.
Proof.
  destruct a as [mem sz cap].
  cbn [DynamicArray.size DynamicArray.capacity DynamicArray.data].
  unfold SIZE_MAX. intros Hop Hcap Hsz.
  destruct op as [ok value|ok index value|ok index];
    cbn [DynamicArray.perform DynamicArray.operation_in_size] in *.
  - unfold DynamicArray.append, DynamicArray.resize_array, DynamicArray.realloc.
    cbn [DynamicArray.size DynamicArray.capacity DynamicArray.data].
    destruct (Z.geb_spec sz cap).
    + destruct (Z.ltb_spec (wrap_size (cap * 2)) sz); [done|].
      destruct ok; [|done]. intros [= <-]. eexists. split; [done|].
      cbn [DynamicArray.size DynamicArray.capacity]. unfold wrap_size in *. div_lia.
    + intros [= <-]. eexists. split; [done|].
      cbn [DynamicArray.size DynamicArray.capacity]. unfold wrap_size in *. div_lia.
  - unfold in_size, SIZE_MAX in Hop.
    unfold DynamicArray.insert, DynamicArray.resize_array, DynamicArray.realloc.
    cbn [DynamicArray.size DynamicArray.capacity DynamicArray.data].
    destruct (Z.gtb_spec index sz); [done|].
    destruct (Z.geb_spec sz cap).
    + destruct (Z.ltb_spec (wrap_size (cap * 2)) sz); [done|].
      destruct ok; [|done].
      cbn [DynamicArray.size DynamicArray.capacity DynamicArray.data].
      destruct (DynamicArray.shift_right _ _ _ _); [|done..].
      intros [= <-]. eexists. split; [done|].
      cbn [DynamicArray.size DynamicArray.capacity]. unfold wrap_size in *. div_lia.
    + cbn [DynamicArray.size DynamicArray.capacity DynamicArray.data].
      destruct (DynamicArray.shift_right _ _ _ _); [|done..].
      intros [= <-]. eexists. split; [done|].
      cbn [DynamicArray.size DynamicArray.capacity]. unfold wrap_size in *. div_lia.
  - unfold in_size, SIZE_MAX in Hop. unfold DynamicArray.delete.
    cbn [DynamicArray.size DynamicArray.capacity DynamicArray.data].
    destruct (Z.geb_spec index sz); [done|].
    destruct (DynamicArray.shift_left _ _ _ _); [|done..].
    cbn [mbind outcome_bind DynamicArray.size DynamicArray.capacity DynamicArray.data].
    assert (Hw : wrap_size (sz - 1) = sz - 1)
      by (apply wrap_size_id; int_range).
    rewrite Hw.
    destruct (Z.gtb_spec cap 4); cbn [andb].
    + destruct (Z.ltb_spec (sz - 1) (cap / 4)).
      * unfold DynamicArray.resize_array, DynamicArray.realloc.
        cbn [DynamicArray.size DynamicArray.capacity DynamicArray.data].
        destruct (Z.ltb_spec (cap / 2) (sz - 1)); [div_lia|].
        destruct ok; cbn [snd]; intros [= <-]; eexists; (split; [done|]);
          cbn [DynamicArray.size DynamicArray.capacity]; div_lia.
      * intros [= <-]. eexists. split; [done|].
        cbn [DynamicArray.size DynamicArray.capacity]. lia.
    + intros [= <-]. eexists. split; [done|].
      cbn [DynamicArray.size DynamicArray.capacity]. lia.
Qed.

Lemma size_le_capacity_positive_capacity (fuel : nat) (ops : list DynamicArray.operation) :
  forall (a : DynamicArray.DynamicArray) (r : option DynamicArray.DynamicArray),
    Forall DynamicArray.operation_in_size ops ->
    0 < DynamicArray.capacity a <= SIZE_MAX ->
    0 <= DynamicArray.size a <= DynamicArray.capacity a ->
    DynamicArray.perform_all fuel ops (Some a) = Done (Some r) ->
    exists a', r = Some a' /\ DynamicArray.size a' <= DynamicArray.capacity a'.
Proof.
  induction ops as [|op ops IH]; intros a r Hops Hcap Hsz Hrun.
  - injection Hrun as <-. exists a. split; [done|lia].
  - apply Forall_cons in Hops as [Hop Hops]. cbn [DynamicArray.perform_all] in Hrun.
    destruct (DynamicArray.perform fuel op (Some a)) as [[[|] r1]| |] eqn:Hstep;
      cbn [mbind outcome_bind] in Hrun; try done.
    destruct (size_le_capacity_step fuel op a r1 Hop Hcap Hsz Hstep)
      as (a1 & -> & Hcap1 & Hsz1).
    by apply (IH a1).
Qed.

(** ** Return codes *)

(** C4, as stated, fails on the operations that take an index: [get] with
    an index past the size returns the [bool] [false], which is neither
    the [int] -1 nor the pointer [NULL]. *)
Lemma get_out_of_range_not_minus_one_or_NULL :
  fst (DynamicArray.get
         (Some {| DynamicArray.data := fun k => k; DynamicArray.size := 2;
                  DynamicArray.capacity := 4 |}) 5 (Some 0)) = false
  /\ ~ minus_one_or_NULL
         (Rbool (fst (DynamicArray.get
                        (Some {| DynamicArray.data := fun k => k; DynamicArray.size := 2;
                                 DynamicArray.capacity := 4 |}) 5 (Some 0)))).
Proof.
  split; [reflexivity|]. intros [H|H]; discriminate H.
Qed.

Lemma copy_file_open_failure (fuel : nat) (env : FileCopy.environment) :
  FileCopy.fopen_source env = None \/ FileCopy.fopen_dest env = false ->
  exists dest, FileCopy.copy_file fuel env = Done (-1, dest).
Proof.
  intros Hfail. unfold FileCopy.copy_file.
  destruct (FileCopy.malloc_buffer env); cbn [negb]; [|by eexists].
  destruct (FileCopy.fopen_source env) as [source|]; [|by eexists].
  destruct (_ <? 0); [by eexists|].
  destruct Hfail as [?| ->]; [done|]. by eexists.
Qed.

(** C4, amended. An index out of range makes [get], [delete] and [insert]
    return [false], and [insert_element] and [delete_element] return the
    size they were given, the array being left as it is; a failed
    allocation makes [create_array] and [create_node] return [NULL]; a file
    that cannot be opened makes [copy_file] return -1. *)
Theorem failures_signalled
  (a : DynamicArray.DynamicArray) (index value : Z) (out : option Z)
  (arr : list Z) (size position element : Z)
  (fuel : nat) (ok : bool) (contents : Z -> Z) (initial_capacity : Z)
  (h : gmap nat LinkedList.Node) (d : Z) (env : FileCopy.environment) :
  DynamicArray.size a <= index ->
  position < 0 \/ size <= position ->
  FileCopy.fopen_source env = None \/ FileCopy.fopen_dest env = false ->
  DynamicArray.get (Some a) index out = (false, out)
  /\ DynamicArray.delete fuel ok (Some a) index = Done (false, Some a)
  /\ (DynamicArray.size a < index ->
      DynamicArray.insert fuel ok (Some a) index value = Done (false, Some a))
  /\ ArrayOperations.delete_element fuel arr size position = Done (arr, size)
  /\ (position < 0 \/ size < position ->
      ArrayOperations.insert_element fuel arr size element position = Done (arr, size))
  /\ return_of_pointer (DynamicArray.create_array false ok contents initial_capacity) = Rnull
  /\ return_of_pointer (DynamicArray.create_array ok false contents initial_capacity) = Rnull
  /\ return_of_pointer (snd (LinkedList.create_node h None d)) = Rnull
  /\ exists dest, FileCopy.copy_file fuel env = Done (-1, dest).
Proof.
  intros Hidx Hpos Hopen. repeat split.
  - unfold DynamicArray.get. destruct (Z.geb_spec index (DynamicArray.size a)); [done|lia].
  - unfold DynamicArray.delete. destruct (Z.geb_spec index (DynamicArray.size a)); [done|lia].
  - intros Hlt. unfold DynamicArray.insert.
    destruct (Z.gtb_spec index (DynamicArray.size a)); [done|lia].
  - unfold ArrayOperations.delete_element.
    destruct (Z.ltb_spec position 0); [done|].
    destruct (Z.geb_spec position size); [done|lia].
  - intros Hout. unfold ArrayOperations.insert_element.
    destruct (Z.ltb_spec position 0); [done|].
    destruct (Z.gtb_spec position size); [done|lia].
  - unfold DynamicArray.create_array, DynamicArray.malloc. by destruct ok.
  - by apply copy_file_open_failure.
Qed.

Lemma failures_signalled_witness :
  DynamicArray.size {| DynamicArray.data := fun k => k; DynamicArray.size := 2;
                       DynamicArray.capacity := 4 |} <= 5
  /\ (7 < 0 \/ 3 <= 7)
  /\ (FileCopy.fopen_source
        {| FileCopy.malloc_buffer := true; FileCopy.fopen_source := None;
           FileCopy.ftell_source := 0; FileCopy.fopen_dest := true;
           FileCopy.fwrite_short := fun _ => false;
           FileCopy.ferror_source := false |} = None
      \/ FileCopy.fopen_dest
           {| FileCopy.malloc_buffer := true; FileCopy.fopen_source := None;
              FileCopy.ftell_source := 0; FileCopy.fopen_dest := true;
              FileCopy.fwrite_short := fun _ => false;
              FileCopy.ferror_source := false |} = false)
  /\ DynamicArray.get
       (Some {| DynamicArray.data := fun k => k; DynamicArray.size := 2;
                DynamicArray.capacity := 4 |}) 5 (Some 0)
     = (false, Some 0).
Proof.
  split; [vm_compute; discriminate|]. split; [right; lia|]. split; [left; reflexivity|].
  apply (failures_signalled
           {| DynamicArray.data := fun k => k; DynamicArray.size := 2;
              DynamicArray.capacity := 4 |} 5 7 (Some 0) [10; 20; 30] 3 7 99
           3 true (fun _ => 0) 2 ∅ 1
           {| FileCopy.malloc_buffer := true; FileCopy.fopen_source := None;
              FileCopy.ftell_source := 0; FileCopy.fopen_dest := true;
              FileCopy.fwrite_short := fun _ => false;
              FileCopy.ferror_source := false |}).
  - vm_compute; discriminate.
  - right; lia.
  - left; reflexivity.
Defined.

(** [insert_element] and [delete_element] on the array 10, 20, 30 held in
    five cells. *)
Example insert_delete_element :
  ArrayOperations.insert_element 4 [10; 20; 30; 0; 0] 3 25 1
  = Done ([10; 25; 20; 30; 0], 4)
  /\ ArrayOperations.delete_element 4 [10; 20; 30; 0; 0] 3 0
     = Done ([20; 30; 30; 0; 0], 2).
Proof. split; reflexivity. Qed.

(** [copy_file] on a file of three bytes that opens and copies. *)
Example copy_file_three_bytes :
  FileCopy.copy_file 2
    {| FileCopy.malloc_buffer := true; FileCopy.fopen_source := Some [104; 105; 10];
       FileCopy.ftell_source := 3; FileCopy.fopen_dest := true;
       FileCopy.fwrite_short := fun _ => false; FileCopy.ferror_source := false |}
  = Done (0, Some [104; 105; 10]).
Proof. reflexivity. Qed.

(** ** The linked list *)

Lemma rev_is_reverse {A : Type} (l : list A) : rev l = reverse l.
Proof. unfold reverse. apply rev_alt. Qed.

Lemma list_cells_functional (h : gmap nat LinkedList.Node) :
  forall cells1 cells2 p,
    LinkedList.list_cells h p cells1 -> LinkedList.list_cells h p cells2 ->
    cells1 = cells2.
Proof.
  induction cells1 as [|[l v] rest IH]; intros [|[l' v'] rest'] p H1 H2;
    simpl in *; try (destruct_and?; congruence).
  destruct H1 as (-> & nx & Hl & Hrest), H2 as ([= <-] & nx' & Hl' & Hrest').
  rewrite Hl in Hl'. injection Hl' as <- <-. f_equal. by apply (IH _ nx).
Qed.

Lemma list_cells_app (h : gmap nat LinkedList.Node) :
  forall cells1 cells2 p,
    LinkedList.list_cells h p (cells1 ++ cells2) ->
    exists q, LinkedList.list_cells h q cells2.
Proof.
  induction cells1 as [|[l v] rest IH]; intros cells2 p H; simpl in *; [eauto|].
  destruct H as (_ & nx & _ & Hrest). by apply (IH _ nx).
Qed.

Lemma list_cells_NoDup (h : gmap nat LinkedList.Node) :
  forall cells p, LinkedList.list_cells h p cells -> NoDup cells.*1.
Proof.
  induction cells as [|[l v] rest IH]; intros p H; [constructor|].
  pose proof H as (-> & nx & Hl & Hrest). rewrite fmap_cons. apply NoDup_cons.
  split; [|by apply (IH nx)].
  intros Hin. apply list_elem_of_fmap in Hin as ([l' v'] & Heq & Hin).
  simpl in Heq. subst l'.
  apply list_elem_of_split in Hin as (r1 & r2 & ->).
  destruct (list_cells_app h r1 ((l, v') :: r2) nx Hrest) as [q Hq].
  pose proof Hq as (-> & _).
  pose proof (list_cells_functional h _ _ _ H Hq) as Heq.
  apply (f_equal length) in Heq. rewrite !length_cons, length_app, length_cons in Heq. lia.
Qed.

Lemma list_cells_insert (h : gmap nat LinkedList.Node) l n :
  forall cells p,
    LinkedList.list_cells h p cells -> l ∉ cells.*1 ->
    LinkedList.list_cells (<[l := n]> h) p cells.
Proof.
  induction cells as [|[l' v] rest IH]; intros p H Hl; [done|].
  destruct H as (-> & nx & Hl' & Hrest). rewrite fmap_cons in Hl.
  apply not_elem_of_cons in Hl as [Hne Hl]. simpl in Hne.
  split; [done|]. exists nx. split; [by rewrite lookup_insert_ne|by apply IH].
Qed.

Lemma list_cells_delete (h : gmap nat LinkedList.Node) l :
  forall cells p,
    LinkedList.list_cells h p cells -> l ∉ cells.*1 ->
    LinkedList.list_cells (base.delete l h) p cells.
Proof.
  induction cells as [|[l' v] rest IH]; intros p H Hl; [done|].
  destruct H as (-> & nx & Hl' & Hrest). rewrite fmap_cons in Hl.
  apply not_elem_of_cons in Hl as [Hne Hl]. simpl in Hne.
  split; [done|]. exists nx. split; [by rewrite lookup_delete_ne|by apply IH].
Qed.

Lemma reverse_list_loop_spec :
  forall (rest done : list (nat * Z)) (fuel : nat) (h : gmap nat LinkedList.Node)
         (prev current : option nat),
    LinkedList.list_cells h current rest ->
    LinkedList.list_cells h prev done ->
    (forall l, l ∈ rest.*1 -> l ∉ done.*1) ->
    (length rest < fuel)%nat ->
    exists h' head',
      LinkedList.reverse_list_loop fuel h prev current = Done (h', head')
      /\ LinkedList.list_cells h' head' (reverse rest ++ done).
Proof.
  induction rest as [|[l v] rest IH]; intros done fuel h prev current Hrest Hdone Hdisj Hfuel;
    (destruct fuel as [|fuel]; [simpl in Hfuel; lia|]).
  - simpl in Hrest. subst current. by exists h, prev.
  - pose proof (list_cells_NoDup h _ _ Hrest) as Hnd.
    rewrite fmap_cons in Hnd. apply NoDup_cons in Hnd as [Hl _].
    destruct Hrest as (-> & nx & Hhl & Hrest).
    cbn [LinkedList.reverse_list_loop]. unfold LinkedList.deref. rewrite Hhl.
    cbn [mbind outcome_bind LinkedList.data LinkedList.next].
    destruct (IH ((l, v) :: done) fuel
                (<[l := {| LinkedList.data := v; LinkedList.next := prev |}]> h)
                (Some l) nx) as (h' & head' & Hrun & Hcells).
    + by apply list_cells_insert.
    + split; [done|]. exists prev. split; [by rewrite lookup_insert_eq|].
      apply list_cells_insert; [done|]. apply Hdisj. rewrite fmap_cons. left.
    + intros l' Hl'. rewrite fmap_cons. apply not_elem_of_cons. split.
      * intros ->. done.
      * apply Hdisj. rewrite fmap_cons. by right.
    + simpl in Hfuel. lia.
    + exists h', head'. split; [done|]. by rewrite reverse_cons, <- app_assoc.
Qed.

Lemma reverse_list_loop_fuel (fuel : nat) :
  forall fuel' h prev current r,
    (fuel <= fuel')%nat ->
    LinkedList.reverse_list_loop fuel h prev current = Done r ->
    LinkedList.reverse_list_loop fuel' h prev current = Done r.
Proof.
  induction fuel as [|fuel IH]; intros fuel' h prev current r Hle; [done|].
  destruct fuel' as [|fuel']; [lia|]. simpl.
  destruct current as [c|]; [|done].
  destruct (LinkedList.deref h c) as [n| |]; simpl; [|done..].
  apply IH. lia.
Qed.

Lemma reverse_list_once (h : gmap nat LinkedList.Node) (head : option nat) (vs : list Z) :
  LinkedList.holds h head vs ->
  exists h1 head1,
    (forall fuel, (length vs < fuel)%nat ->
       LinkedList.reverse_list fuel h head = Done (h1, head1))
    /\ LinkedList.holds h1 head1 (rev vs).
Proof.
  intros (cells & Hcells & <-).
  destruct (reverse_list_loop_spec cells [] (S (length cells)) h None head)
    as (h1 & head1 & Hrun & Hrev); [done|done|by intros ? ? ?%elem_of_nil|lia|].
  exists h1, head1. split.
  - intros fuel Hfuel. rewrite length_fmap in Hfuel.
    apply (reverse_list_loop_fuel (S (length cells))); [lia|done].
  - exists (reverse cells). rewrite app_nil_r in Hrev. split; [done|].
    by rewrite fmap_reverse, rev_is_reverse.
Qed.

(** C10. [reverse_list] turns a list holding [v1, ..., vn] into a list
    holding [vn, ..., v1]; applied twice it gives back a list holding the
    original sequence. *)
Theorem reverse_list_reverses (h : gmap nat LinkedList.Node) (head : option nat)
  (vs : list Z) :
  LinkedList.holds h head vs ->
  exists h1 head1,
    (forall fuel, (length vs < fuel)%nat ->
       LinkedList.reverse_list fuel h head = Done (h1, head1))
    /\ LinkedList.holds h1 head1 (rev vs)
    /\ exists h2 head2,
         (forall fuel, (length vs < fuel)%nat ->
            LinkedList.reverse_list fuel h1 head1 = Done (h2, head2))
         /\ LinkedList.holds h2 head2 vs.
Proof.
  intros Hvs.
  destruct (reverse_list_once h head vs Hvs) as (h1 & head1 & Hrun1 & Hrev1).
  exists h1, head1. split; [done|]. split; [done|].
  destruct (reverse_list_once h1 head1 (rev vs) Hrev1) as (h2 & head2 & Hrun2 & Hrev2).
  exists h2, head2. rewrite length_rev in Hrun2. rewrite rev_involutive in Hrev2. done.
Qed.

Lemma reverse_list_reverses_witness :
  LinkedList.holds
    (<[1%nat := {| LinkedList.data := 10; LinkedList.next := Some 2%nat |}]>
       (<[2%nat := {| LinkedList.data := 20; LinkedList.next := None |}]> ∅))
    (Some 1%nat) [10; 20]
  /\ exists h1 head1,
    (forall fuel, (length [10; 20] < fuel)%nat ->
       LinkedList.reverse_list fuel
         (<[1%nat := {| LinkedList.data := 10; LinkedList.next := Some 2%nat |}]>
            (<[2%nat := {| LinkedList.data := 20; LinkedList.next := None |}]> ∅))
         (Some 1%nat) = Done (h1, head1))
    /\ LinkedList.holds h1 head1 (rev [10; 20])
    /\ exists h2 head2,
         (forall fuel, (length [10; 20] < fuel)%nat ->
            LinkedList.reverse_list fuel h1 head1 = Done (h2, head2))
         /\ LinkedList.holds h2 head2 [10; 20].
Proof.
  assert (Hholds : LinkedList.holds
    (<[1%nat := {| LinkedList.data := 10; LinkedList.next := Some 2%nat |}]>
       (<[2%nat := {| LinkedList.data := 20; LinkedList.next := None |}]> ∅))
    (Some 1%nat) [10; 20]).
  { exists [(1%nat, 10); (2%nat, 20)]. split; [|reflexivity].
    split; [reflexivity|]. exists (Some 2%nat). split; [reflexivity|].
    split; [reflexivity|]. exists None. split; reflexivity. }
  split; [exact Hholds|].
  apply (reverse_list_reverses _ _ _ Hholds).
Defined.

(** [reverse_list] run on the list 10 -> 20 -> NULL at the addresses 1, 2. *)
Example reverse_list_10_20 :
  LinkedList.reverse_list 3
    (<[1%nat := {| LinkedList.data := 10; LinkedList.next := Some 2%nat |}]>
       (<[2%nat := {| LinkedList.data := 20; LinkedList.next := None |}]> ∅))
    (Some 1%nat)
  = Done (<[1%nat := {| LinkedList.data := 10; LinkedList.next := None |}]>
            (<[2%nat := {| LinkedList.data := 20; LinkedList.next := Some 1%nat |}]> ∅),
          Some 2%nat).
Proof. vm_compute. reflexivity. Qed.

Lemma remove_first_app (d : Z) (l1 l2 : list Z) :
  d ∉ l1 -> LinkedList.remove_first d (l1 ++ d :: l2) = l1 ++ l2.
Proof.
  induction l1 as [|v l1 IH]; intros Hd; simpl.
  - by rewrite Z.eqb_refl.
  - apply not_elem_of_cons in Hd as [Hne Hd].
    destruct (Z.eqb_spec v d); [congruence|]. by rewrite IH.
Qed.

Lemma remove_first_absent (d : Z) (l : list Z) :
  d ∉ l -> LinkedList.remove_first d l = l.
Proof.
  induction l as [|v l IH]; intros Hd; simpl; [done|].
  apply not_elem_of_cons in Hd as [Hne Hd].
  destruct (Z.eqb_spec v d); [congruence|]. by rewrite IH.
Qed.

Lemma first_occurrence_split (d : Z) (cells : list (nat * Z)) :
  d ∈ cells.*2 ->
  exists r1 t r2, cells = r1 ++ (t, d) :: r2 /\ d ∉ r1.*2.
Proof.
  induction cells as [|[l v] rest IH]; intros Hin; [by apply elem_of_nil in Hin|].
  destruct (decide (v = d)) as [->|Hne].
  - exists [], l, rest. split; [done|]. apply not_elem_of_nil.
  - rewrite fmap_cons in Hin. apply elem_of_cons in Hin as [Heq|Hin]; [simpl in Heq; congruence|].
    destruct (IH Hin) as (r1 & t & r2 & -> & Hr1).
    exists ((l, v) :: r1), t, r2. split; [done|].
    rewrite fmap_cons. apply not_elem_of_cons. split; [simpl; congruence|done].
Qed.

(** Where the loop of [delete_node] stops: on the last node when the value
    is not in the rest of the list, on the node before its first
    occurrence otherwise. *)
Lemma delete_node_loop_spec (d : Z) (h : gmap nat LinkedList.Node) :
  forall (rest : list (nat * Z)) (fuel : nat) (cur : nat) (vcur : Z),
    LinkedList.list_cells h (Some cur) ((cur, vcur) :: rest) ->
    (length rest < fuel)%nat ->
    (d ∉ rest.*2 ->
     forall c vc pre, (cur, vcur) :: rest = pre ++ [(c, vc)] ->
       LinkedList.delete_node_loop fuel h cur d = Done c)
    /\ (forall r1 t r2 c vc pre,
          rest = r1 ++ (t, d) :: r2 -> d ∉ r1.*2 ->
          (cur, vcur) :: r1 = pre ++ [(c, vc)] ->
          LinkedList.delete_node_loop fuel h cur d = Done c).
Proof.
  induction rest as [|[t w] rest IH]; intros fuel cur vcur Hcells Hfuel;
    (destruct fuel as [|fuel]; [simpl in Hfuel; lia|]);
    destruct Hcells as (_ & nx & Hcur & Hrest);
    cbn [LinkedList.delete_node_loop]; unfold LinkedList.deref; rewrite Hcur;
    cbn [mbind outcome_bind LinkedList.data LinkedList.next].
  - simpl in Hrest. subst nx. split.
    + intros _ c vc pre Heq. destruct pre as [|x [|y pre]]; simplify_eq/=. done.
    + intros [|? r1] t r2 c vc pre Heq; simplify_eq/=.
  - pose proof Hrest as (-> & nxt & Ht & Hrest').
    rewrite Ht. cbn [mbind outcome_bind LinkedList.data LinkedList.next].
    destruct (Z.eqb_spec w d) as [->|Hne]; cbn [negb].
    + split.
      * intros Hd. exfalso. apply Hd. rewrite fmap_cons. left.
      * intros [|[t' w'] r1] t'' r2 c vc pre Heq Hd Hpre.
        -- destruct pre as [|x [|y pre]]; simplify_eq/=. done.
        -- exfalso. apply Hd. simplify_eq/=. left.
    + destruct (IH fuel t w) as [IH1 IH2]; [split; eauto|simpl in Hfuel; lia|].
      split.
      * intros Hd c vc pre Heq. rewrite fmap_cons in Hd.
        apply not_elem_of_cons in Hd as [_ Hd].
        destruct pre as [|x pre]; simplify_eq/=. by apply (IH1 Hd c vc pre).
      * intros [|[t' w'] r1] t'' r2 c vc pre Heq Hd Hpre; simplify_eq/=.
        apply not_elem_of_cons in Hd as [_ Hd].
        destruct pre as [|x pre]; simplify_eq/=.
        by apply (IH2 r1 t'' r2 c vc pre).
Qed.

Lemma deref_Done (h : gmap nat LinkedList.Node) l n :
  h !! l = Some n -> LinkedList.deref h l = Done n.
Proof. intros H. unfold LinkedList.deref. by rewrite H. Qed.

Lemma list_cells_last (h : gmap nat LinkedList.Node) c vc :
  forall pre p,
    LinkedList.list_cells h p (pre ++ [(c, vc)]) ->
    h !! c = Some {| LinkedList.data := vc; LinkedList.next := None |}.
Proof.
  intros pre p H. apply list_cells_app in H as (q & _ & nx & Hc & Hnx).
  simpl in Hnx. by subst nx.
Qed.

Lemma list_cells_middle (h : gmap nat LinkedList.Node) c vc t d r2 :
  forall pre p,
    LinkedList.list_cells h p (pre ++ (c, vc) :: (t, d) :: r2) ->
    exists nxt,
      h !! c = Some {| LinkedList.data := vc; LinkedList.next := Some t |}
      /\ h !! t = Some {| LinkedList.data := d; LinkedList.next := nxt |}.
Proof.
  intros pre p H. apply list_cells_app in H as (q & _ & nx & Hc & Hnx).
  destruct Hnx as (-> & nxt & Ht & _). eauto.
Qed.

Lemma list_cells_splice (h : gmap nat LinkedList.Node) c vc t d nxt r2 :
  h !! t = Some {| LinkedList.data := d; LinkedList.next := nxt |} ->
  forall pre p,
    LinkedList.list_cells h p (pre ++ (c, vc) :: (t, d) :: r2) ->
    LinkedList.list_cells
      (base.delete t (<[c := {| LinkedList.data := vc; LinkedList.next := nxt |}]> h))
      p (pre ++ (c, vc) :: r2).
Proof.
  intros Ht. induction pre as [|[a va] pre IH]; intros p H;
    pose proof (list_cells_NoDup h _ _ H) as Hnd.
  - simpl in Hnd. apply NoDup_cons in Hnd as [Hc Hnd].
    apply NoDup_cons in Hnd as [Htr _].
    apply not_elem_of_cons in Hc as [Hct Hcr].
    destruct H as (-> & nx & Hc & -> & nxt' & Ht' & Hr2).
    rewrite Ht in Ht'. injection Ht' as <-.
    split; [done|]. exists nxt. split.
    + by rewrite lookup_delete_ne, lookup_insert_eq.
    + apply list_cells_delete; [by apply list_cells_insert|done].
  - rewrite <- app_comm_cons, fmap_cons in Hnd. apply NoDup_cons in Hnd as [Ha _].
    rewrite fmap_app, !fmap_cons in Ha. simpl in Ha.
    apply not_elem_of_app in Ha as [_ Ha].
    apply not_elem_of_cons in Ha as [Hac Ha].
    apply not_elem_of_cons in Ha as [Hat _].
    destruct H as (-> & nx & Hha & Hrest).
    split; [done|]. exists nx. split; [|by apply IH].
    by rewrite lookup_delete_ne, lookup_insert_ne.
Qed.

(** C5. [delete_node] takes the first node holding the value out of the
    list and returns [true]; when no node holds the value, the empty list
    included, it returns [false] and leaves the list as it is. *)
Theorem delete_node_removes_first (h : gmap nat LinkedList.Node) (head : option nat)
  (vs : list Z) (d : Z) :
  LinkedList.holds h head vs ->
  exists b h' head',
    (forall fuel, (length vs < fuel)%nat ->
       LinkedList.delete_node fuel h head d = Done (b, h', head'))
    /\ (d ∈ vs -> b = true /\ LinkedList.holds h' head' (LinkedList.remove_first d vs))
    /\ (d ∉ vs -> b = false /\ h' = h /\ head' = head).
Proof.
  intros (cells & Hcells & <-). destruct cells as [|[l v] rest].
  { simpl in Hcells. subst head. exists false, h, None.
    split; [done|]. split; [by intros ?%elem_of_nil|done]. }
  pose proof (list_cells_NoDup h _ _ Hcells) as Hnd.
  rewrite fmap_cons in Hnd. apply NoDup_cons in Hnd as [Hl _].
  pose proof Hcells as (-> & nx & Hhl & Hrest).
  destruct (Z.eqb_spec v d) as [->|Hne].
  { exists true, (base.delete l h), nx. split; [|split].
    - intros fuel _. unfold LinkedList.delete_node, LinkedList.deref. rewrite Hhl.
      cbn [mbind outcome_bind LinkedList.data LinkedList.next]. by rewrite Z.eqb_refl.
    - intros _. split; [done|]. exists rest. split; [by apply list_cells_delete|].
      rewrite fmap_cons. simpl. by rewrite Z.eqb_refl.
    - intros Hd. exfalso. apply Hd. rewrite fmap_cons. left. }
  assert (Hhead : forall fuel c,
            LinkedList.delete_node_loop fuel h l d = Done c ->
            LinkedList.delete_node fuel h (Some l) d
            = (n ← LinkedList.deref h c;
               match LinkedList.next n with
               | None => Done (false, h, Some l)
               | Some temp =>
                 t ← LinkedList.deref h temp;
                 Done (true,
                       base.delete temp
                         (<[c := {| LinkedList.data := LinkedList.data n;
                                    LinkedList.next := LinkedList.next t |}]> h),
                       Some l)
               end)).
  { intros fuel c Hc. unfold LinkedList.delete_node. rewrite (deref_Done h l _ Hhl).
    cbn [mbind outcome_bind LinkedList.data].
    destruct (Z.eqb_spec v d); [done|]. by rewrite Hc. }
  destruct (decide (d ∈ rest.*2)) as [Hin|Hout].
  - destruct (first_occurrence_split d rest Hin) as (r1 & t & r2 & -> & Hr1).
    destruct (exists_last (l:=(l, v) :: r1)) as (pre & [c vc] & Hpre); [done|].
    assert (Hwhole : (l, v) :: r1 ++ (t, d) :: r2 = pre ++ (c, vc) :: (t, d) :: r2).
    { rewrite app_comm_cons, Hpre, <- app_assoc. done. }
    rewrite Hwhole in Hcells.
    destruct (list_cells_middle h c vc t d r2 pre _ Hcells) as (nxt & Hhc & Hht).
    exists true,
      (base.delete t (<[c := {| LinkedList.data := vc; LinkedList.next := nxt |}]> h)),
      (Some l).
    split; [|split].
    + intros fuel Hfuel. rewrite length_fmap in Hfuel. simpl in Hfuel.
      destruct (delete_node_loop_spec d h (r1 ++ (t, d) :: r2) fuel l v) as [_ Hloop];
        [split; eauto|lia|].
      rewrite (Hhead fuel c) by (by apply (Hloop r1 t r2 c vc pre)).
      unfold LinkedList.deref. rewrite Hhc.
      cbn [mbind outcome_bind LinkedList.data LinkedList.next]. by rewrite Hht.
    + intros _. split; [done|]. exists (pre ++ (c, vc) :: r2).
      split; [by apply (list_cells_splice h c vc t d nxt r2 Hht)|].
      rewrite Hwhole. rewrite !fmap_app, !fmap_cons. simpl.
      replace ((pre.*2) ++ vc :: d :: r2.*2) with ((pre.*2 ++ [vc]) ++ d :: r2.*2)
        by (by rewrite <- app_assoc).
      rewrite remove_first_app; [by rewrite <- app_assoc|].
      replace (pre.*2 ++ [vc]) with ((pre ++ [(c, vc)]).*2) by (by rewrite fmap_app).
      rewrite <- Hpre, fmap_cons. apply not_elem_of_cons. split; [simpl; congruence|done].
    + intros Hd. exfalso. apply Hd. rewrite fmap_cons. by right.
  - destruct (exists_last (l:=(l, v) :: rest)) as (pre & [c vc] & Hpre); [done|].
    exists false, h, (Some l). split; [|split].
    + intros fuel Hfuel. rewrite length_fmap in Hfuel. simpl in Hfuel.
      destruct (delete_node_loop_spec d h rest fuel l v) as [Hloop _];
        [split; eauto|lia|].
      rewrite (Hhead fuel c) by (by apply (Hloop Hout c vc pre)).
      rewrite Hpre in Hcells. apply list_cells_last in Hcells.
      unfold LinkedList.deref. by rewrite Hcells.
    + intros Hd. exfalso. rewrite fmap_cons in Hd.
      apply elem_of_cons in Hd as [Hd|Hd]; [simpl in Hd; congruence|done].
    + done.
Qed.

Lemma delete_node_removes_first_witness :
  LinkedList.holds
    (<[1%nat := {| LinkedList.data := 10; LinkedList.next := Some 2%nat |}]>
       (<[2%nat := {| LinkedList.data := 20; LinkedList.next := None |}]> ∅))
    (Some 1%nat) [10; 20]
  /\ exists b h' head',
    (forall fuel, (length [10; 20] < fuel)%nat ->
       LinkedList.delete_node fuel
         (<[1%nat := {| LinkedList.data := 10; LinkedList.next := Some 2%nat |}]>
            (<[2%nat := {| LinkedList.data := 20; LinkedList.next := None |}]> ∅))
         (Some 1%nat) 20 = Done (b, h', head'))
    /\ (20 ∈ [10; 20] ->
        b = true /\ LinkedList.holds h' head' (LinkedList.remove_first 20 [10; 20]))
    /\ (20 ∉ [10; 20] ->
        b = false
        /\ h' = <[1%nat := {| LinkedList.data := 10; LinkedList.next := Some 2%nat |}]>
                  (<[2%nat := {| LinkedList.data := 20; LinkedList.next := None |}]> ∅)
        /\ head' = Some 1%nat).
Proof.
  assert (Hholds : LinkedList.holds
    (<[1%nat := {| LinkedList.data := 10; LinkedList.next := Some 2%nat |}]>
       (<[2%nat := {| LinkedList.data := 20; LinkedList.next := None |}]> ∅))
    (Some 1%nat) [10; 20]).
  { exists [(1%nat, 10); (2%nat, 20)]. split; [|reflexivity].
    split; [reflexivity|]. exists (Some 2%nat). split; [reflexivity|].
    split; [reflexivity|]. exists None. split; reflexivity. }
  split; [exact Hholds|].
  apply (delete_node_removes_first _ _ _ 20 Hholds).
Defined.

(** [delete_node] run on 10 -> 20 -> 30 -> NULL: 20 goes, its node is
    freed and the node of 10 points to the node of 30. *)
Example delete_node_20 :
  LinkedList.delete_node 4
    (<[1%nat := {| LinkedList.data := 10; LinkedList.next := Some 2%nat |}]>
       (<[2%nat := {| LinkedList.data := 20; LinkedList.next := Some 3%nat |}]>
          (<[3%nat := {| LinkedList.data := 30; LinkedList.next := None |}]> ∅)))
    (Some 1%nat) 20
  = Done (true,
          <[1%nat := {| LinkedList.data := 10; LinkedList.next := Some 3%nat |}]>
            (<[3%nat := {| LinkedList.data := 30; LinkedList.next := None |}]> ∅),
          Some 1%nat).
Proof. vm_compute. reflexivity. Qed.

(** ** Sorting *)

Lemma load_total (arr : list Z) (i : nat) :
  (i < length arr)%nat -> load arr (Z.of_nat i) = Done (arr !!! i).
Proof.
  intros Hi. apply load_Done. by apply list_lookup_lookup_total_lt.
Qed.

Lemma store_total (arr : list Z) (i : nat) (v : Z) :
  (i < length arr)%nat -> store arr (Z.of_nat i) v = Done (<[i := v]> arr).
Proof.
  intros Hi. unfold store.
  destruct (Z.leb_spec 0 (Z.of_nat i)); [|lia].
  destruct (Z.ltb_spec (Z.of_nat i) (Z.of_nat (length arr))); [|lia].
  by rewrite Nat2Z.id.
Qed.

Lemma lookup_total_insert_case (arr : list Z) (i k : nat) (v : Z) :
  (i < length arr)%nat ->
  <[i := v]> arr !!! k = if decide (k = i) then v else arr !!! k.
Proof.
  intros Hi. rewrite list_lookup_total_insert.
  repeat case_decide; try done; destruct_and?; lia.
Qed.

Lemma swap_Permutation (arr : list Z) (i j : nat) :
  (i < length arr)%nat -> (j < length arr)%nat ->
  <[j := arr !!! i]> (<[i := arr !!! j]> arr) ≡ₚ arr.
Proof.
  intros Hi Hj. apply Permutation_inj. split; [by rewrite !length_insert|].
  exists (fun k => if decide (k = i) then j else if decide (k = j) then i else k).
  split.
  - intros a b Hab. repeat case_decide; lia.
  - intros k. destruct (decide (k = j)) as [->|Hkj].
    + rewrite list_lookup_insert_eq by (by rewrite length_insert).
      case_decide; subst; by rewrite list_lookup_lookup_total_lt.
    + rewrite list_lookup_insert_ne by done.
      destruct (decide (k = i)) as [->|Hki].
      * rewrite list_lookup_insert_eq by done. by rewrite list_lookup_lookup_total_lt.
      * by rewrite list_lookup_insert_ne.
Qed.

Lemma sorted_range_Sorted (arr : list Z) :
  sorted_range arr 0 (length arr) -> Sorted Z.le arr.
Proof.
  induction arr as [|x arr IH]; intros Hs; [constructor|].
  constructor.
  - apply IH. intros a b Ha Hab Hb. apply (Hs (S a) (S b)); simpl; lia.
  - destruct arr as [|y arr]; constructor.
    apply (Hs 0%nat 1%nat); simpl; lia.
Qed.

Ltac sort_lookup :=
  rewrite ?lookup_total_insert_case by (rewrite ?length_insert; lia);
  repeat case_decide; subst; try lia.

(** The loops of the three sorts, on an array of [n] cells that is to stay
    a permutation of [orig]. *)
Section sorting_loops.
Variable orig : list Z.
Variable n : nat.
Hypothesis Hmax : Z.of_nat n <= INT_MAX.

Lemma bubble_inner_spec (i m : nat) :
  (i + m + 1 = n)%nat ->
  forall (k j fuel : nat) (arr : list Z) (swapped : bool),
    (j + k = m)%nat -> (k < fuel)%nat ->
    length arr = n -> arr ≡ₚ orig ->
    (forall a, (a < j)%nat -> arr !!! a <= arr !!! j) ->
    sorted_range arr (S m) n -> split_at arr (S m) n ->
    (swapped = false -> sorted_range arr 0 (S j)) ->
    exists arr' swapped',
      Sorting.bubble_inner fuel arr (Z.of_nat n) (Z.of_nat i) (Z.of_nat j) swapped
      = Done (arr', swapped')
      /\ length arr' = n /\ arr' ≡ₚ orig
      /\ (forall a, (a < m)%nat -> arr' !!! a <= arr' !!! m)
      /\ sorted_range arr' (S m) n /\ split_at arr' (S m) n
      /\ (swapped' = false -> sorted_range arr' 0 (S m)).
Proof.
  intros Hm.
  assert (Hbound : wrap (wrap (Z.of_nat n - Z.of_nat i) - 1) = Z.of_nat m).
  { rewrite (wrap_id (Z.of_nat n - Z.of_nat i))
      by int_range.
    rewrite wrap_id by int_range. lia. }
  induction k as [|k IH]; intros j fuel arr swapped Hjk Hfuel Hlen Hperm Hmaxj Hsuf Hsplit Hsw;
    (destruct fuel as [|fuel]; [lia|]); cbn [Sorting.bubble_inner]; rewrite Hbound.
  - destruct (Z.ltb_spec (Z.of_nat j) (Z.of_nat m)); [lia|].
    assert (j = m) as -> by lia. exists arr, swapped. done.
  - destruct (Z.ltb_spec (Z.of_nat j) (Z.of_nat m)); [|lia].
    assert (Hw : wrap (Z.of_nat j + 1) = Z.of_nat (S j))
      by (rewrite wrap_id by int_range; lia).
    rewrite !Hw, !load_total by lia. cbn [mbind outcome_bind].
    destruct (Z.gtb_spec (arr !!! j) (arr !!! S j)) as [Hgt|Hle].
    + rewrite store_total by lia. cbn [mbind outcome_bind].
      rewrite store_total by (rewrite length_insert; lia). cbn [mbind outcome_bind].
      apply IH.
      * lia.
      * lia.
      * by rewrite !length_insert.
      * rewrite <- Hperm. apply swap_Permutation; lia.
      * intros a Ha. specialize (Hmaxj a). sort_lookup.
      * intros a b Ha Hab Hb. specialize (Hsuf a b). sort_lookup.
      * intros a b Ha Hab Hb.
        pose proof (Hsplit a b). pose proof (Hsplit j b). pose proof (Hsplit (S j) b).
        sort_lookup.
      * done.
    + apply IH; try done; try lia.
      * intros a Ha. destruct (decide (a = j)) as [->|]; [lia|].
        specialize (Hmaxj a). lia.
      * intros -> a b Ha Hab Hb. specialize (Hsw eq_refl).
        destruct (decide (b = S j)) as [->|]; [|apply Hsw; lia].
        destruct (decide (a = S j)) as [->|]; [lia|].
        destruct (decide (a = j)) as [->|]; [lia|].
        specialize (Hmaxj a). lia.
Qed.

Lemma sorted_range_join (arr : list Z) (m hi : nat) :
  sorted_range arr 0 m -> sorted_range arr m hi -> split_at arr m hi ->
  sorted_range arr 0 hi.
Proof.
  intros Hlo Hhi Hsplit a b Ha Hab Hb.
  destruct (decide (b < m)%nat); [apply Hlo; lia|].
  destruct (decide (a < m)%nat); [apply Hsplit; lia|apply Hhi; lia].
Qed.

Lemma bubble_outer_spec :
  forall (k i fuel : nat) (arr : list Z),
    (n <= i + k + 1)%nat -> (n - i < fuel)%nat ->
    length arr = n -> arr ≡ₚ orig ->
    sorted_range arr (n - i) n -> split_at arr (n - i) n ->
    exists arr',
      Sorting.bubble_outer fuel arr (Z.of_nat n) (Z.of_nat i) = Done arr'
      /\ length arr' = n /\ arr' ≡ₚ orig /\ sorted_range arr' 0 n.
Proof.
  assert (Hbound : wrap (Z.of_nat n - 1) = Z.of_nat n - 1)
    by (apply wrap_id; int_range).
  induction k as [|k IH]; intros i fuel arr Hk Hfuel Hlen Hperm Hsuf Hsplit;
    (destruct fuel as [|fuel]; [lia|]); cbn [Sorting.bubble_outer]; rewrite Hbound.
  - destruct (Z.ltb_spec (Z.of_nat i) (Z.of_nat n - 1)); [lia|].
    exists arr. split; [done|]. split; [done|]. split; [done|].
    intros a b Ha Hab Hb. destruct (decide (n - i <= a)%nat); [apply Hsuf; lia|].
    destruct (decide (a = b)) as [->|]; [lia|]. apply Hsplit; lia.
  - destruct (Z.ltb_spec (Z.of_nat i) (Z.of_nat n - 1)) as [Hlt|Hge].
    + destruct (bubble_inner_spec i (n - i - 1) ltac:(lia)
                  (n - i - 1) 0 (S fuel) arr false)
        as (arr' & swapped' & Hrun & Hlen' & Hperm' & Hmax' & Hsuf' & Hsplit' & Hsw');
        try done; try lia.
      * replace (S (n - i - 1)) with (n - i)%nat by lia. done.
      * replace (S (n - i - 1)) with (n - i)%nat by lia. done.
      * intros _ a b Ha Hab Hb. assert (a = b) as -> by lia. lia.
      * change (Z.of_nat 0) with 0 in Hrun. rewrite Hrun. cbn [mbind outcome_bind].
        destruct swapped'; cbn [negb].
        -- rewrite wrap_id by int_range.
           replace (Z.of_nat i + 1) with (Z.of_nat (S i)) by lia.
           apply IH; try done; try lia.
           ++ intros a b Ha Hab Hb.
              destruct (decide (a = b)) as [->|]; [lia|].
              destruct (decide (a = n - i - 1)%nat) as [->|].
              ** apply Hsplit'; lia.
              ** apply Hsuf'; lia.
           ++ intros a b Ha Hab Hb.
              destruct (decide (b = n - i - 1)%nat) as [->|].
              ** apply Hmax'; lia.
              ** apply Hsplit'; lia.
        -- exists arr'. split; [done|]. split; [done|]. split; [done|].
           apply (sorted_range_join arr' (S (n - i - 1)) n); auto.
    + exists arr. split; [done|]. split; [done|]. split; [done|].
      intros a b Ha Hab Hb. destruct (decide (n - i <= a)%nat); [apply Hsuf; lia|].
      destruct (decide (a = b)) as [->|]; [lia|]. apply Hsplit; lia.
Qed.

Lemma selection_inner_spec (arr : list Z) (i : nat) :
  length arr = n ->
  forall (k j fuel min_idx : nat),
    (j + k = n)%nat -> (k < fuel)%nat ->
    (i <= min_idx)%nat -> (min_idx < j)%nat ->
    (forall b, (i <= b)%nat -> (b < j)%nat -> arr !!! min_idx <= arr !!! b) ->
    exists min',
      Sorting.selection_inner fuel arr (Z.of_nat n) (Z.of_nat j) (Z.of_nat min_idx)
      = Done (Z.of_nat min')
      /\ (i <= min')%nat /\ (min' < n)%nat
      /\ (forall b, (i <= b)%nat -> (b < n)%nat -> arr !!! min' <= arr !!! b).
Proof.
  intros Hlen.
  induction k as [|k IH]; intros j fuel min_idx Hjk Hfuel Himin Hminj Hmin;
    (destruct fuel as [|fuel]; [lia|]); cbn [Sorting.selection_inner].
  - destruct (Z.ltb_spec (Z.of_nat j) (Z.of_nat n)); [lia|].
    exists min_idx. split; [done|]. split; [done|]. split; [lia|].
    intros b Hb1 Hb2. apply Hmin; lia.
  - destruct (Z.ltb_spec (Z.of_nat j) (Z.of_nat n)); [|lia].
    rewrite !load_total by lia. cbn [mbind outcome_bind].
    rewrite wrap_id by int_range.
    replace (Z.of_nat j + 1) with (Z.of_nat (S j)) by lia.
    destruct (Z.ltb_spec (arr !!! j) (arr !!! min_idx)) as [Hlt|Hge].
    + apply IH; try lia. intros b Hb1 Hb2.
      destruct (decide (b = j)) as [->|]; [lia|]. specialize (Hmin b). lia.
    + apply IH; try lia. intros b Hb1 Hb2.
      destruct (decide (b = j)) as [->|]; [lia|]. specialize (Hmin b). lia.
Qed.

Lemma selection_outer_spec :
  forall (k i fuel : nat) (arr : list Z),
    (n <= i + k + 1)%nat -> (n - i < fuel)%nat ->
    length arr = n -> arr ≡ₚ orig ->
    sorted_range arr 0 i -> split_at arr i n ->
    exists arr',
      Sorting.selection_outer fuel arr (Z.of_nat n) (Z.of_nat i) = Done arr'
      /\ length arr' = n /\ arr' ≡ₚ orig /\ sorted_range arr' 0 n.
Proof.
  assert (Hbound : wrap (Z.of_nat n - 1) = Z.of_nat n - 1)
    by (apply wrap_id; int_range).
  assert (Hexit : forall i arr, (n <= i + 1)%nat ->
            sorted_range arr 0 i -> split_at arr i n -> sorted_range arr 0 n).
  { intros i arr Hi Hs Hsplit a b Ha Hab Hb.
    destruct (decide (a = b)) as [->|]; [lia|].
    destruct (decide (b < i)%nat); [apply Hs; lia|apply Hsplit; lia]. }
  induction k as [|k IH]; intros i fuel arr Hk Hfuel Hlen Hperm Hs Hsplit;
    (destruct fuel as [|fuel]; [lia|]); cbn [Sorting.selection_outer]; rewrite Hbound.
  - destruct (Z.ltb_spec (Z.of_nat i) (Z.of_nat n - 1)); [lia|].
    exists arr. split; [done|]. split; [done|]. split; [done|]. apply (Hexit i); [lia|done..].
  - destruct (Z.ltb_spec (Z.of_nat i) (Z.of_nat n - 1)) as [Hlt|Hge].
    2:{ exists arr. split; [done|]. split; [done|]. split; [done|].
        apply (Hexit i); [lia|done..]. }
    assert (Hw : wrap (Z.of_nat i + 1) = Z.of_nat (S i))
      by (rewrite wrap_id by int_range; lia).
    rewrite !Hw.
    destruct (selection_inner_spec arr i Hlen (n - S i) (S i) (S fuel) i)
      as (min' & -> & Hmin1 & Hmin2 & Hmin); try lia.
    { intros b Hb1 Hb2. assert (b = i) as -> by lia. lia. }
    cbn [mbind outcome_bind].
    destruct (Z.eqb_spec (Z.of_nat min') (Z.of_nat i)) as [Heq|Hne]; cbn [negb].
    + assert (min' = i) as -> by lia. cbn [mbind outcome_bind].
      apply IH; try done; try lia.
      * intros a b Ha Hab Hb. destruct (decide (b = i)) as [->|]; [|apply Hs; lia].
        destruct (decide (a = i)) as [->|]; [lia|]. apply Hsplit; lia.
      * intros a b Ha Hab Hb. destruct (decide (a = i)) as [->|].
        -- apply Hmin; lia.
        -- apply Hsplit; lia.
    + rewrite !load_total by lia. cbn [mbind outcome_bind].
      rewrite store_total by lia. cbn [mbind outcome_bind].
      rewrite store_total by (rewrite length_insert; lia).
      apply IH; try lia.
      * by rewrite !length_insert.
      * rewrite <- Hperm. apply swap_Permutation; lia.
      * intros a b Ha Hab Hb.
        pose proof (Hs a b). pose proof (Hsplit a min'). sort_lookup.
      * intros a b Ha Hab Hb.
        pose proof (Hsplit a b). pose proof (Hsplit a i). pose proof (Hsplit a min').
        pose proof (Hmin b). pose proof (Hmin i). sort_lookup.
Qed.

Lemma insertion_inner_spec (i : nat) (key : Z) :
  (i < n)%nat ->
  forall (hole fuel : nat) (arr : list Z),
    (hole <= i)%nat -> (hole < fuel)%nat ->
    length arr = n -> <[hole := key]> arr ≡ₚ orig ->
    (forall a b, (a <= b)%nat -> (b <= i)%nat -> a ≠ hole -> b ≠ hole ->
       arr !!! a <= arr !!! b) ->
    (forall b, (hole < b)%nat -> (b <= i)%nat -> key < arr !!! b) ->
    exists arr' hole',
      Sorting.insertion_inner fuel arr key (Z.of_nat hole - 1)
      = Done (arr', Z.of_nat hole' - 1)
      /\ (hole' <= i)%nat /\ length arr' = n /\ <[hole' := key]> arr' ≡ₚ orig
      /\ (forall a b, (a <= b)%nat -> (b <= i)%nat -> a ≠ hole' -> b ≠ hole' ->
            arr' !!! a <= arr' !!! b)
      /\ (forall b, (hole' < b)%nat -> (b <= i)%nat -> key < arr' !!! b)
      /\ (forall a, (a < hole')%nat -> arr' !!! a <= key).
Proof.
  intros Hi.
  induction hole as [|hole IH]; intros fuel arr Hhole Hfuel Hlen Hperm Hsorted Hgt;
    (destruct fuel as [|fuel]; [lia|]); cbn [Sorting.insertion_inner].
  - destruct (Z.geb_spec (Z.of_nat 0 - 1) 0); [lia|].
    exists arr, 0%nat. repeat (split; [done|]). intros a Ha. lia.
  - replace (Z.of_nat (S hole) - 1) with (Z.of_nat hole) by lia.
    destruct (Z.geb_spec (Z.of_nat hole) 0); [|lia].
    rewrite load_total by lia. cbn [mbind outcome_bind].
    destruct (Z.gtb_spec (arr !!! hole) key) as [Hbig|Hsmall].
    + rewrite (wrap_id (Z.of_nat hole + 1)) by int_range.
      replace (Z.of_nat hole + 1) with (Z.of_nat (S hole)) by lia.
      cbn [mbind outcome_bind].
      rewrite store_total by lia. cbn [mbind outcome_bind].
      rewrite wrap_id by int_range.
      apply IH.
      * lia.
      * lia.
      * by rewrite length_insert.
      * rewrite <- Hperm.
        pose proof (swap_Permutation (<[S hole := key]> arr) hole (S hole)) as Hswap.
        rewrite !length_insert in Hswap.
        rewrite (lookup_total_insert_case arr (S hole) hole) in Hswap by lia.
        rewrite (lookup_total_insert_case arr (S hole) (S hole)) in Hswap by lia.
        destruct (decide (hole = S hole)); [lia|].
        destruct (decide (S hole = S hole)); [|done].
        specialize (Hswap ltac:(lia) ltac:(lia)).
        rewrite (list_insert_insert_ne _ hole (S hole) key key) in Hswap by lia.
        rewrite list_insert_insert_eq in Hswap.
        by rewrite (list_insert_insert_ne _ (S hole) hole) in Hswap by lia.
      * intros a b Hab Hb Ha' Hb'.
        pose proof (Hsorted a b). pose proof (Hsorted hole b). pose proof (Hsorted a hole).
        sort_lookup.
      * intros b Hb1 Hb2. pose proof (Hgt b). sort_lookup.
    + exists arr, (S hole). split; [by replace (Z.of_nat (S hole) - 1) with (Z.of_nat hole) by lia|].
      repeat (split; [done|]). intros a Ha.
      destruct (decide (a = hole)) as [->|]; [lia|].
      pose proof (Hsorted a hole). lia.
Qed.

Lemma insertion_outer_spec :
  forall (k i fuel : nat) (arr : list Z),
    (i + k = n)%nat -> (1 <= i)%nat -> (2 * n < fuel + i)%nat ->
    length arr = n -> arr ≡ₚ orig -> sorted_range arr 0 i ->
    exists arr',
      Sorting.insertion_outer fuel arr (Z.of_nat n) (Z.of_nat i) = Done arr'
      /\ length arr' = n /\ arr' ≡ₚ orig /\ sorted_range arr' 0 n.
Proof.
  induction k as [|k IH]; intros i fuel arr Hk Hi Hfuel Hlen Hperm Hs;
    (destruct fuel as [|fuel]; [lia|]); cbn [Sorting.insertion_outer].
  - destruct (Z.ltb_spec (Z.of_nat i) (Z.of_nat n)); [lia|].
    exists arr. assert (i = n) as -> by lia. done.
  - destruct (Z.ltb_spec (Z.of_nat i) (Z.of_nat n)); [|lia].
    rewrite load_total by lia. cbn [mbind outcome_bind].
    rewrite (wrap_id (Z.of_nat i - 1)) by int_range.
    destruct (insertion_inner_spec i (arr !!! i) ltac:(lia) i (S fuel) arr)
      as (arr1 & hole & -> & Hhole & Hlen1 & Hperm1 & Hsorted1 & Hgt1 & Hle1);
      try done; try lia.
    { rewrite list_insert_id; [done|]. apply list_lookup_lookup_total_lt. lia. }
    { intros a b Hab Hb Ha' Hb'. apply Hs; lia. }
    cbn [mbind outcome_bind].
    rewrite (wrap_id (Z.of_nat hole - 1 + 1)) by int_range.
    replace (Z.of_nat hole - 1 + 1) with (Z.of_nat hole) by lia.
    rewrite store_total by lia. cbn [mbind outcome_bind].
    rewrite wrap_id by int_range.
    replace (Z.of_nat i + 1) with (Z.of_nat (S i)) by lia.
    apply IH; try done; try lia.
    + by rewrite length_insert.
    + intros a b Ha Hab Hb.
      pose proof (Hsorted1 a b). pose proof (Hgt1 b). pose proof (Hle1 a).
      sort_lookup.
Qed.

End sorting_loops.

(** C2. On every array, with [size] its length, each of [bubble_sort],
    [selection_sort] and [insertion_sort] returns an array that is
    non-decreasing and a permutation of the input. *)
Theorem sorting_sorted_permutation (arr : list Z) (fuel : nat) :
  Z.of_nat (length arr) <= INT_MAX ->
  (2 * length arr < fuel)%nat ->
  exists bubble selection insertion,
    Sorting.bubble_sort fuel arr (Z.of_nat (length arr)) = Done bubble
    /\ Sorting.selection_sort fuel arr (Z.of_nat (length arr)) = Done selection
    /\ Sorting.insertion_sort fuel arr (Z.of_nat (length arr)) = Done insertion
    /\ Sorted Z.le bubble /\ Permutation bubble arr
    /\ Sorted Z.le selection /\ Permutation selection arr
    /\ Sorted Z.le insertion /\ Permutation insertion arr.
Proof.
  intros Hmax Hfuel.
  destruct (bubble_outer_spec arr (length arr) Hmax (length arr) 0 fuel arr)
    as (bubble & Hb & Hlenb & Hpermb & Hsb); try done; try lia.
  { intros a b ? ? ?. lia. }
  { intros a b ? ? ?. lia. }
  destruct (selection_outer_spec arr (length arr) Hmax (length arr) 0 fuel arr)
    as (selection & Hs & Hlens & Hperms & Hss); try done; try lia.
  { intros a b ? ? ?. lia. }
  { intros a b ? ? ?. lia. }
  assert (exists insertion,
             Sorting.insertion_sort fuel arr (Z.of_nat (length arr)) = Done insertion
             /\ length insertion = length arr /\ insertion ≡ₚ arr
             /\ sorted_range insertion 0 (length arr))
    as (insertion & Hi & Hleni & Hpermi & Hsi).
  { destruct (decide (length arr = 0)%nat) as [Hnil|Hpos].
    - exists arr. destruct fuel as [|fuel]; [lia|]. rewrite Hnil.
      split; [done|]. split; [done|]. split; [done|]. intros a b ? ? ?. lia.
    - apply (insertion_outer_spec arr (length arr) Hmax (length arr - 1) 1 fuel arr);
        try done; try lia.
      intros a b ? ? ?. assert (a = b) as -> by lia. lia. }
  exists bubble, selection, insertion.
  rewrite <- Hlenb in Hsb. rewrite <- Hlens in Hss. rewrite <- Hleni in Hsi.
  repeat split; try done; by apply sorted_range_Sorted.
Qed.

Lemma sorting_sorted_permutation_witness :
  Z.of_nat (length [64; 34; 25; 12; 22; 11; 90]) <= INT_MAX
  /\ (2 * length [64; 34; 25; 12; 22; 11; 90] < 15)%nat
  /\ exists bubble selection insertion,
    Sorting.bubble_sort 15 [64; 34; 25; 12; 22; 11; 90]
      (Z.of_nat (length [64; 34; 25; 12; 22; 11; 90])) = Done bubble
    /\ Sorting.selection_sort 15 [64; 34; 25; 12; 22; 11; 90]
         (Z.of_nat (length [64; 34; 25; 12; 22; 11; 90])) = Done selection
    /\ Sorting.insertion_sort 15 [64; 34; 25; 12; 22; 11; 90]
         (Z.of_nat (length [64; 34; 25; 12; 22; 11; 90])) = Done insertion
    /\ Sorted Z.le bubble /\ Permutation bubble [64; 34; 25; 12; 22; 11; 90]
    /\ Sorted Z.le selection /\ Permutation selection [64; 34; 25; 12; 22; 11; 90]
    /\ Sorted Z.le insertion /\ Permutation insertion [64; 34; 25; 12; 22; 11; 90].
Proof.
  split; [vm_compute; discriminate|]. split; [simpl; lia|].
  apply (sorting_sorted_permutation [64; 34; 25; 12; 22; 11; 90] 15).
  - vm_compute; discriminate.
  - simpl; lia.
Defined.

(** The three sorts run on the array of the demonstration. *)
Example sorts_run :
  Sorting.bubble_sort 15 [64; 34; 25; 12; 22; 11; 90] 7 = Done [11; 12; 22; 25; 34; 64; 90]
  /\ Sorting.selection_sort 15 [64; 34; 25; 12; 22; 11; 90] 7 = Done [11; 12; 22; 25; 34; 64; 90]
  /\ Sorting.insertion_sort 15 [64; 34; 25; 12; 22; 11; 90] 7 = Done [11; 12; 22; 25; 34; 64; 90].
Proof. repeat split; vm_compute; reflexivity. Qed.

(** * Further properties of the code

    The functions next to the ones above, in the same files: what they
    return on valid and on invalid input, and how they compose. *)

(** ** math_utils.c *)

(** X1. Below 46337 * 46337, the first square the loop cannot hold,
    [is_prime] returns [true] exactly on the primes. *)
Theorem is_prime_correct (n : Z) (fuel : nat) :
  n < 2147117569 -> 7724 <= Z.of_nat fuel ->
  exists b, MathUtils.is_prime fuel n = Done b /\ (b = true <-> Z.prime n).
Proof. apply is_prime_spec. Qed.

Lemma is_prime_correct_witness :
  97 < 2147117569 /\ 7724 <= Z.of_nat (Z.to_nat 7724)
  /\ exists b, MathUtils.is_prime (Z.to_nat 7724) 97 = Done b /\ (b = true <-> Z.prime 97).
Proof.
  split; [lia|]. split; [lia|].
  apply (is_prime_correct 97 (Z.to_nat 7724)); lia.
Defined.

Lemma ABS_abs (x : Z) : INT_MIN < x <= INT_MAX -> MathUtils.ABS x = Z.abs x.
Proof.
  intros Hx. unfold MathUtils.ABS. destruct (Z.ltb_spec x 0).
  - rewrite wrap_id by int_range. lia.
  - lia.
Qed.

Lemma gcd_loop_spec (fuel : nat) :
  forall a b,
    0 <= a <= INT_MAX -> 0 <= b <= INT_MAX -> b < Z.of_nat fuel ->
    MathUtils.gcd_loop fuel a b = Done (Z.gcd a b).
Proof.
  induction fuel as [|fuel IH]; intros a b Ha Hb Hfuel; [lia|].
  cbn [MathUtils.gcd_loop]. destruct (Z.eqb_spec b 0) as [->|Hne]; cbn [negb].
  - by rewrite Z.gcd_0_r, Z.abs_eq by lia.
  - destruct (int_rem_Done a b) as [-> _]; [done|lia|].
    cbn [mbind outcome_bind].
    pose proof (Z.rem_bound_pos a b). pose proof (Z.rem_le a b).
    rewrite IH by lia.
    f_equal. rewrite (Z.gcd_comm b), Z.gcd_rem by done. apply Z.gcd_comm.
Qed.

(** X2. [gcd] returns the greatest common divisor of its arguments, of
    either sign, [INT_MIN] apart (whose absolute value is no [int]). *)
Theorem gcd_correct (a b : Z) (fuel : nat) :
  INT_MIN < a <= INT_MAX -> INT_MIN < b <= INT_MAX ->
  Z.abs b < Z.of_nat fuel ->
  MathUtils.gcd fuel a b = Done (Z.gcd a b).
Proof.
  intros Ha Hb Hfuel. unfold MathUtils.gcd. rewrite !ABS_abs by done.
  rewrite gcd_loop_spec by int_range.
  by rewrite Z.gcd_abs_l, Z.gcd_abs_r.
Qed.

Lemma gcd_correct_witness :
  INT_MIN < -48 <= INT_MAX /\ INT_MIN < 18 <= INT_MAX
  /\ Z.abs 18 < Z.of_nat 19
  /\ MathUtils.gcd 19 (-48) 18 = Done (Z.gcd (-48) 18).
Proof.
  split; [vm_compute; split; [reflexivity|discriminate]|].
  split; [vm_compute; split; [reflexivity|discriminate]|].
  split; [vm_compute; reflexivity|].
  apply (gcd_correct (-48) 18 19).
  - vm_compute; split; [reflexivity|discriminate].
  - vm_compute; split; [reflexivity|discriminate].
  - vm_compute; reflexivity.
Defined.

Lemma abs_mul_div_gcd (a b : Z) :
  b <> 0 -> Z.abs (a * b) ÷ Z.gcd a b = Z.lcm a b.
Proof.
  intros Hb. unfold Z.lcm.
  pose proof (Z.gcd_nonneg a b) as Hg.
  assert (Hg0 : Z.gcd a b <> 0) by (intros H0; apply Z.gcd_eq_0_r in H0; done).
  destruct (Z.gcd_divide_r a b) as [k Hk].
  rewrite Z.quot_div_nonneg by lia.
  rewrite Hk at 1 3. rewrite Z.div_mul by done.
  rewrite Z.mul_assoc, Z.abs_mul, (Z.abs_eq (Z.gcd a b)) by done.
  by rewrite Z.div_mul.
Qed.

(** X3. [lcm] returns the least common multiple when the absolute value
    of the product [a * b] is at most [INT_MAX], and 0 when an argument is
    0.  A product of [INT_MIN] is left out, although it is an [int]: its
    negation in [ABS] is not (see [lcm_product_INT_MIN] below). *)
Theorem lcm_correct (a b : Z) (fuel : nat) :
  in_int a -> in_int b -> Z.abs (a * b) <= INT_MAX ->
  Z.abs b < Z.of_nat fuel ->
  MathUtils.lcm fuel a b = Done (Z.lcm a b).
Proof.
  intros Ha Hb Hab Hfuel. unfold MathUtils.lcm.
  destruct (Z.eqb_spec a 0) as [->|Ha0]; [by rewrite Z.lcm_0_l|].
  destruct (Z.eqb_spec b 0) as [->|Hb0]; [by rewrite Z.lcm_0_r|].
  cbn [orb].
  assert (Z.abs a <= Z.abs (a * b) /\ Z.abs b <= Z.abs (a * b)) as [Ha' Hb']
    by (rewrite Z.abs_mul; nia).
  rewrite gcd_correct by int_range. cbn [mbind outcome_bind].
  rewrite (wrap_id (a * b)) by int_range.
  rewrite ABS_abs by int_range.
  unfold MathUtils.int_div.
  pose proof (Z.gcd_nonneg a b) as Hg.
  destruct (Z.eqb_spec (Z.gcd a b) 0) as [H0|Hg0]; [by apply Z.gcd_eq_0_r in H0|].
  rewrite abs_mul_div_gcd by done. f_equal. apply wrap_id.
  rewrite <- abs_mul_div_gcd by done.
  pose proof (Z.quot_pos (Z.abs (a * b)) (Z.gcd a b)).
  pose proof (Z.quot_le_upper_bound (Z.abs (a * b)) (Z.gcd a b) (Z.abs (a * b))).
  assert (0 < Z.gcd a b) by lia.
  assert (Z.abs (a * b) <= Z.gcd a b * Z.abs (a * b)) by nia.
  int_range.
Qed.

Lemma lcm_correct_witness :
  in_int 4 /\ in_int (-6) /\ Z.abs (4 * -6) <= INT_MAX /\ Z.abs (-6) < Z.of_nat 7
  /\ MathUtils.lcm 7 4 (-6) = Done (Z.lcm 4 (-6)).
Proof.
  split; [vm_compute; split; discriminate|].
  split; [vm_compute; split; discriminate|].
  split; [vm_compute; discriminate|]. split; [vm_compute; reflexivity|].
  apply (lcm_correct 4 (-6) 7).
  - vm_compute; split; discriminate.
  - vm_compute; split; discriminate.
  - vm_compute; discriminate.
  - vm_compute; reflexivity.
Defined.

(** Why the product [INT_MIN] is left out of X3: [ABS] cannot negate it,
    and the wrapped run of [lcm(-1073741824, 2)] gives a negative number
    where the least common multiple is 1073741824. *)
Example lcm_product_INT_MIN :
  -1073741824 * 2 = INT_MIN
  /\ MathUtils.lcm 3 (-1073741824) 2 = Done (-1073741824)
  /\ Z.lcm (-1073741824) 2 = 1073741824.
Proof. repeat split; vm_compute; reflexivity. Qed.

Lemma fact_Z_S (m : nat) :
  Z.of_nat (fact (S m)) = Z.of_nat (S m) * Z.of_nat (fact m).
Proof. change (fact (S m)) with (S m * fact m)%nat. apply Nat2Z.inj_mul. Qed.

Lemma fact_Z_bound (m : nat) :
  (m <= 12)%nat -> 1 <= Z.of_nat (fact m) <= 479001600.
Proof.
  intros Hm. do 13 (destruct m as [|m]; [rewrite ?fact_Z_S; change (fact 0) with 1%nat; lia|]).
  lia.
Qed.

Lemma factorial_loop_spec (n : Z) :
  n <= 12 ->
  forall (k : nat) (i : Z) (fuel : nat),
    2 <= i -> i + Z.of_nat k = n + 1 -> (k < fuel)%nat ->
    MathUtils.factorial_loop fuel n i (Z.of_nat (fact (Z.to_nat (i - 1))))
    = Done (Z.of_nat (fact (Z.to_nat n))).
Proof.
  intros Hn. induction k as [|k IH]; intros i fuel Hi Hk Hfuel;
    (destruct fuel as [|fuel]; [lia|]); cbn [MathUtils.factorial_loop].
  - destruct (Z.leb_spec i n); [lia|]. do 3 f_equal. lia.
  - destruct (Z.leb_spec i n); [|lia].
    rewrite (wrap_id (i + 1)) by int_range.
    assert (Hfact : Z.of_nat (fact (Z.to_nat (i - 1))) * i
                    = Z.of_nat (fact (Z.to_nat (i + 1 - 1)))).
    { replace (Z.to_nat (i + 1 - 1)) with (S (Z.to_nat (i - 1))) by lia.
      rewrite fact_Z_S. lia. }
    pose proof (fact_Z_bound (Z.to_nat (i + 1 - 1)) ltac:(lia)).
    rewrite Hfact, wrap_id by int_range. apply IH; lia.
Qed.

(** X4. [factorial] returns [n!] for [n] from 0 to 12, the last factorial
    an [int] holds, and 0 for a negative [n]. *)
Theorem factorial_correct (n : Z) (fuel : nat) :
  n <= 12 -> n < Z.of_nat fuel ->
  MathUtils.factorial fuel n
  = Done (if n <? 0 then 0 else Z.of_nat (fact (Z.to_nat n))).
Proof.
  intros Hn Hfuel. unfold MathUtils.factorial.
  destruct (Z.ltb_spec n 0); [done|].
  destruct (Z.eqb_spec n 0) as [->|]; [done|].
  destruct (Z.eqb_spec n 1) as [->|]; [done|]. cbn [orb].
  apply (factorial_loop_spec n Hn (Z.to_nat (n - 1)) 2 fuel); lia.
Qed.

Lemma factorial_correct_witness :
  5 <= 12 /\ 5 < Z.of_nat 6
  /\ MathUtils.factorial 6 5
     = Done (if 5 <? 0 then 0 else Z.of_nat (fact (Z.to_nat 5))).
Proof.
  split; [lia|]. split; [lia|]. apply (factorial_correct 5 6); lia.
Defined.

Lemma fib_iter (n : nat) :
  Nat.iter n (fun p : Z * Z => (snd p, fst p + snd p)) (0, 1) = (fib n, fib (S n)).
Proof.
  induction n as [|n IH]; [done|]. rewrite Nat.iter_succ, IH. done.
Qed.

Lemma fib_nonneg (n : nat) : 0 <= fib n /\ 0 <= fib (S n).
Proof.
  induction n as [|n [IH1 IH2]]; [simpl; lia|].
  split; [done|]. change (fib (S (S n))) with (fib n + fib (S n)). lia.
Qed.

Lemma fib_bound (n : nat) : (n <= 46)%nat -> 0 <= fib n <= 1836311903.
Proof.
  intros Hn. split; [apply fib_nonneg|].
  assert (Hmono : forall k m : nat, fib m <= fib (k + m)).
  { induction k as [|k IH]; intros m; [simpl; lia|].
    etrans; [apply IH|]. cbn [Nat.add].
    destruct (k + m)%nat as [|j]; [simpl; lia|].
    change (fib (S (S j))) with (fib j + fib (S j)).
    pose proof (fib_nonneg j). lia. }
  replace 1836311903 with (fib 46).
  - replace 46%nat with ((46 - n) + n)%nat by lia. apply Hmono.
  - assert (H46 : Nat.iter 46 (fun p : Z * Z => (snd p, fst p + snd p)) (0, 1)
                  = (1836311903, 2971215073)) by (vm_compute; reflexivity).
    rewrite fib_iter in H46. congruence.
Qed.

Lemma fibonacci_loop_spec (n : Z) :
  n <= 46 ->
  forall (k : nat) (i : Z) (fuel : nat),
    2 <= i -> i + Z.of_nat k = n + 1 -> (k < fuel)%nat ->
    MathUtils.fibonacci_loop fuel n i (fib (Z.to_nat (i - 2))) (fib (Z.to_nat (i - 1)))
    = Done (fib (Z.to_nat n)).
Proof.
  intros Hn. induction k as [|k IH]; intros i fuel Hi Hk Hfuel;
    (destruct fuel as [|fuel]; [lia|]); cbn [MathUtils.fibonacci_loop].
  - destruct (Z.leb_spec i n); [lia|]. do 2 f_equal. lia.
  - destruct (Z.leb_spec i n); [|lia].
    rewrite (wrap_id (i + 1)) by int_range.
    assert (Hfib : fib (Z.to_nat (i - 2)) + fib (Z.to_nat (i - 1))
                   = fib (Z.to_nat (i + 1 - 1))).
    { replace (Z.to_nat (i + 1 - 1)) with (S (S (Z.to_nat (i - 2)))) by lia.
      replace (Z.to_nat (i - 1)) with (S (Z.to_nat (i - 2))) by lia. done. }
    pose proof (fib_bound (Z.to_nat (i + 1 - 1)) ltac:(lia)).
    rewrite Hfib, wrap_id by int_range.
    replace (Z.to_nat (i - 1)) with (Z.to_nat (i + 1 - 2)) by lia.
    apply IH; lia.
Qed.

(** X5. [fibonacci] returns the [n]-th Fibonacci number for [n] up to 46,
    the last one an [int] holds, and 0 for a negative [n]. *)
Theorem fibonacci_correct (n : Z) (fuel : nat) :
  n <= 46 -> n < Z.of_nat fuel ->
  MathUtils.fibonacci fuel n = Done (fib (Z.to_nat n)).
Proof.
  intros Hn Hfuel. unfold MathUtils.fibonacci.
  destruct (Z.leb_spec n 0).
  { replace (Z.to_nat n) with 0%nat by lia. done. }
  destruct (Z.eqb_spec n 1) as [->|]; [done|].
  apply (fibonacci_loop_spec n Hn (Z.to_nat (n - 1)) 2 fuel); lia.
Qed.

Lemma fibonacci_correct_witness :
  10 <= 46 /\ 10 < Z.of_nat 11
  /\ MathUtils.fibonacci 11 10 = Done (fib (Z.to_nat 10)).
Proof.
  split; [lia|]. split; [lia|]. apply (fibonacci_correct 10 11); lia.
Defined.

(** X6. [is_even] and [is_odd] tell the parity of every [int], the
    negative ones included, and exactly one of them returns 1. *)
Theorem is_even_is_odd_parity (n : Z) :
  (MathUtils.is_even n = 1 <-> Z.Even n)
  /\ (MathUtils.is_odd n = 1 <-> Z.Odd n)
  /\ MathUtils.is_even n + MathUtils.is_odd n = 1.
Proof.
  unfold MathUtils.is_even, MathUtils.is_odd.
  assert (Hrem : Z.rem n 2 = 0 <-> Z.Even n).
  { rewrite Z.rem_divide by done. split; intros [k Hk]; exists k; lia. }
  destruct (Z.eqb_spec (Z.rem n 2) 0) as [E|E]; cbn [negb].
  - split; [tauto|]. split; [|done]. split; [done|].
    intros Hodd. exfalso. apply Hrem in E.
    destruct E as [k Hk], Hodd as [j Hj]. lia.
  - split; [|split; [|done]].
    + split; [done|]. intros Heven. by apply Hrem in Heven.
    + split; [|done]. intros _.
      destruct (Z.Even_or_Odd n) as [Heven|Hodd]; [by apply Hrem in Heven|done].
Qed.

(** ** sorting.c: [is_sorted] and [copy_array] *)

Lemma adjacent_Sorted (arr : list Z) :
  (forall a : nat, (S a < length arr)%nat -> arr !!! a <= arr !!! S a) ->
  Sorted Z.le arr.
Proof.
  induction arr as [|x arr IH]; intros Hadj; [constructor|].
  constructor.
  - apply IH. intros a Ha. apply (Hadj (S a)). simpl. lia.
  - destruct arr as [|y arr]; constructor. apply (Hadj 0%nat). simpl. lia.
Qed.

Lemma is_sorted_loop_spec (arr : list Z) :
  Z.of_nat (length arr) <= INT_MAX ->
  forall (k i fuel : nat),
    (length arr <= i + k + 1)%nat -> (k < fuel)%nat ->
    (forall a : nat, (a < i)%nat -> (S a < length arr)%nat -> arr !!! a <= arr !!! S a) ->
    exists b,
      Sorting.is_sorted_loop fuel arr (Z.of_nat (length arr)) (Z.of_nat i) = Done b
      /\ (b = true <-> Sorted Z.le arr).
Proof.
  intros Hmax.
  assert (Hbound : wrap (Z.of_nat (length arr) - 1) = Z.of_nat (length arr) - 1)
    by (apply wrap_id; int_range).
  assert (Hexit : forall i : nat, (length arr <= i + 1)%nat ->
            (forall a : nat, (a < i)%nat -> (S a < length arr)%nat ->
               arr !!! a <= arr !!! S a) ->
            Sorted Z.le arr).
  { intros i Hi Hadj. apply adjacent_Sorted. intros a Ha. apply Hadj; lia. }
  induction k as [|k IH]; intros i fuel Hk Hfuel Hadj;
    (destruct fuel as [|fuel]; [lia|]); cbn [Sorting.is_sorted_loop]; rewrite Hbound.
  - destruct (Z.ltb_spec (Z.of_nat i) (Z.of_nat (length arr) - 1)); [lia|].
    exists true. split; [done|]. split; [|done]. intros _. apply (Hexit i); [lia|done].
  - destruct (Z.ltb_spec (Z.of_nat i) (Z.of_nat (length arr) - 1)).
    2:{ exists true. split; [done|]. split; [|done]. intros _.
        apply (Hexit i); [lia|done]. }
    assert (Hw : wrap (Z.of_nat i + 1) = Z.of_nat (S i))
      by (rewrite wrap_id by int_range; lia).
    rewrite !Hw, !load_total by lia. cbn [mbind outcome_bind].
    destruct (Z.gtb_spec (arr !!! i) (arr !!! S i)) as [Hgt|Hle].
    + exists false. split; [done|]. split; [done|]. intros Hs. exfalso.
      pose proof (Sorted_le_lookup arr Hs i (S i) (arr !!! i) (arr !!! S i)) as Hle.
      rewrite !list_lookup_lookup_total_lt in Hle by lia.
      specialize (Hle ltac:(lia) eq_refl eq_refl). lia.
    + apply IH; [lia|lia|]. intros a Ha Ha'.
      destruct (decide (a = i)) as [->|]; [done|]. apply Hadj; lia.
Qed.

(** X7. [is_sorted] returns [true] exactly on the arrays that are in
    non-decreasing order; the empty array and the array of one element are
    among them. *)
Theorem is_sorted_correct (arr : list Z) (fuel : nat) :
  Z.of_nat (length arr) <= INT_MAX -> (length arr < fuel)%nat ->
  exists b,
    Sorting.is_sorted fuel arr (Z.of_nat (length arr)) = Done b
    /\ (b = true <-> Sorted Z.le arr).
Proof.
  intros Hmax Hfuel.
  apply (is_sorted_loop_spec arr Hmax (length arr) 0 fuel); [lia|lia|]. intros; lia.
Qed.

Lemma is_sorted_correct_witness :
  Z.of_nat (length [3; 1; 2]) <= INT_MAX /\ (length [3; 1; 2] < 4)%nat
  /\ exists b,
    Sorting.is_sorted 4 [3; 1; 2] (Z.of_nat (length [3; 1; 2])) = Done b
    /\ (b = true <-> Sorted Z.le [3; 1; 2]).
Proof.
  split; [vm_compute; discriminate|]. split; [simpl; lia|].
  apply (is_sorted_correct [3; 1; 2] 4); [vm_compute; discriminate|simpl; lia].
Defined.

Lemma insert_take_drop_step (dest src : list Z) (i : nat) :
  (i < length src)%nat -> (i < length dest)%nat ->
  <[i := src !!! i]> (take i src ++ drop i dest) = take (S i) src ++ drop (S i) dest.
Proof.
  intros Hs Hd.
  rewrite insert_app_r_alt by (rewrite length_take; lia).
  rewrite length_take, Nat.min_l, Nat.sub_diag by lia.
  rewrite (drop_S dest (dest !!! i) i) by (by apply list_lookup_lookup_total_lt).
  rewrite (take_S_r src i (src !!! i)) by (by apply list_lookup_lookup_total_lt).
  by rewrite <- app_assoc.
Qed.

Lemma copy_array_loop_spec (dest src : list Z) (n : nat) :
  Z.of_nat n <= INT_MAX -> (n <= length src)%nat -> (n <= length dest)%nat ->
  forall (k i fuel : nat),
    (i + k = n)%nat -> (k < fuel)%nat ->
    Sorting.copy_array_loop fuel (take i src ++ drop i dest) src (Z.of_nat n) (Z.of_nat i)
    = Done (take n src ++ drop n dest).
Proof.
  intros Hmax Hsrc Hdest.
  induction k as [|k IH]; intros i fuel Hk Hfuel;
    (destruct fuel as [|fuel]; [lia|]); cbn [Sorting.copy_array_loop].
  - destruct (Z.ltb_spec (Z.of_nat i) (Z.of_nat n)); [lia|]. by replace n with i by lia.
  - destruct (Z.ltb_spec (Z.of_nat i) (Z.of_nat n)); [|lia].
    rewrite load_total by lia. cbn [mbind outcome_bind].
    rewrite store_total by (rewrite length_app, length_take, length_drop; lia).
    cbn [mbind outcome_bind].
    rewrite wrap_id by int_range.
    replace (Z.of_nat i + 1) with (Z.of_nat (S i)) by lia.
    rewrite insert_take_drop_step by lia. apply IH; lia.
Qed.

(** X8. [copy_array] puts the first [size] elements of [src] at the front of
    [dest] and leaves the rest of [dest] as it was; with a [size] that is
    zero or negative [dest] is unchanged. *)
Theorem copy_array_correct (dest src : list Z) (size : Z) (fuel : nat) :
  size <= INT_MAX ->
  size <= Z.of_nat (length src) -> size <= Z.of_nat (length dest) ->
  size < Z.of_nat fuel -> (0 < fuel)%nat ->
  Sorting.copy_array fuel dest src size
  = Done (take (Z.to_nat size) src ++ drop (Z.to_nat size) dest).
Proof.
  intros Hmax Hsrc Hdest Hfuel Hpos. unfold Sorting.copy_array.
  destruct (Z.le_gt_cases 0 size) as [Hnonneg|Hneg].
  - pose proof (copy_array_loop_spec dest src (Z.to_nat size) ltac:(lia) ltac:(lia)
                  ltac:(lia) (Z.to_nat size) 0 fuel ltac:(lia) ltac:(lia)) as Hrun.
    rewrite Z2Nat.id in Hrun by done. by rewrite take_0, drop_0 in Hrun.
  - destruct fuel as [|fuel]; [lia|]. cbn [Sorting.copy_array_loop].
    destruct (Z.ltb_spec 0 size); [lia|].
    replace (Z.to_nat size) with 0%nat by lia. done.
Qed.

Lemma copy_array_correct_witness :
  2 <= INT_MAX /\ 2 <= Z.of_nat (length [7; 8; 9]) /\ 2 <= Z.of_nat (length [1; 2; 3; 4])
  /\ 2 < Z.of_nat 3 /\ (0 < 3)%nat
  /\ Sorting.copy_array 3 [1; 2; 3; 4] [7; 8; 9] 2
     = Done (take (Z.to_nat 2) [7; 8; 9] ++ drop (Z.to_nat 2) [1; 2; 3; 4]).
Proof.
  split; [vm_compute; discriminate|]. split; [vm_compute; discriminate|].
  split; [vm_compute; discriminate|]. split; [lia|]. split; [lia|].
  apply (copy_array_correct [1; 2; 3; 4] [7; 8; 9] 2 3).
  - vm_compute; discriminate.
  - vm_compute; discriminate.
  - vm_compute; discriminate.
  - lia.
  - lia.
Defined.

Lemma sorts_run_spec (arr : list Z) (fuel : nat) :
  Z.of_nat (length arr) <= INT_MAX -> (2 * length arr < fuel)%nat ->
  exists bubble selection insertion,
    Sorting.bubble_sort fuel arr (Z.of_nat (length arr)) = Done bubble
    /\ Sorting.selection_sort fuel arr (Z.of_nat (length arr)) = Done selection
    /\ Sorting.insertion_sort fuel arr (Z.of_nat (length arr)) = Done insertion
    /\ Forall (fun r => length r = length arr /\ r ≡ₚ arr /\ Sorted Z.le r)
         [bubble; selection; insertion].
Proof.
  intros Hmax Hfuel.
  destruct (bubble_outer_spec arr (length arr) Hmax (length arr) 0 fuel arr)
    as (bubble & Hb & Hlenb & Hpermb & Hsb); try done; try lia.
  { intros a b ? ? ?. lia. }
  { intros a b ? ? ?. lia. }
  destruct (selection_outer_spec arr (length arr) Hmax (length arr) 0 fuel arr)
    as (selection & Hs & Hlens & Hperms & Hss); try done; try lia.
  { intros a b ? ? ?. lia. }
  { intros a b ? ? ?. lia. }
  assert (exists insertion,
             Sorting.insertion_sort fuel arr (Z.of_nat (length arr)) = Done insertion
             /\ length insertion = length arr /\ insertion ≡ₚ arr
             /\ sorted_range insertion 0 (length arr))
    as (insertion & Hi & Hleni & Hpermi & Hsi).
  { destruct (decide (length arr = 0)%nat) as [Hnil|Hpos].
    - exists arr. destruct fuel as [|fuel]; [lia|]. rewrite Hnil.
      split; [done|]. split; [done|]. split; [done|]. intros a b ? ? ?. lia.
    - apply (insertion_outer_spec arr (length arr) Hmax (length arr - 1) 1 fuel arr);
        try done; try lia.
      intros a b ? ? ?. assert (a = b) as -> by lia. lia. }
  exists bubble, selection, insertion. repeat (split; [done|]).
  rewrite <- Hlenb in Hsb. rewrite <- Hlens in Hss. rewrite <- Hleni in Hsi.
  repeat constructor; try done; by apply sorted_range_Sorted.
Qed.

(** X9. The check of [main]: the array is copied from [original], sorted
    by any of the three sorts, and [is_sorted] on the result returns
    [true]; the result is a permutation of [original]. *)
Theorem sort_then_is_sorted (original arr : list Z) (fuel : nat) :
  length arr = length original ->
  Z.of_nat (length original) <= INT_MAX -> (2 * length original < fuel)%nat ->
  Sorting.copy_array fuel arr original (Z.of_nat (length original)) = Done original
  /\ exists bubble selection insertion,
      Sorting.bubble_sort fuel original (Z.of_nat (length original)) = Done bubble
      /\ Sorting.selection_sort fuel original (Z.of_nat (length original)) = Done selection
      /\ Sorting.insertion_sort fuel original (Z.of_nat (length original)) = Done insertion
      /\ Forall (fun r =>
                   Sorting.is_sorted fuel r (Z.of_nat (length original)) = Done true
                   /\ Permutation r original)
           [bubble; selection; insertion].
Proof.
  intros Hlen Hmax Hfuel. split.
  - rewrite copy_array_correct by lia.
    rewrite Nat2Z.id, firstn_all, <- Hlen, drop_all. by rewrite app_nil_r.
  - destruct (sorts_run_spec original fuel Hmax Hfuel)
      as (bubble & selection & insertion & Hb & Hs & Hi & Hall).
    exists bubble, selection, insertion. repeat (split; [done|]).
    eapply Forall_impl; [exact Hall|]. intros r (Hlenr & Hperm & Hsorted).
    split; [|done].
    destruct (is_sorted_correct r fuel) as (b & Hrun & Hb'); [lia|lia|].
    rewrite Hlenr in Hrun. rewrite Hrun. f_equal. by apply Hb'.
Qed.

Lemma sort_then_is_sorted_witness :
  length [0; 0; 0] = length [3; 1; 2]
  /\ Z.of_nat (length [3; 1; 2]) <= INT_MAX /\ (2 * length [3; 1; 2] < 7)%nat
  /\ Sorting.copy_array 7 [0; 0; 0] [3; 1; 2] (Z.of_nat (length [3; 1; 2]))
     = Done [3; 1; 2].
Proof.
  split; [reflexivity|]. split; [vm_compute; discriminate|]. split; [simpl; lia|].
  apply (sort_then_is_sorted [3; 1; 2] [0; 0; 0] 7).
  - reflexivity.
  - vm_compute; discriminate.
  - simpl; lia.
Defined.

(** ** ex02_linked_list.c: the other operations of the list *)

Lemma list_cells_allocated (h : gmap nat LinkedList.Node) :
  forall cells p l,
    LinkedList.list_cells h p cells -> l ∈ cells.*1 -> is_Some (h !! l).
Proof.
  induction cells as [|[l' v] rest IH]; intros p l H Hin; [by apply elem_of_nil in Hin|].
  destruct H as (-> & nx & Hl' & Hrest). rewrite fmap_cons in Hin.
  apply elem_of_cons in Hin as [->|Hin]; [by eexists|by apply (IH nx)].
Qed.

Lemma list_cells_fresh (h : gmap nat LinkedList.Node) cells p n :
  LinkedList.list_cells h p cells -> h !! n = None -> n ∉ cells.*1.
Proof.
  intros H Hn Hin. destruct (list_cells_allocated h cells p n H Hin) as [x Hx].
  congruence.
Qed.

(** X10. [insert_front] puts the value in front of the list; when the
    allocation fails it leaves the list and the heap as they are. *)
Theorem insert_front_correct (h : gmap nat LinkedList.Node) (head : option nat)
  (vs : list Z) (d : Z) (n : nat) :
  LinkedList.holds h head vs -> h !! n = None ->
  (exists h',
      LinkedList.insert_front h (Some n) head d = Done (h', Some n)
      /\ LinkedList.holds h' (Some n) (d :: vs))
  /\ LinkedList.insert_front h None head d = Done (h, head).
Proof.
  intros (cells & Hcells & <-) Hfresh. split; [|done].
  unfold LinkedList.insert_front, LinkedList.create_node, LinkedList.set_next.
  rewrite (deref_Done _ n _ (lookup_insert_eq _ _ _)).
  cbn [mbind outcome_bind LinkedList.data]. rewrite insert_insert_eq.
  eexists. split; [done|]. exists ((n, d) :: cells). split; [|done].
  split; [done|]. exists head. split; [by rewrite lookup_insert_eq|].
  apply list_cells_insert; [done|]. by apply (list_cells_fresh h cells head).
Qed.

Lemma insert_front_correct_witness :
  LinkedList.holds
    (<[1%nat := {| LinkedList.data := 10; LinkedList.next := None |}]> ∅)
    (Some 1%nat) [10]
  /\ (<[1%nat := {| LinkedList.data := 10; LinkedList.next := None |}]> ∅
      : gmap nat LinkedList.Node) !! 2%nat = None
  /\ LinkedList.insert_front
       (<[1%nat := {| LinkedList.data := 10; LinkedList.next := None |}]> ∅)
       None (Some 1%nat) 5
     = Done (<[1%nat := {| LinkedList.data := 10; LinkedList.next := None |}]> ∅,
             Some 1%nat).
Proof.
  assert (Hholds : LinkedList.holds
    (<[1%nat := {| LinkedList.data := 10; LinkedList.next := None |}]> ∅)
    (Some 1%nat) [10]).
  { exists [(1%nat, 10)]. split; [|reflexivity].
    split; [reflexivity|]. exists None. split; reflexivity. }
  split; [exact Hholds|]. split; [reflexivity|].
  apply (insert_front_correct _ _ _ 5 2%nat Hholds). reflexivity.
Defined.

Lemma insert_end_loop_spec (h : gmap nat LinkedList.Node) :
  forall (rest : list (nat * Z)) (fuel : nat) (cur : nat) (vcur : Z),
    LinkedList.list_cells h (Some cur) ((cur, vcur) :: rest) ->
    (length rest < fuel)%nat ->
    forall c vc pre, (cur, vcur) :: rest = pre ++ [(c, vc)] ->
      LinkedList.insert_end_loop fuel h cur = Done c.
Proof.
  induction rest as [|[t w] rest IH]; intros fuel cur vcur Hcells Hfuel c vc pre Heq;
    (destruct fuel as [|fuel]; [simpl in Hfuel; lia|]);
    destruct Hcells as (_ & nx & Hcur & Hrest);
    cbn [LinkedList.insert_end_loop]; rewrite (deref_Done _ _ _ Hcur);
    cbn [mbind outcome_bind LinkedList.next].
  - simpl in Hrest. subst nx. destruct pre as [|x [|y pre]]; simplify_eq/=. done.
  - pose proof Hrest as (-> & _).
    destruct pre as [|x pre]; simplify_eq/=.
    apply (IH fuel t w Hrest ltac:(lia) c vc pre). done.
Qed.

Lemma list_cells_snoc (h : gmap nat LinkedList.Node) c vc n d :
  forall pre p,
    LinkedList.list_cells h p (pre ++ [(c, vc)]) ->
    h !! n = Some {| LinkedList.data := d; LinkedList.next := None |} ->
    n ∉ (pre ++ [(c, vc)]).*1 ->
    LinkedList.list_cells
      (<[c := {| LinkedList.data := vc; LinkedList.next := Some n |}]> h)
      p (pre ++ [(c, vc); (n, d)]).
Proof.
  induction pre as [|[a va] pre IH]; intros p H Hn Hfresh;
    pose proof (list_cells_NoDup h _ _ H) as Hnd.
  - destruct H as (-> & nx & Hc & Hnx). simpl in Hfresh.
    apply not_elem_of_cons in Hfresh as [Hne _].
    split; [done|]. exists (Some n). split; [by rewrite lookup_insert_eq|].
    split; [done|]. exists None. split; [by rewrite lookup_insert_ne|done].
  - rewrite <- app_comm_cons, fmap_cons in Hnd, Hfresh.
    apply NoDup_cons in Hnd as [Ha _].
    apply not_elem_of_cons in Hfresh as [_ Hfresh].
    rewrite fmap_app in Ha. apply not_elem_of_app in Ha as [_ Ha].
    apply not_elem_of_cons in Ha as [Hac _]. simpl in Hac.
    destruct H as (-> & nx & Hha & Hrest).
    split; [done|]. exists nx. split; [by rewrite lookup_insert_ne|by apply IH].
Qed.

(** X11. [insert_end] puts the value behind the last element; on the empty
    list the new node becomes the head; when the allocation fails the list
    and the heap stay as they are. *)
Theorem insert_end_correct (h : gmap nat LinkedList.Node) (head : option nat)
  (vs : list Z) (d : Z) (n : nat) (fuel : nat) :
  LinkedList.holds h head vs -> h !! n = None -> (length vs < fuel)%nat ->
  (exists h' head',
      LinkedList.insert_end fuel h (Some n) head d = Done (h', head')
      /\ LinkedList.holds h' head' (vs ++ [d])
      /\ (vs = [] -> head' = Some n) /\ (vs <> [] -> head' = head))
  /\ LinkedList.insert_end fuel h None head d = Done (h, head).
Proof.
  intros (cells & Hcells & <-) Hfresh Hfuel. split; [|done].
  unfold LinkedList.insert_end, LinkedList.create_node.
  destruct cells as [|[l v] rest].
  { simpl in Hcells. subst head. eexists _, _. split; [done|]. split; [|done].
    exists [(n, d)]. split; [|done]. split; [done|]. exists None.
    split; [by rewrite lookup_insert_eq|done]. }
  pose proof (list_cells_fresh h _ _ n Hcells Hfresh) as Hn.
  pose proof Hcells as (-> & _).
  destruct (exists_last (l:=(l, v) :: rest)) as (pre & [c vc] & Hpre); [done|].
  assert (Hcells1 : LinkedList.list_cells
            (<[n := {| LinkedList.data := d; LinkedList.next := None |}]> h)
            (Some l) ((l, v) :: rest)) by (by apply list_cells_insert).
  rewrite (insert_end_loop_spec _ rest fuel l v Hcells1
             ltac:(rewrite length_fmap in Hfuel; simpl in Hfuel; lia) c vc pre Hpre).
  cbn [mbind outcome_bind]. unfold LinkedList.set_next.
  rewrite Hpre in Hcells1, Hn.
  rewrite (deref_Done _ c _ (list_cells_last _ c vc pre _ Hcells1)).
  cbn [mbind outcome_bind LinkedList.data].
  eexists _, _. split; [done|]. split; [|done].
  exists (pre ++ [(c, vc); (n, d)]). split.
  - apply list_cells_snoc; [done|by rewrite lookup_insert_eq|done].
  - rewrite Hpre. rewrite !fmap_app. simpl. by rewrite <- app_assoc.
Qed.

Lemma insert_end_correct_witness :
  LinkedList.holds
    (<[1%nat := {| LinkedList.data := 10; LinkedList.next := None |}]> ∅)
    (Some 1%nat) [10]
  /\ (<[1%nat := {| LinkedList.data := 10; LinkedList.next := None |}]> ∅
      : gmap nat LinkedList.Node) !! 2%nat = None
  /\ (length [10] < 2)%nat
  /\ LinkedList.insert_end 2
       (<[1%nat := {| LinkedList.data := 10; LinkedList.next := None |}]> ∅)
       None (Some 1%nat) 5
     = Done (<[1%nat := {| LinkedList.data := 10; LinkedList.next := None |}]> ∅,
             Some 1%nat).
Proof.
  assert (Hholds : LinkedList.holds
    (<[1%nat := {| LinkedList.data := 10; LinkedList.next := None |}]> ∅)
    (Some 1%nat) [10]).
  { exists [(1%nat, 10)]. split; [|reflexivity].
    split; [reflexivity|]. exists None. split; reflexivity. }
  split; [exact Hholds|]. split; [reflexivity|]. split; [simpl; lia|].
  apply (insert_end_correct _ _ _ 5 2%nat 2 Hholds); [reflexivity|simpl; lia].
Defined.

Lemma search_spec (h : gmap nat LinkedList.Node) (d : Z) :
  forall (cells : list (nat * Z)) (fuel : nat) (p : option nat),
    LinkedList.list_cells h p cells -> (length cells < fuel)%nat ->
    ((d ∉ cells.*2) /\ LinkedList.search fuel h p d = Done None)
    \/ (exists r1 t r2, cells = r1 ++ (t, d) :: r2 /\ (d ∉ r1.*2)
        /\ LinkedList.search fuel h p d = Done (Some t)).
Proof.
  induction cells as [|[l v] rest IH]; intros fuel p Hcells Hfuel;
    (destruct fuel as [|fuel]; [simpl in Hfuel; lia|]).
  - simpl in Hcells. subst p. left. split; [apply not_elem_of_nil|done].
  - destruct Hcells as (-> & nx & Hl & Hrest).
    cbn [LinkedList.search]. rewrite (deref_Done _ _ _ Hl).
    cbn [mbind outcome_bind LinkedList.data LinkedList.next].
    destruct (Z.eqb_spec v d) as [->|Hne].
    + right. exists [], l, rest. split; [done|]. split; [apply not_elem_of_nil|done].
    + destruct (IH fuel nx Hrest ltac:(simpl in Hfuel; lia))
        as [[Hnot Hs]|(r1 & t & r2 & -> & Hnot & Hs)].
      * left. split; [|done]. rewrite fmap_cons. by apply not_elem_of_cons.
      * right. exists ((l, v) :: r1), t, r2. split; [done|]. split; [|done].
        rewrite fmap_cons. by apply not_elem_of_cons.
Qed.

(** X12. [search] answers with the node of the first occurrence of the
    value: a node that holds the value and is followed by the rest of the
    list, no earlier element being equal to the value; it answers NULL
    exactly when the value is not in the list. *)
Theorem search_first_occurrence (h : gmap nat LinkedList.Node)
  (head : option nat) (vs : list Z) (d : Z) (fuel : nat) :
  LinkedList.holds h head vs -> (length vs < fuel)%nat ->
  exists r,
    LinkedList.search fuel h head d = Done r
    /\ (r = None <-> (d ∉ vs))
    /\ forall l, r = Some l ->
         exists pre post nx,
           vs = pre ++ d :: post /\ (d ∉ pre)
           /\ h !! l = Some {| LinkedList.data := d; LinkedList.next := nx |}
           /\ LinkedList.holds h nx post.
Proof.
  intros (cells & Hcells & <-) Hfuel. rewrite length_fmap in Hfuel.
  destruct (search_spec h d cells fuel head Hcells Hfuel)
    as [[Hnot Hs]|(r1 & t & r2 & -> & Hnot & Hs)].
  - exists None. split; [done|]. split; [done|]. intros l Hl. discriminate Hl.
  - exists (Some t). split; [done|]. split.
    + split; [done|]. intros Habs. exfalso. apply Habs.
      rewrite fmap_app, fmap_cons. apply elem_of_app. right. apply elem_of_cons. by left.
    + intros l [= <-].
      destruct (list_cells_app h r1 _ head Hcells) as (q & -> & nx & Ht & Hr2).
      exists r1.*2, r2.*2, nx. split; [by rewrite fmap_app, fmap_cons|].
      split; [done|]. split; [done|]. by exists r2.
Qed.

Lemma search_first_occurrence_witness :
  exists r,
    LinkedList.search 2
      (<[1%nat := {| LinkedList.data := 10; LinkedList.next := None |}]> ∅)
      (Some 1%nat) 10 = Done r
    /\ (r = None <-> (10 ∉ [10])).
Proof.
  assert (Hholds : LinkedList.holds
    (<[1%nat := {| LinkedList.data := 10; LinkedList.next := None |}]> ∅)
    (Some 1%nat) [10]).
  { exists [(1%nat, 10)]. split; [|reflexivity].
    split; [reflexivity|]. exists None. split; reflexivity. }
  destruct (search_first_occurrence _ _ _ 10 2 Hholds ltac:(simpl; lia))
    as (r & Hr & Hnone & _).
  exists r. split; [exact Hr|exact Hnone].
Defined.

Lemma get_length_loop_spec (h : gmap nat LinkedList.Node) :
  forall (cells : list (nat * Z)) (fuel : nat) (p : option nat) (count : Z),
    LinkedList.list_cells h p cells -> (length cells < fuel)%nat ->
    0 <= count -> count + Z.of_nat (length cells) <= SIZE_MAX ->
    LinkedList.get_length_loop fuel h p count
    = Done (count + Z.of_nat (length cells)).
Proof.
  induction cells as [|[l v] rest IH]; intros fuel p count Hcells Hfuel H0 Hmax;
    (destruct fuel as [|fuel]; [simpl in Hfuel; lia|]).
  - simpl in Hcells. subst p. simpl. by rewrite Z.add_0_r.
  - destruct Hcells as (-> & nx & Hl & Hrest).
    cbn [LinkedList.get_length_loop]. rewrite (deref_Done _ _ _ Hl).
    cbn [mbind outcome_bind LinkedList.next].
    cbn [length] in Hmax, Hfuel |- *.
    rewrite wrap_size_id by (unfold in_size; lia).
    rewrite (IH fuel nx (count + 1) Hrest) by lia. f_equal. lia.
Qed.

(** X13. [get_length] answers with the number of elements of the list. *)
Theorem get_length_correct (h : gmap nat LinkedList.Node) (head : option nat)
  (vs : list Z) (fuel : nat) :
  LinkedList.holds h head vs -> (length vs < fuel)%nat ->
  Z.of_nat (length vs) <= SIZE_MAX ->
  LinkedList.get_length fuel h head = Done (Z.of_nat (length vs)).
Proof.
  intros (cells & Hcells & <-) Hfuel Hmax. rewrite length_fmap in Hfuel, Hmax |- *.
  unfold LinkedList.get_length.
  by rewrite (get_length_loop_spec h cells fuel head 0 Hcells Hfuel) by lia.
Qed.

Lemma get_length_correct_witness :
  LinkedList.get_length 2
    (<[1%nat := {| LinkedList.data := 10; LinkedList.next := None |}]> ∅)
    (Some 1%nat) = Done 1.
Proof.
  assert (Hholds : LinkedList.holds
    (<[1%nat := {| LinkedList.data := 10; LinkedList.next := None |}]> ∅)
    (Some 1%nat) [10]).
  { exists [(1%nat, 10)]. split; [|reflexivity].
    split; [reflexivity|]. exists None. split; reflexivity. }
  apply (get_length_correct _ _ [10] 2 Hholds); [simpl; lia|].
  unfold SIZE_MAX. simpl. lia.
Defined.

Lemma free_list_loop_spec :
  forall (cells : list (nat * Z)) (fuel : nat) (h : gmap nat LinkedList.Node)
         (p : option nat),
    LinkedList.list_cells h p cells -> (length cells < fuel)%nat ->
    exists h',
      LinkedList.free_list_loop fuel h p = Done h'
      /\ (forall l, l ∈ cells.*1 -> h' !! l = None)
      /\ (forall l, l ∉ cells.*1 -> h' !! l = h !! l).
Proof.
  induction cells as [|[c v] rest IH]; intros fuel h p Hcells Hfuel;
    (destruct fuel as [|fuel]; [simpl in Hfuel; lia|]).
  - simpl in Hcells. subst p. exists h. split; [done|]. split; [|done].
    intros l Hl. by apply elem_of_nil in Hl.
  - pose proof (list_cells_NoDup h _ _ Hcells) as Hnd.
    rewrite fmap_cons in Hnd. apply NoDup_cons in Hnd as [Hc _].
    destruct Hcells as (-> & nx & Hl & Hrest).
    cbn [LinkedList.free_list_loop]. rewrite (deref_Done _ _ _ Hl).
    cbn [mbind outcome_bind LinkedList.next].
    destruct (IH fuel (base.delete c h) nx
                (list_cells_delete h c rest nx Hrest Hc)
                ltac:(simpl in Hfuel; lia)) as (h' & Hrun & Hin & Hout).
    exists h'. split; [done|]. split.
    + intros l Hmem. rewrite fmap_cons in Hmem.
      apply elem_of_cons in Hmem as [->|Hmem].
      * rewrite Hout by done. apply lookup_delete_eq.
      * by apply Hin.
    + intros l Hmem. rewrite fmap_cons in Hmem.
      apply not_elem_of_cons in Hmem as [Hne Hmem].
      rewrite Hout by done. by apply lookup_delete_ne.
Qed.

(** X14. [free_list] frees exactly the nodes of the list, every one of
    them, leaves the other cells of the heap as they are, and sets the
    head to NULL. *)
Theorem free_list_frees_the_list (h : gmap nat LinkedList.Node)
  (head : option nat) (cells : list (nat * Z)) (fuel : nat) :
  LinkedList.list_cells h head cells -> (length cells < fuel)%nat ->
  exists h',
    LinkedList.free_list fuel h head = Done (h', None)
    /\ (forall l, l ∈ cells.*1 -> h' !! l = None)
    /\ (forall l, l ∉ cells.*1 -> h' !! l = h !! l)
    /\ LinkedList.holds h' None [].
Proof.
  intros Hcells Hfuel.
  destruct (free_list_loop_spec cells fuel h head Hcells Hfuel)
    as (h' & Hrun & Hin & Hout).
  exists h'. unfold LinkedList.free_list. rewrite Hrun. split; [done|].
  split; [done|]. split; [done|]. by exists [].
Qed.

Lemma free_list_frees_the_list_witness :
  exists h',
    LinkedList.free_list 2
      (<[1%nat := {| LinkedList.data := 10; LinkedList.next := None |}]> ∅)
      (Some 1%nat) = Done (h', None)
    /\ h' !! 1%nat = None.
Proof.
  assert (Hcells : LinkedList.list_cells
    (<[1%nat := {| LinkedList.data := 10; LinkedList.next := None |}]> ∅)
    (Some 1%nat) [(1%nat, 10)]).
  { split; [reflexivity|]. exists None. split; reflexivity. }
  destruct (free_list_frees_the_list _ _ _ 2 Hcells ltac:(simpl; lia))
    as (h' & Hrun & Hin & _).
  exists h'. split; [exact Hrun|]. apply Hin. simpl. apply elem_of_cons. by left.
Defined.

Lemma insert_after_loop_spec (h : gmap nat LinkedList.Node) (target : Z) :
  forall (cells : list (nat * Z)) (fuel : nat) (p : option nat),
    LinkedList.list_cells h p cells -> (length cells < fuel)%nat ->
    ((target ∉ cells.*2) /\ LinkedList.insert_after_loop fuel h p target = Done None)
    \/ (exists r1 t r2, cells = r1 ++ (t, target) :: r2 /\ (target ∉ r1.*2)
        /\ LinkedList.insert_after_loop fuel h p target = Done (Some t)).
Proof.
  induction cells as [|[l v] rest IH]; intros fuel p Hcells Hfuel;
    (destruct fuel as [|fuel]; [simpl in Hfuel; lia|]).
  - simpl in Hcells. subst p. left. split; [apply not_elem_of_nil|done].
  - destruct Hcells as (-> & nx & Hl & Hrest).
    cbn [LinkedList.insert_after_loop]. rewrite (deref_Done _ _ _ Hl).
    cbn [mbind outcome_bind LinkedList.data LinkedList.next].
    destruct (Z.eqb_spec v target) as [->|Hne]; cbn [negb].
    + right. exists [], l, rest. split; [done|]. split; [apply not_elem_of_nil|done].
    + destruct (IH fuel nx Hrest ltac:(simpl in Hfuel; lia))
        as [[Hnot Hs]|(r1 & t & r2 & -> & Hnot & Hs)].
      * left. split; [|done]. rewrite fmap_cons. by apply not_elem_of_cons.
      * right. exists ((l, v) :: r1), t, r2. split; [done|]. split; [|done].
        rewrite fmap_cons. by apply not_elem_of_cons.
Qed.

Lemma list_cells_link (h : gmap nat LinkedList.Node) c vc n d r2 :
  forall pre p,
    LinkedList.list_cells h p (pre ++ (c, vc) :: r2) ->
    n ∉ (pre ++ (c, vc) :: r2).*1 ->
    exists nxt,
      h !! c = Some {| LinkedList.data := vc; LinkedList.next := nxt |}
      /\ LinkedList.list_cells
           (<[c := {| LinkedList.data := vc; LinkedList.next := Some n |}]>
              (<[n := {| LinkedList.data := d; LinkedList.next := nxt |}]> h))
           p (pre ++ (c, vc) :: (n, d) :: r2).
Proof.
  induction pre as [|[a va] pre IH]; intros p H Hfresh;
    pose proof (list_cells_NoDup h _ _ H) as Hnd.
  - simpl in Hnd, Hfresh. apply NoDup_cons in Hnd as [Hc _].
    apply not_elem_of_cons in Hfresh as [Hne Hn].
    destruct H as (-> & nx & Hhc & Hr2). exists nx. split; [done|].
    split; [done|]. exists (Some n). split; [by rewrite lookup_insert_eq|].
    split; [done|]. exists nx.
    split; [by rewrite lookup_insert_ne, lookup_insert_eq by done|].
    by apply list_cells_insert; [apply list_cells_insert|].
  - rewrite <- app_comm_cons, fmap_cons in Hnd, Hfresh.
    apply NoDup_cons in Hnd as [Ha _].
    apply not_elem_of_cons in Hfresh as [Hna Hfresh].
    rewrite fmap_app in Ha. apply not_elem_of_app in Ha as [_ Ha].
    rewrite fmap_cons in Ha. apply not_elem_of_cons in Ha as [Hac _]. simpl in Hac.
    destruct H as (-> & nx & Hha & Hrest).
    destruct (IH nx Hrest Hfresh) as (nxt & Hhc & Hlist).
    exists nxt. split; [done|]. split; [done|]. exists nx.
    split; [by rewrite !lookup_insert_ne by done|done].
Qed.

(** X15. [insert_after] puts the new value right behind the first
    occurrence of the target and answers true; it answers false and leaves
    the heap as it is when the target is not in the list or when the
    allocation fails. *)
Theorem insert_after_correct (h : gmap nat LinkedList.Node) (head : option nat)
  (vs : list Z) (target d : Z) (n : nat) (fuel : nat) :
  LinkedList.holds h head vs -> h !! n = None -> (length vs < fuel)%nat ->
  (target ∉ vs ->
     forall malloc,
       LinkedList.insert_after fuel h malloc head target d = Done (false, h))
  /\ LinkedList.insert_after fuel h None head target d = Done (false, h)
  /\ (forall pre post, vs = pre ++ target :: post -> target ∉ pre ->
        exists h',
          LinkedList.insert_after fuel h (Some n) head target d = Done (true, h')
          /\ LinkedList.holds h' head (pre ++ target :: d :: post)).
Proof.
  intros (cells & Hcells & <-) Hfresh Hfuel. rewrite length_fmap in Hfuel.
  unfold LinkedList.insert_after.
  destruct (insert_after_loop_spec h target cells fuel head Hcells Hfuel)
    as [[Hnot Hs]|(r1 & t & r2 & -> & Hnot & Hs)]; rewrite Hs;
    cbn [mbind outcome_bind].
  { split; [done|]. split; [done|]. intros pre post Hvs Hpre. exfalso.
    apply Hnot. rewrite Hvs. apply elem_of_app. right. apply elem_of_cons. by left. }
  split.
  { intros Habs. exfalso. apply Habs. rewrite fmap_app, fmap_cons.
    apply elem_of_app. right. apply elem_of_cons. by left. }
  split; [done|]. intros pre post Hvs Hpre.
  pose proof (list_cells_fresh h _ _ n Hcells Hfresh) as Hn.
  destruct (list_cells_link h t target n d r2 r1 head Hcells Hn)
    as (nxt & Hht & Hlist).
  assert (Hne : n <> t) by (intros ->; congruence).
  unfold LinkedList.create_node, LinkedList.set_next.
  rewrite (deref_Done _ t _ ltac:(by rewrite lookup_insert_ne by done)).
  cbn [mbind outcome_bind LinkedList.next].
  rewrite (deref_Done _ n _ (lookup_insert_eq _ _ _)).
  cbn [mbind outcome_bind LinkedList.data]. rewrite insert_insert_eq.
  rewrite (deref_Done _ t _ ltac:(by rewrite lookup_insert_ne by done)).
  cbn [mbind outcome_bind LinkedList.data].
  eexists. split; [done|]. eexists. split; [exact Hlist|].
  rewrite !fmap_app, !fmap_cons in Hvs |- *. cbn [snd] in Hvs |- *.
  assert (Hlen : r1.*2 = pre /\ r2.*2 = post).
  { clear -Hvs Hnot Hpre. revert pre Hvs Hpre.
    induction (r1.*2) as [|x xs IH]; intros [|y ys] Hvs Hpre; simplify_eq/=.
    - done.
    - exfalso. apply Hpre. apply elem_of_cons. by left.
    - exfalso. apply Hnot. apply elem_of_cons. by left.
    - apply not_elem_of_cons in Hnot as [_ Hnot].
      apply not_elem_of_cons in Hpre as [_ Hpre].
      destruct (IH Hnot ys) as [-> ->]; done. }
  destruct Hlen as [H1 H2]. by rewrite fmap_cons, <- H1, <- H2.
Qed.

Lemma insert_after_correct_witness :
  LinkedList.insert_after 2
    (<[1%nat := {| LinkedList.data := 10; LinkedList.next := None |}]> ∅)
    None (Some 1%nat) 10 5
  = Done (false, <[1%nat := {| LinkedList.data := 10; LinkedList.next := None |}]> ∅).
Proof.
  assert (Hholds : LinkedList.holds
    (<[1%nat := {| LinkedList.data := 10; LinkedList.next := None |}]> ∅)
    (Some 1%nat) [10]).
  { exists [(1%nat, 10)]. split; [|reflexivity].
    split; [reflexivity|]. exists None. split; reflexivity. }
  apply (insert_after_correct _ _ _ 10 5 2%nat 2 Hholds); [reflexivity|simpl; lia].
Defined.

(** X16. Deleting a value right after [insert_front] put it in front gives
    back the heap and the head of before, with nothing left allocated. *)
Theorem insert_front_delete_node_round_trip (h : gmap nat LinkedList.Node)
  (head : option nat) (d : Z) (n : nat) (fuel : nat) :
  h !! n = None ->
  exists h',
    LinkedList.insert_front h (Some n) head d = Done (h', Some n)
    /\ LinkedList.delete_node fuel h' (Some n) d = Done (true, h, head).
Proof.
  intros Hfresh.
  unfold LinkedList.insert_front, LinkedList.create_node, LinkedList.set_next.
  rewrite (deref_Done _ n _ (lookup_insert_eq _ _ _)).
  cbn [mbind outcome_bind LinkedList.data]. rewrite insert_insert_eq.
  eexists. split; [done|]. unfold LinkedList.delete_node.
  rewrite (deref_Done _ n _ (lookup_insert_eq _ _ _)).
  cbn [mbind outcome_bind LinkedList.data LinkedList.next].
  rewrite Z.eqb_refl. by rewrite delete_insert_id.
Qed.

Lemma insert_front_delete_node_round_trip_witness :
  exists h',
    LinkedList.insert_front
      (<[1%nat := {| LinkedList.data := 10; LinkedList.next := None |}]> ∅)
      (Some 2%nat) (Some 1%nat) 5 = Done (h', Some 2%nat)
    /\ LinkedList.delete_node 1 h' (Some 2%nat) 5
       = Done (true,
               <[1%nat := {| LinkedList.data := 10; LinkedList.next := None |}]> ∅,
               Some 1%nat).
Proof.
  apply (insert_front_delete_node_round_trip _ (Some 1%nat) 5 2%nat 1). reflexivity.
Defined.

(** ** ex01_dynamic_array.c: the elements an operation leaves *)

Lemma length_elements (a : DynamicArray.DynamicArray) :
  length (DynamicArray.elements a) = Z.to_nat (DynamicArray.size a).
Proof. unfold DynamicArray.elements. by rewrite length_map, length_seq. Qed.

Lemma elements_lookup (a : DynamicArray.DynamicArray) (k : nat) :
  (k < Z.to_nat (DynamicArray.size a))%nat ->
  DynamicArray.elements a !! k = Some (DynamicArray.data a (Z.of_nat k)).
Proof.
  intros Hk. unfold DynamicArray.elements.
  change (map ?f ?l) with (f <$> l).
  by rewrite list_lookup_fmap, lookup_seq_lt.
Qed.

Lemma elements_eq (a : DynamicArray.DynamicArray) (l : list Z) :
  length l = Z.to_nat (DynamicArray.size a) ->
  (forall k, (k < length l)%nat -> l !! k = Some (DynamicArray.data a (Z.of_nat k))) ->
  DynamicArray.elements a = l.
Proof.
  intros Hlen Hl.
  apply (list_eq_same_length _ _ (length l)); [done|by rewrite length_elements|].
  intros i x y Hi Hx Hy. rewrite elements_lookup in Hx by lia.
  rewrite Hl in Hy by done. congruence.
Qed.

Lemma poke_eq (mem : Z -> Z) (i v : Z) : DynamicArray.poke mem i v i = v.
Proof. unfold DynamicArray.poke. by rewrite Z.eqb_refl. Qed.

Lemma poke_ne (mem : Z -> Z) (i v k : Z) : k <> i -> DynamicArray.poke mem i v k = mem k.
Proof. unfold DynamicArray.poke. intros H. by destruct (Z.eqb_spec k i). Qed.

(** What the doubling step of [append] and [insert] gives when it
    succeeds: the same cells and size. *)
Lemma grow_success (ok : bool) (a : DynamicArray.DynamicArray) :
  DynamicArray.size a < DynamicArray.capacity a
  \/ (ok = true /\ DynamicArray.size a <= wrap_size (DynamicArray.capacity a * 2)) ->
  exists a1,
    (if DynamicArray.size a >=? DynamicArray.capacity a
     then DynamicArray.resize_array ok (Some a) (wrap_size (DynamicArray.capacity a * 2))
     else (true, Some a)) = (true, Some a1)
    /\ DynamicArray.data a1 = DynamicArray.data a
    /\ DynamicArray.size a1 = DynamicArray.size a
    /\ DynamicArray.capacity a1
       = if DynamicArray.size a >=? DynamicArray.capacity a
         then wrap_size (DynamicArray.capacity a * 2) else DynamicArray.capacity a.
Proof.
  intros H. destruct (Z.geb_spec (DynamicArray.size a) (DynamicArray.capacity a)) as [Hge|Hlt].
  - destruct H as [H|[-> H]]; [lia|]. unfold DynamicArray.resize_array.
    destruct (Z.ltb_spec (wrap_size (DynamicArray.capacity a * 2)) (DynamicArray.size a));
      [lia|]. simpl. eexists. split; [done|]. done.
  - exists a. done.
Qed.

Lemma append_success (ok : bool) (a : DynamicArray.DynamicArray) (v : Z) :
  0 <= DynamicArray.size a < SIZE_MAX ->
  DynamicArray.size a < DynamicArray.capacity a
  \/ (ok = true /\ DynamicArray.size a <= wrap_size (DynamicArray.capacity a * 2)) ->
  exists a',
    DynamicArray.append ok (Some a) v = (true, Some a')
    /\ DynamicArray.elements a' = DynamicArray.elements a ++ [v]
    /\ DynamicArray.size a' = DynamicArray.size a + 1
    /\ DynamicArray.capacity a'
       = if DynamicArray.size a >=? DynamicArray.capacity a
         then wrap_size (DynamicArray.capacity a * 2) else DynamicArray.capacity a.
Proof.
  intros Hsize Hroom. unfold DynamicArray.append.
  destruct (grow_success ok a Hroom) as (a1 & -> & Hdata & Hsz & Hcap).
  eexists. split; [done|]. cbn [DynamicArray.size DynamicArray.capacity DynamicArray.data].
  rewrite Hsz, Hdata. rewrite wrap_size_id by (unfold in_size; lia).
  split; [|done].
  apply elements_eq; cbn [DynamicArray.size DynamicArray.data].
  - rewrite length_app, length_elements. simpl. lia.
  - intros k Hk. rewrite length_app, length_elements in Hk. simpl in Hk.
    destruct (decide (k < Z.to_nat (DynamicArray.size a))%nat) as [Hlt|Hge].
    + rewrite lookup_app_l by (rewrite length_elements; lia).
      rewrite elements_lookup by done. by rewrite poke_ne by lia.
    + assert (k = Z.to_nat (DynamicArray.size a)) as -> by lia.
      rewrite list_lookup_middle by (by rewrite length_elements).
      rewrite Z2Nat.id by lia. by rewrite poke_eq.
Qed.



(** X18. When the array is full and the reallocation to twice the
    capacity fails, [append] and [insert] answer false and leave the array
    as it was.  The capacity is positive and the doubled block does not
    wrap, so that the request is for more than 0 bytes: a failing
    [realloc] then leaves the old block alone. *)
Theorem failed_realloc_leaves_array (a : DynamicArray.DynamicArray)
  (index v : Z) (fuel : nat) :
  0 < DynamicArray.capacity a ->
  2 * DynamicArray.capacity a * DynamicArray.sizeof_int <= SIZE_MAX ->
  DynamicArray.capacity a <= DynamicArray.size a ->
  0 < wrap_size (wrap_size (DynamicArray.capacity a * 2) * DynamicArray.sizeof_int)
  /\ DynamicArray.append false (Some a) v = (false, Some a)
  /\ DynamicArray.insert fuel false (Some a) index v = Done (false, Some a).
Proof.
  intros Hpos Hbytes Hfull. unfold DynamicArray.sizeof_int in *. split.
  - rewrite (wrap_size_id (DynamicArray.capacity a * 2)) by int_range.
    rewrite wrap_size_id by int_range. lia.
  - unfold DynamicArray.append, DynamicArray.insert.
    destruct (Z.geb_spec (DynamicArray.size a) (DynamicArray.capacity a)); [|lia].
    unfold DynamicArray.resize_array, DynamicArray.realloc.
    destruct (wrap_size (DynamicArray.capacity a * 2) <? DynamicArray.size a);
      (split; [done|]); by destruct (index >? DynamicArray.size a).
Qed.

Lemma failed_realloc_leaves_array_witness :
  DynamicArray.append false
    (Some {| DynamicArray.data := fun _ => 0; DynamicArray.size := 2;
             DynamicArray.capacity := 2 |}) 7
  = (false, Some {| DynamicArray.data := fun _ => 0; DynamicArray.size := 2;
                    DynamicArray.capacity := 2 |}).
Proof.
  apply (failed_realloc_leaves_array
           {| DynamicArray.data := fun _ => 0; DynamicArray.size := 2;
              DynamicArray.capacity := 2 |} 0 7 0).
  - simpl. lia.
  - vm_compute. discriminate.
  - simpl. lia.
Defined.







Lemma get_lookup (a : DynamicArray.DynamicArray) (index w : Z) :
  0 <= index < DynamicArray.size a ->
  DynamicArray.get (Some a) index (Some w)
  = (true, DynamicArray.elements a !! Z.to_nat index).
Proof.
  intros H. unfold DynamicArray.get.
  destruct (Z.geb_spec index (DynamicArray.size a)); [lia|].
  rewrite elements_lookup by lia. by rewrite Z2Nat.id by lia.
Qed.

Lemma append_all_spec (fuel : nat) (cap0 : Z) :
  forall (vs : list Z) (a : DynamicArray.DynamicArray),
    0 < DynamicArray.capacity a ->
    0 <= DynamicArray.size a <= DynamicArray.capacity a ->
    DynamicArray.capacity a <= Z.max cap0 (2 * DynamicArray.size a) ->
    cap0 <= SIZE_MAX ->
    2 * (DynamicArray.size a + Z.of_nat (length vs)) <= SIZE_MAX ->
    exists a',
      DynamicArray.perform_all fuel (map (DynamicArray.Append true) vs) (Some a)
      = Done (Some (Some a'))
      /\ DynamicArray.elements a' = DynamicArray.elements a ++ vs
      /\ DynamicArray.size a' = DynamicArray.size a + Z.of_nat (length vs)
      /\ DynamicArray.size a' <= DynamicArray.capacity a'
      /\ DynamicArray.capacity a' <= Z.max cap0 (2 * DynamicArray.size a').
Proof.
  induction vs as [|v vs IH]; intros a Hcap Hsize Hbound Hcap0 Hmax.
  - exists a. cbn [map DynamicArray.perform_all length].
    split; [done|]. rewrite app_nil_r. split; [done|]. repeat split; lia.
  - cbn [length] in Hmax. cbn [map DynamicArray.perform_all DynamicArray.perform].
    cbn [mbind outcome_bind].
    assert (Hdbl : DynamicArray.capacity a <= DynamicArray.size a ->
                   wrap_size (DynamicArray.capacity a * 2) = DynamicArray.capacity a * 2).
    { intros Hfull. apply wrap_size_id. unfold in_size. lia. }
    destruct (append_success true a v) as (a1 & -> & Hel & Hsz & Hc).
    { unfold SIZE_MAX in *. lia. }
    { destruct (Z.lt_ge_cases (DynamicArray.size a) (DynamicArray.capacity a));
        [by left|right]. split; [done|]. rewrite Hdbl by lia. lia. }
    assert (Hc' : (DynamicArray.size a < DynamicArray.capacity a
                   /\ DynamicArray.capacity a1 = DynamicArray.capacity a)
                  \/ (DynamicArray.capacity a <= DynamicArray.size a
                      /\ DynamicArray.capacity a1 = DynamicArray.capacity a * 2)).
    { rewrite Hc. destruct (Z.geb_spec (DynamicArray.size a) (DynamicArray.capacity a));
        [right|by left]. split; [lia|]. apply Hdbl. lia. }
    destruct (IH a1) as (a' & -> & Hel' & Hsz' & Hle & Hbound'); try lia.
    exists a'. split; [done|]. rewrite Hel', Hel, <- app_assoc.
    split; [done|]. cbn [length]. repeat split; lia.
Qed.

(** X21. Appending a sequence of values to a freshly created array of
    positive capacity succeeds at every step when the allocator does, and
    leaves exactly these values, in their order: [get] reads each of them
    back at its index, and the size stays within the capacity.  The
    initial capacity and twice the number of values, counted in bytes, fit
    a [size_t]: no block the code asks for has its byte count wrapped,
    the last and largest included, so the cells written are cells of the
    block. *)
Theorem create_append_get (fuel : nat) (contents : Z -> Z) (cap : Z) (vs : list Z) :
  0 < cap -> cap * DynamicArray.sizeof_int <= SIZE_MAX ->
  2 * Z.of_nat (length vs) * DynamicArray.sizeof_int <= SIZE_MAX ->
  exists a,
    DynamicArray.perform_all fuel (map (DynamicArray.Append true) vs)
      (DynamicArray.create_array true true contents cap) = Done (Some (Some a))
    /\ DynamicArray.elements a = vs
    /\ DynamicArray.size a = Z.of_nat (length vs)
    /\ DynamicArray.size a <= DynamicArray.capacity a
    /\ 0 < wrap_size (cap * DynamicArray.sizeof_int)
    /\ DynamicArray.capacity a * DynamicArray.sizeof_int <= SIZE_MAX
    /\ forall (i : nat) (v w : Z),
         vs !! i = Some v ->
         DynamicArray.get (Some a) (Z.of_nat i) (Some w) = (true, Some v).
Proof.
  unfold DynamicArray.sizeof_int. intros Hcap Hbytes Hlen.
  unfold DynamicArray.create_array, DynamicArray.malloc. cbn [negb].
  destruct (append_all_spec fuel cap vs
              {| DynamicArray.data := contents; DynamicArray.size := 0;
                 DynamicArray.capacity := cap |})
    as (a & Hrun & Hel & Hsz & Hle & Hbound);
    cbn [DynamicArray.size DynamicArray.capacity]; try lia.
  cbn [DynamicArray.size] in Hsz. exists a. split; [done|].
  assert (Hvs : DynamicArray.elements a = vs) by (by rewrite Hel).
  split; [done|]. split; [lia|]. split; [done|].
  split; [rewrite wrap_size_id by int_range; lia|]. split; [lia|].
  intros i v w Hi. pose proof (lookup_lt_Some _ _ _ Hi) as Hlt.
  rewrite get_lookup by lia. by rewrite Nat2Z.id, Hvs, Hi.
Qed.

Lemma create_append_get_witness :
  exists a,
    DynamicArray.perform_all 0
      (map (DynamicArray.Append true) [5; 6; 7])
      (DynamicArray.create_array true true (fun _ => 0) 2) = Done (Some (Some a))
    /\ DynamicArray.elements a = [5; 6; 7].
Proof.
  destruct (create_append_get 0 (fun _ => 0) 2 [5; 6; 7])
    as (a & Hrun & Hel & _).
  - lia.
  - vm_compute. discriminate.
  - vm_compute. discriminate.
  - exists a. split; [exact Hrun|exact Hel].
Defined.

(** ** ex03_file_copy.c: what is copied, and what the verification says *)

Lemma copy_chunks_result (fuel : nat) (env : FileCopy.environment) :
  forall (k : nat) (source dest d : list Z),
    FileCopy.copy_chunks fuel env k source dest = Done (true, d) ->
    d = dest ++ source.
Proof.
  induction fuel as [|fuel IH]; intros k source dest d H; [discriminate H|].
  cbn [FileCopy.copy_chunks] in H.
  destruct (Nat.ltb_spec 0 (length (take (Z.to_nat FileCopy.BUFFER_SIZE) source)))
    as [Hpos|Hzero].
  - destruct (FileCopy.fwrite_short env k); [discriminate H|].
    apply IH in H. by rewrite H, <- app_assoc, take_drop.
  - injection H as <-. destruct source; [by rewrite app_nil_r|].
    unfold FileCopy.BUFFER_SIZE in Hzero. simpl in Hzero. lia.
Qed.

Lemma copy_chunks_complete (env : FileCopy.environment) :
  (forall k, FileCopy.fwrite_short env k = false) ->
  forall (fuel k : nat) (source dest : list Z),
    (length source < fuel)%nat ->
    FileCopy.copy_chunks fuel env k source dest = Done (true, dest ++ source).
Proof.
  intros Hwrite. induction fuel as [|fuel IH]; intros k source dest Hfuel; [lia|].
  cbn [FileCopy.copy_chunks].
  destruct (Nat.ltb_spec 0 (length (take (Z.to_nat FileCopy.BUFFER_SIZE) source)))
    as [Hpos|Hzero].
  - rewrite Hwrite. rewrite IH.
    + by rewrite <- app_assoc, take_drop.
    + rewrite length_drop. rewrite length_take in Hpos.
      unfold FileCopy.BUFFER_SIZE in *. lia.
  - destruct source; [by rewrite app_nil_r|].
    unfold FileCopy.BUFFER_SIZE in Hzero. simpl in Hzero. lia.
Qed.

Lemma copy_file_0 (fuel : nat) (env : FileCopy.environment)
  (dest : option (list Z)) :
  FileCopy.copy_file fuel env = Done (0, dest) ->
  exists source, FileCopy.fopen_source env = Some source /\ dest = Some source.
Proof.
  unfold FileCopy.copy_file, FileCopy.get_file_size. intros H.
  destruct (FileCopy.malloc_buffer env); cbn [negb] in H; [|discriminate H].
  destruct (FileCopy.fopen_source env) as [source|]; [|discriminate H].
  destruct (_ <? 0); [discriminate H|].
  destruct (FileCopy.fopen_dest env); cbn [negb] in H; [|discriminate H].
  destruct (FileCopy.copy_chunks fuel env 0 source []) as [[complete d]| |] eqn:Hc;
    cbn [mbind outcome_bind] in H; try discriminate H.
  destruct complete; cbn [negb] in H; [|discriminate H].
  destruct (FileCopy.ferror_source env); [discriminate H|].
  injection H as <-. apply copy_chunks_result in Hc. subst d.
  by exists source.
Qed.

Lemma copy_file_cleanup_0 (fuel : nat) (env : FileCopy.environment)
  (fclose_dest file : option (list Z)) :
  FileCopy.copy_file_cleanup fuel env fclose_dest = Done (0, file) ->
  exists source,
    FileCopy.fopen_source env = Some source
    /\ FileCopy.copy_file fuel env = Done (0, Some source)
    /\ file = Some match fclose_dest with None => source | Some remains => remains end.
Proof.
  unfold FileCopy.copy_file_cleanup. intros H.
  destruct (FileCopy.copy_file fuel env) as [[result dest]| |] eqn:Hrun;
    cbn [mbind outcome_bind] in H; try discriminate H.
  assert (result = 0) as ->.
  { by destruct dest as [stream|]; cbn in H;
      [destruct (FileCopy.fclose fclose_dest stream)|]; injection H. }
  destruct (copy_file_0 fuel env dest Hrun) as (source & Hsource & ->).
  exists source. split; [done|]. split; [done|].
  by destruct fclose_dest; cbn in H; injection H.
Qed.

(** X22. When [copy_file] returns 0, [fwrite] has taken exactly the bytes of
    the source file, and the destination file holds them when the closing
    [fclose] succeeds.  The result of that [fclose] is dropped: when it
    fails, [copy_file] returns 0 all the same and the file holds what the
    failed call left.  [copy_file] does return 0 when the buffer is
    allocated, both files open, the size is known, every [fwrite] is
    complete and the reading ends without an error. *)
Theorem copy_file_copies (fuel : nat) (env : FileCopy.environment)
  (fclose_dest : option (list Z)) :
  (forall file,
     FileCopy.copy_file_cleanup fuel env fclose_dest = Done (0, file) ->
     exists source,
       FileCopy.fopen_source env = Some source
       /\ FileCopy.copy_file fuel env = Done (0, Some source)
       /\ file = Some match fclose_dest with
                      | None => source
                      | Some remains => remains
                      end)
  /\ (forall source,
        FileCopy.malloc_buffer env = true ->
        FileCopy.fopen_source env = Some source ->
        0 <= FileCopy.ftell_source env ->
        FileCopy.fopen_dest env = true ->
        (forall k, FileCopy.fwrite_short env k = false) ->
        FileCopy.ferror_source env = false ->
        (length source < fuel)%nat ->
        FileCopy.copy_file_cleanup fuel env fclose_dest
        = Done (0, Some match fclose_dest with
                        | None => source
                        | Some remains => remains
                        end)).
Proof.
  split; [intros file; apply copy_file_cleanup_0|].
  unfold FileCopy.copy_file_cleanup, FileCopy.copy_file, FileCopy.get_file_size.
  intros source -> -> Hsize -> Hwrite -> Hfuel. cbn [negb].
  destruct (Z.ltb_spec (FileCopy.ftell_source env) 0); [lia|].
  rewrite (copy_chunks_complete env Hwrite fuel 0%nat source []) by done.
  cbn [mbind outcome_bind negb app]. by destruct fclose_dest.
Qed.

Lemma compare_bytes_spec :
  forall (f1 f2 : list Z) (fuel : nat),
    Forall (fun b => 0 <= b <= 255) f1 -> length f1 = length f2 ->
    (length f1 < fuel)%nat ->
    FileCopy.compare_bytes fuel f1 f2 = Done (bool_decide (f1 = f2)).
Proof.
  induction f1 as [|b1 f1 IH]; intros f2 fuel Hbytes Hlen Hfuel;
    (destruct fuel as [|fuel]; [simpl in Hfuel; lia|]).
  - destruct f2; [|discriminate Hlen]. done.
  - destruct f2 as [|b2 f2]; [discriminate Hlen|].
    apply Forall_cons in Hbytes as [Hb1 Hbytes]. injection Hlen as Hlen.
    cbn [FileCopy.compare_bytes FileCopy.fgetc]. unfold FileCopy.EOF.
    destruct (Z.eqb_spec b1 (-1)); [lia|]. cbn [negb].
    destruct (Z.eqb_spec b1 b2) as [->|Hne]; cbn [negb].
    + rewrite (IH f2 fuel Hbytes Hlen) by (simpl in Hfuel; lia).
      f_equal. apply bool_decide_ext. split; [by intros ->|by intros [= ->]].
    + f_equal. symmetry. apply bool_decide_eq_false. by intros [= ? ?].
Qed.

Lemma verify_copy_spec (fuel : nat) (f1 f2 : list Z) :
  Forall (fun b => 0 <= b <= 255) f1 -> (length f1 < fuel)%nat ->
  FileCopy.verify_copy fuel (Some f1) (Some f2)
    (Z.of_nat (length f1)) (Z.of_nat (length f2))
  = Done (bool_decide (f1 = f2)).
Proof.
  intros Hbytes Hfuel. unfold FileCopy.verify_copy, FileCopy.get_file_size.
  destruct (Z.eqb_spec (Z.of_nat (length f1)) (Z.of_nat (length f2))) as [Heq|Hne];
    cbn [negb].
  - apply compare_bytes_spec; [done|lia|done].
  - f_equal. symmetry. apply bool_decide_eq_false. by intros ->.
Qed.

(** X23. [verify_copy] answers true exactly when the two files hold the
    same bytes, given that [ftell] reports their lengths; it answers false
    when one of the files does not open. *)
Theorem verify_copy_correct (fuel : nat) (f1 f2 : list Z) :
  Forall (fun b => 0 <= b <= 255) f1 -> (length f1 < fuel)%nat ->
  FileCopy.verify_copy fuel (Some f1) (Some f2)
    (Z.of_nat (length f1)) (Z.of_nat (length f2))
  = Done (bool_decide (f1 = f2))
  /\ (forall size1 size2,
        FileCopy.verify_copy fuel None (Some f2) size1 size2 = Done false
        /\ FileCopy.verify_copy fuel (Some f1) None size1 size2 = Done false).
Proof.
  intros Hbytes Hfuel. split; [by apply verify_copy_spec|done].
Qed.

Lemma verify_copy_correct_witness :
  FileCopy.verify_copy 3 (Some [104; 105]) (Some [104; 106]) 2 2 = Done false.
Proof.
  apply (verify_copy_correct 3 [104; 105] [104; 106]).
  - repeat constructor; lia.
  - simpl. lia.
Defined.



Lemma copy_file_copies_witness :
  FileCopy.copy_file_cleanup 3
    {| FileCopy.malloc_buffer := true;
       FileCopy.fopen_source := Some [104; 105];
       FileCopy.ftell_source := 2;
       FileCopy.fopen_dest := true;
       FileCopy.fwrite_short := fun _ => false;
       FileCopy.ferror_source := false |}
    None
  = Done (0, Some [104; 105]).
Proof.
  apply (proj2 (copy_file_copies 3 _ None)); try reflexivity.
  - simpl. lia.
  - simpl. lia.
Defined.

(** The dropped result of [fclose] at work: the stream took both bytes,
    the failing [fclose] left one of them in the file, and [copy_file]
    returns 0. *)
Example copy_file_fclose_fails :
  FileCopy.copy_file_cleanup 3
    {| FileCopy.malloc_buffer := true;
       FileCopy.fopen_source := Some [104; 105];
       FileCopy.ftell_source := 2;
       FileCopy.fopen_dest := true;
       FileCopy.fwrite_short := fun _ => false;
       FileCopy.ferror_source := false |}
    (Some [104])
  = Done (0, Some [104]).
Proof. reflexivity. Qed.

(** ** array_operations.c: the cells an operation leaves *)

Lemma list_eq_total (l1 l2 : list Z) :
  length l1 = length l2 ->
  (forall k, (k < length l1)%nat -> l1 !!! k = l2 !!! k) ->
  l1 = l2.
Proof.
  intros Hlen H. apply (list_eq_same_length _ _ (length l1)); [done..|].
  intros i x y Hi Hx Hy.
  apply list_lookup_total_correct in Hx, Hy. rewrite <- Hx, <- Hy. by apply H.
Qed.

Lemma insert_shift_spec (position : nat) :
  forall (d : nat) (fuel : nat) (arr : list Z),
    (position + d < length arr)%nat -> Z.of_nat (position + d) <= INT_MAX ->
    (d < fuel)%nat ->
    exists arr',
      ArrayOperations.insert_shift fuel arr (Z.of_nat (position + d)) (Z.of_nat position)
      = Done arr'
      /\ length arr' = length arr
      /\ forall k, arr' !!! k
                   = if decide (position < k <= position + d)%nat
                     then arr !!! (k - 1)%nat else arr !!! k.
Proof.
  induction d as [|d IH]; intros fuel arr Hlen Hmax Hfuel;
    (destruct fuel as [|fuel]; [lia|]); cbn [ArrayOperations.insert_shift].
  - destruct (Z.gtb_spec (Z.of_nat (position + 0)) (Z.of_nat position)); [lia|].
    exists arr. split; [done|]. split; [done|]. intros k. case_decide; [lia|done].
  - destruct (Z.gtb_spec (Z.of_nat (position + S d)) (Z.of_nat position)); [|lia].
    rewrite wrap_id by int_range.
    replace (Z.of_nat (position + S d) - 1) with (Z.of_nat (position + d)) by lia.
    rewrite load_total by lia. cbn [mbind outcome_bind].
    rewrite store_total by lia. cbn [mbind outcome_bind].
    destruct (IH fuel (<[(position + S d)%nat := arr !!! (position + d)%nat]> arr))
      as (arr' & -> & Hlen' & Hk); [rewrite length_insert; lia|lia|lia|].
    exists arr'. split; [done|]. rewrite Hlen', length_insert. split; [done|].
    intros k. rewrite Hk. sort_lookup; try done; f_equal; lia.
Qed.

(** X25. [insert_element] at a valid position of an array that is not full
    puts the element there, moves the elements from that position on by
    one cell, leaves the cells behind them as they are, and returns the
    size plus one. *)
Theorem insert_element_correct (fuel : nat) (arr : list Z) (size element position : Z) :
  0 <= position <= size -> size < ArrayOperations.MAX_SIZE ->
  size < Z.of_nat (length arr) -> size - position < Z.of_nat fuel ->
  ArrayOperations.insert_element fuel arr size element position
  = Done (take (Z.to_nat position) arr
          ++ element :: take (Z.to_nat (size - position)) (drop (Z.to_nat position) arr)
          ++ drop (Z.to_nat (size + 1)) arr,
          size + 1).
Proof.
  intros Hpos Hmaxsize Hlen Hfuel. unfold ArrayOperations.MAX_SIZE in *.
  unfold ArrayOperations.insert_element.
  destruct (Z.ltb_spec position 0); [lia|].
  destruct (Z.gtb_spec position size); [lia|]. cbn [orb].
  destruct (Z.geb_spec size ArrayOperations.MAX_SIZE);
    [unfold ArrayOperations.MAX_SIZE in *; lia|].
  destruct (insert_shift_spec (Z.to_nat position) (Z.to_nat (size - position)) fuel arr)
    as (arr1 & Hrun & Hlen1 & Hk); [lia|int_range|lia|].
  replace (Z.of_nat (Z.to_nat position + Z.to_nat (size - position))) with size
    in Hrun by lia.
  rewrite Z2Nat.id in Hrun by lia. rewrite Hrun. cbn [mbind outcome_bind].
  rewrite <- (Z2Nat.id position) at 1 by lia.
  rewrite store_total by lia. cbn [mbind outcome_bind].
  rewrite wrap_id by int_range. do 2 f_equal.
  apply list_eq_total.
  - rewrite length_insert, Hlen1, length_app, length_take. cbn [length].
    rewrite length_app, length_take, !length_drop. lia.
  - intros k Hlt. rewrite length_insert, Hlen1 in Hlt.
    rewrite lookup_total_insert_case by lia. rewrite Hk.
    destruct (decide (k < Z.to_nat position)%nat).
    + rewrite lookup_total_app_l by (rewrite length_take; lia).
      rewrite lookup_total_take_lt by done. sort_lookup; done.
    + rewrite lookup_total_app_r by (rewrite length_take; lia).
      rewrite length_take, Nat.min_l by lia.
      destruct (decide (k = Z.to_nat position)) as [->|Hne].
      * by rewrite Nat.sub_diag.
      * rewrite lookup_total_cons_ne_0 by lia.
        destruct (decide (k <= Z.to_nat size)%nat).
        -- rewrite lookup_total_app_l by (rewrite length_take, length_drop; lia).
           rewrite lookup_total_take_lt by lia. rewrite lookup_total_drop.
           rewrite decide_True by lia. f_equal. lia.
        -- rewrite lookup_total_app_r by (rewrite length_take, length_drop; lia).
           rewrite length_take, length_drop, lookup_total_drop.
           rewrite decide_False by lia. f_equal. lia.
Qed.

Lemma insert_element_correct_witness :
  ArrayOperations.insert_element 3 [1; 2; 3; 0] 3 9 1 = Done ([1; 9; 2; 3], 4).
Proof.
  apply (insert_element_correct 3 [1; 2; 3; 0] 3 9 1).
  - lia.
  - unfold ArrayOperations.MAX_SIZE. lia.
  - simpl. lia.
  - simpl. lia.
Defined.

Lemma delete_shift_spec (size : nat) :
  Z.of_nat size <= INT_MAX ->
  forall (d : nat) (fuel : nat) (i : nat) (arr : list Z),
    (i + d + 1 = size)%nat -> (size <= length arr)%nat -> (d < fuel)%nat ->
    exists arr',
      ArrayOperations.delete_shift fuel arr (Z.of_nat i) (Z.of_nat size) = Done arr'
      /\ length arr' = length arr
      /\ forall k, arr' !!! k
                   = if decide (i <= k < size - 1)%nat
                     then arr !!! (k + 1)%nat else arr !!! k.
Proof.
  intros Hmax.
  induction d as [|d IH]; intros fuel i arr Hd Hlen Hfuel;
    (destruct fuel as [|fuel]; [lia|]); cbn [ArrayOperations.delete_shift];
    rewrite (wrap_id (Z.of_nat size - 1)) by int_range.
  - destruct (Z.ltb_spec (Z.of_nat i) (Z.of_nat size - 1)); [lia|].
    exists arr. split; [done|]. split; [done|]. intros k. case_decide; [lia|done].
  - destruct (Z.ltb_spec (Z.of_nat i) (Z.of_nat size - 1)); [|lia].
    rewrite wrap_id by int_range.
    replace (Z.of_nat i + 1) with (Z.of_nat (S i)) by lia.
    rewrite load_total by lia. cbn [mbind outcome_bind].
    rewrite store_total by lia. cbn [mbind outcome_bind].
    destruct (IH fuel (S i) (<[i := arr !!! S i]> arr))
      as (arr' & -> & Hlen' & Hk); [lia|rewrite length_insert; lia|lia|].
    exists arr'. split; [done|]. rewrite Hlen', length_insert. split; [done|].
    intros k. rewrite Hk. sort_lookup; try done; f_equal; lia.
Qed.

(** X26. [delete_element] at a valid position takes that element out of
    the first [size] cells, keeps the others in their order, and returns
    the size minus one; the last of the [size] cells keeps its old value. *)
Theorem delete_element_correct (fuel : nat) (arr : list Z) (size position : Z) :
  0 <= position < size -> size <= Z.of_nat (length arr) -> size <= INT_MAX ->
  size - position <= Z.of_nat fuel ->
  ArrayOperations.delete_element fuel arr size position
  = Done (take (Z.to_nat position) arr
          ++ take (Z.to_nat (size - 1 - position)) (drop (Z.to_nat (position + 1)) arr)
          ++ drop (Z.to_nat (size - 1)) arr,
          size - 1).
Proof.
  intros Hpos Hlen Hmax Hfuel. unfold ArrayOperations.delete_element.
  destruct (Z.ltb_spec position 0); [lia|].
  destruct (Z.geb_spec position size); [lia|]. cbn [orb].
  destruct (delete_shift_spec (Z.to_nat size) ltac:(lia)
              (Z.to_nat (size - 1 - position)) fuel (Z.to_nat position) arr)
    as (arr1 & Hrun & Hlen1 & Hk); [lia..|].
  rewrite !Z2Nat.id in Hrun by lia. rewrite Hrun. cbn [mbind outcome_bind].
  rewrite wrap_id by int_range. do 2 f_equal.
  apply list_eq_total.
  - rewrite Hlen1, length_app, length_take, length_app, length_take, !length_drop. lia.
  - intros k Hlt. rewrite Hlen1 in Hlt. rewrite Hk.
    destruct (decide (k < Z.to_nat position)%nat).
    + rewrite lookup_total_app_l by (rewrite length_take; lia).
      rewrite lookup_total_take_lt by done. by rewrite decide_False by lia.
    + rewrite lookup_total_app_r by (rewrite length_take; lia).
      rewrite length_take, Nat.min_l by lia.
      destruct (decide (k < Z.to_nat size - 1)%nat).
      * rewrite lookup_total_app_l by (rewrite length_take, length_drop; lia).
        rewrite lookup_total_take_lt by lia. rewrite lookup_total_drop.
        rewrite decide_True by lia. f_equal. lia.
      * rewrite lookup_total_app_r by (rewrite length_take, length_drop; lia).
        rewrite length_take, length_drop, lookup_total_drop.
        rewrite decide_False by lia. f_equal. lia.
Qed.

Lemma delete_element_correct_witness :
  ArrayOperations.delete_element 3 [1; 2; 3; 4] 4 1 = Done ([1; 3; 4; 4], 3).
Proof.
  apply (delete_element_correct 3 [1; 2; 3; 4] 4 1).
  - lia.
  - simpl. lia.
  - unfold INT_MAX. lia.
  - simpl. lia.
Defined.

Lemma find_max_loop_spec (arr : list Z) (size : nat) :
  Z.of_nat size <= INT_MAX -> (size <= length arr)%nat ->
  forall (d fuel i : nat) (max : Z),
    (i + d = size)%nat -> (d < fuel)%nat ->
    max ∈ take i arr -> Forall (fun x => x <= max) (take i arr) ->
    exists m,
      ArrayOperations.find_max_loop fuel arr (Z.of_nat size) (Z.of_nat i) max = Done m
      /\ m ∈ take size arr /\ Forall (fun x => x <= m) (take size arr).
Proof.
  intros Hmax Hlen.
  induction d as [|d IH]; intros fuel i max Hd Hfuel Hin Hall;
    (destruct fuel as [|fuel]; [lia|]); cbn [ArrayOperations.find_max_loop].
  - destruct (Z.ltb_spec (Z.of_nat i) (Z.of_nat size)); [lia|].
    assert (i = size) as -> by lia. by exists max.
  - destruct (Z.ltb_spec (Z.of_nat i) (Z.of_nat size)); [|lia].
    rewrite load_total by lia. cbn [mbind outcome_bind].
    rewrite wrap_id by int_range.
    replace (Z.of_nat i + 1) with (Z.of_nat (S i)) by lia.
    assert (Htake : take (S i) arr = take i arr ++ [arr !!! i]).
    { apply take_S_r, list_lookup_lookup_total_lt. lia. }
    destruct (Z.gtb_spec (arr !!! i) max) as [Hgt|Hle].
    + apply IH; [lia|lia|..]; rewrite Htake.
      * apply elem_of_app. right. apply elem_of_cons. by left.
      * apply Forall_app. split; [|by repeat constructor].
        eapply Forall_impl; [exact Hall|]. intros x Hx. simpl in Hx. lia.
    + apply IH; [lia|lia|..]; rewrite Htake.
      * apply elem_of_app. by left.
      * apply Forall_app. split; [done|]. by repeat constructor.
Qed.

Lemma find_min_loop_spec (arr : list Z) (size : nat) :
  Z.of_nat size <= INT_MAX -> (size <= length arr)%nat ->
  forall (d fuel i : nat) (min : Z),
    (i + d = size)%nat -> (d < fuel)%nat ->
    min ∈ take i arr -> Forall (fun x => min <= x) (take i arr) ->
    exists m,
      ArrayOperations.find_min_loop fuel arr (Z.of_nat size) (Z.of_nat i) min = Done m
      /\ m ∈ take size arr /\ Forall (fun x => m <= x) (take size arr).
Proof.
  intros Hmax Hlen.
  induction d as [|d IH]; intros fuel i min Hd Hfuel Hin Hall;
    (destruct fuel as [|fuel]; [lia|]); cbn [ArrayOperations.find_min_loop].
  - destruct (Z.ltb_spec (Z.of_nat i) (Z.of_nat size)); [lia|].
    assert (i = size) as -> by lia. by exists min.
  - destruct (Z.ltb_spec (Z.of_nat i) (Z.of_nat size)); [|lia].
    rewrite load_total by lia. cbn [mbind outcome_bind].
    rewrite wrap_id by int_range.
    replace (Z.of_nat i + 1) with (Z.of_nat (S i)) by lia.
    assert (Htake : take (S i) arr = take i arr ++ [arr !!! i]).
    { apply take_S_r, list_lookup_lookup_total_lt. lia. }
    destruct (Z.ltb_spec (arr !!! i) min) as [Hlt|Hge].
    + apply IH; [lia|lia|..]; rewrite Htake.
      * apply elem_of_app. right. apply elem_of_cons. by left.
      * apply Forall_app. split; [|by repeat constructor].
        eapply Forall_impl; [exact Hall|]. intros x Hx. simpl in Hx. lia.
    + apply IH; [lia|lia|..]; rewrite Htake.
      * apply elem_of_app. by left.
      * apply Forall_app. split; [done|]. by repeat constructor.
Qed.

(** X27. On the first [size] cells of an array, [size] positive,
    [find_max] returns an element that no element exceeds and [find_min]
    an element that exceeds none; on size 0 both return -1. *)
Theorem find_max_find_min_correct (fuel : nat) (arr : list Z) (size : Z) :
  0 <= size <= Z.of_nat (length arr) -> size <= INT_MAX -> size <= Z.of_nat fuel ->
  if size =? 0
  then ArrayOperations.find_max fuel arr size = Done (-1)
       /\ ArrayOperations.find_min fuel arr size = Done (-1)
  else exists max min,
      ArrayOperations.find_max fuel arr size = Done max
      /\ ArrayOperations.find_min fuel arr size = Done min
      /\ max ∈ take (Z.to_nat size) arr /\ min ∈ take (Z.to_nat size) arr
      /\ Forall (fun x => min <= x <= max) (take (Z.to_nat size) arr).
Proof.
  intros Hsize Hmax Hfuel.
  unfold ArrayOperations.find_max, ArrayOperations.find_min.
  destruct (Z.eqb_spec size 0) as [->|Hne]; [done|].
  change 0 with (Z.of_nat 0). rewrite load_total by lia. cbn [mbind outcome_bind].
  assert (Htake : take 1 arr = [arr !!! 0%nat]).
  { destruct arr; [simpl in Hsize; lia|done]. }
  destruct (find_max_loop_spec arr (Z.to_nat size) ltac:(lia) ltac:(lia)
              (Z.to_nat size - 1) fuel 1 (arr !!! 0%nat))
    as (max & Hrunmax & Hinmax & Hallmax); [lia|lia|rewrite Htake..|].
  { apply elem_of_cons. by left. }
  { by repeat constructor. }
  destruct (find_min_loop_spec arr (Z.to_nat size) ltac:(lia) ltac:(lia)
              (Z.to_nat size - 1) fuel 1 (arr !!! 0%nat))
    as (min & Hrunmin & Hinmin & Hallmin); [lia|lia|rewrite Htake..|].
  { apply elem_of_cons. by left. }
  { by repeat constructor. }
  rewrite Z2Nat.id in Hrunmax, Hrunmin by lia.
  exists max, min. split; [done|]. split; [done|]. split; [done|]. split; [done|].
  apply Forall_forall. intros x Hx.
  rewrite Forall_forall in Hallmax, Hallmin.
  specialize (Hallmax x Hx). specialize (Hallmin x Hx). simpl in *. lia.
Qed.

Lemma find_max_find_min_correct_witness :
  exists max min,
    ArrayOperations.find_max 4 [3; 9; 2; 7] 4 = Done max
    /\ ArrayOperations.find_min 4 [3; 9; 2; 7] 4 = Done min
    /\ max ∈ [3; 9; 2; 7] /\ min ∈ [3; 9; 2; 7]
    /\ Forall (fun x => min <= x <= max) [3; 9; 2; 7].
Proof.
  apply (find_max_find_min_correct 4 [3; 9; 2; 7] 4).
  - simpl. lia.
  - unfold INT_MAX. lia.
  - simpl. lia.
Defined.

Lemma copy_to_offset_loop_spec (src : list Z) (offset n : nat) :
  Z.of_nat (offset + n) <= INT_MAX -> (n <= length src)%nat ->
  forall (d fuel i : nat) (dest : list Z),
    (i + d = n)%nat -> (d < fuel)%nat -> (offset + n <= length dest)%nat ->
    exists dest',
      ArrayOperations.copy_to_offset_loop fuel dest src (Z.of_nat offset) (Z.of_nat n)
        (Z.of_nat i) = Done dest'
      /\ length dest' = length dest
      /\ forall k, dest' !!! k
                   = if decide (offset + i <= k < offset + n)%nat
                     then src !!! (k - offset)%nat else dest !!! k.
Proof.
  intros Hmax Hsrc.
  induction d as [|d IH]; intros fuel i dest Hd Hfuel Hdest;
    (destruct fuel as [|fuel]; [lia|]); cbn [ArrayOperations.copy_to_offset_loop].
  - destruct (Z.ltb_spec (Z.of_nat i) (Z.of_nat n)); [lia|].
    exists dest. split; [done|]. split; [done|]. intros k. case_decide; [lia|done].
  - destruct (Z.ltb_spec (Z.of_nat i) (Z.of_nat n)); [|lia].
    rewrite load_total by lia. cbn [mbind outcome_bind].
    rewrite !wrap_id by int_range.
    replace (Z.of_nat offset + Z.of_nat i) with (Z.of_nat (offset + i)) by lia.
    rewrite store_total by lia. cbn [mbind outcome_bind].
    replace (Z.of_nat i + 1) with (Z.of_nat (S i)) by lia.
    destruct (IH fuel (S i) (<[(offset + i)%nat := src !!! i]> dest))
      as (dest' & -> & Hlen' & Hk); [lia|lia|rewrite length_insert; lia|].
    exists dest'. split; [done|]. rewrite Hlen', length_insert. split; [done|].
    intros k. rewrite Hk. sort_lookup; try done; f_equal; lia.
Qed.

Lemma copy_loop_spec (src : list Z) (n : nat) :
  Z.of_nat n <= INT_MAX -> (n <= length src)%nat ->
  forall (d fuel i : nat) (dest : list Z),
    (i + d = n)%nat -> (d < fuel)%nat -> (n <= length dest)%nat ->
    exists dest',
      ArrayOperations.copy_loop fuel dest src (Z.of_nat n) (Z.of_nat i) = Done dest'
      /\ length dest' = length dest
      /\ forall k, dest' !!! k
                   = if decide (i <= k < n)%nat then src !!! k else dest !!! k.
Proof.
  intros Hmax Hsrc.
  induction d as [|d IH]; intros fuel i dest Hd Hfuel Hdest;
    (destruct fuel as [|fuel]; [lia|]); cbn [ArrayOperations.copy_loop].
  - destruct (Z.ltb_spec (Z.of_nat i) (Z.of_nat n)); [lia|].
    exists dest. split; [done|]. split; [done|]. intros k. case_decide; [lia|done].
  - destruct (Z.ltb_spec (Z.of_nat i) (Z.of_nat n)); [|lia].
    rewrite load_total by lia. cbn [mbind outcome_bind].
    rewrite store_total by lia. cbn [mbind outcome_bind].
    rewrite wrap_id by int_range.
    replace (Z.of_nat i + 1) with (Z.of_nat (S i)) by lia.
    destruct (IH fuel (S i) (<[i := src !!! i]> dest))
      as (dest' & -> & Hlen' & Hk); [lia|lia|rewrite length_insert; lia|].
    exists dest'. split; [done|]. rewrite Hlen', length_insert. split; [done|].
    intros k. rewrite Hk. sort_lookup; try done; f_equal; lia.
Qed.

(** X28. [merge_arrays] writes the first [size1] cells of the first array
    and behind them the first [size2] cells of the second into the result
    array, and leaves the cells of the result behind them as they are. *)
Theorem merge_arrays_correct (fuel : nat) (arr1 arr2 result : list Z) (size1 size2 : Z) :
  0 <= size1 <= Z.of_nat (length arr1) -> 0 <= size2 <= Z.of_nat (length arr2) ->
  size1 + size2 <= Z.of_nat (length result) -> size1 + size2 <= INT_MAX ->
  size1 < Z.of_nat fuel -> size2 < Z.of_nat fuel ->
  ArrayOperations.merge_arrays fuel arr1 size1 arr2 size2 result
  = Done (take (Z.to_nat size1) arr1 ++ take (Z.to_nat size2) arr2
          ++ drop (Z.to_nat (size1 + size2)) result).
Proof.
  intros H1 H2 Hres Hmax Hfuel1 Hfuel2. unfold ArrayOperations.merge_arrays.
  destruct (copy_loop_spec arr1 (Z.to_nat size1) ltac:(lia) ltac:(lia)
              (Z.to_nat size1) fuel 0 result)
    as (r1 & Hrun1 & Hlen1 & Hk1); [lia..|].
  rewrite Z2Nat.id in Hrun1 by lia. change (Z.of_nat 0) with 0 in Hrun1.
  rewrite Hrun1. cbn [mbind outcome_bind].
  destruct (copy_to_offset_loop_spec arr2 (Z.to_nat size1) (Z.to_nat size2)
              ltac:(lia) ltac:(lia) (Z.to_nat size2) fuel 0 r1)
    as (r2 & Hrun2 & Hlen2 & Hk2); [lia..|].
  rewrite !Z2Nat.id in Hrun2 by lia. change (Z.of_nat 0) with 0 in Hrun2.
  rewrite Hrun2. f_equal. apply list_eq_total.
  - rewrite Hlen2, Hlen1, !length_app, !length_take, length_drop. lia.
  - intros k Hlt. rewrite Hlen2, Hlen1 in Hlt. rewrite Hk2, Hk1.
    destruct (decide (k < Z.to_nat size1)%nat).
    + rewrite lookup_total_app_l by (rewrite length_take; lia).
      rewrite lookup_total_take_lt by done.
      rewrite decide_False by lia. by rewrite decide_True by lia.
    + rewrite lookup_total_app_r by (rewrite length_take; lia).
      rewrite length_take, Nat.min_l by lia.
      destruct (decide (k < Z.to_nat size1 + Z.to_nat size2)%nat).
      * rewrite lookup_total_app_l by (rewrite length_take; lia).
        rewrite lookup_total_take_lt by lia. by rewrite decide_True by lia.
      * rewrite lookup_total_app_r by (rewrite length_take; lia).
        rewrite length_take, lookup_total_drop.
        rewrite !decide_False by lia. f_equal. lia.
Qed.

Lemma merge_arrays_correct_witness :
  ArrayOperations.merge_arrays 3 [1; 2] 2 [7; 8] 2 [0; 0; 0; 0; 5]
  = Done [1; 2; 7; 8; 5].
Proof.
  apply (merge_arrays_correct 3 [1; 2] [7; 8] [0; 0; 0; 0; 5] 2 2);
    try (simpl; lia); unfold INT_MAX; lia.
Defined.

Lemma reverse_array_loop_spec :
  forall (d fuel : nat) (arr : list Z) (left len : nat),
    (left + len <= length arr)%nat -> Z.of_nat (left + len) <= INT_MAX ->
    (len <= 2 * d + 1)%nat -> (d < fuel)%nat ->
    exists arr',
      ArrayOperations.reverse_array_loop fuel arr (Z.of_nat left)
        (Z.of_nat (left + len) - 1) = Done arr'
      /\ length arr' = length arr
      /\ forall k, arr' !!! k
                   = if decide (left <= k < left + len)%nat
                     then arr !!! (left + (left + len - 1 - k))%nat else arr !!! k.
Proof.
  induction d as [|d IH]; intros fuel arr left len Hlen Hmax Hd Hfuel;
    (destruct fuel as [|fuel]; [lia|]); cbn [ArrayOperations.reverse_array_loop].
  - destruct (Z.ltb_spec (Z.of_nat left) (Z.of_nat (left + len) - 1)); [lia|].
    exists arr. split; [done|]. split; [done|]. intros k.
    case_decide; [f_equal; lia|done].
  - destruct (Z.ltb_spec (Z.of_nat left) (Z.of_nat (left + len) - 1)) as [Hlt|Hge].
    + replace (Z.of_nat (left + len) - 1) with (Z.of_nat (left + len - 1)) by lia.
      rewrite !load_total by lia. cbn [mbind outcome_bind].
      rewrite store_total by lia. cbn [mbind outcome_bind].
      rewrite store_total by (rewrite length_insert; lia). cbn [mbind outcome_bind].
      rewrite !wrap_id by int_range.
      replace (Z.of_nat left + 1) with (Z.of_nat (S left)) by lia.
      replace (Z.of_nat (left + len - 1) - 1)
        with (Z.of_nat (S left + (len - 2)) - 1) by lia.
      destruct (IH fuel
                  (<[(left + len - 1)%nat := arr !!! left]>
                     (<[left := arr !!! (left + len - 1)%nat]> arr))
                  (S left) (len - 2)%nat)
        as (arr' & -> & Hlen' & Hk); [rewrite !length_insert; lia|lia|lia|lia|].
      exists arr'. split; [done|]. rewrite Hlen', !length_insert. split; [done|].
      intros k. rewrite Hk. sort_lookup; try done; f_equal; lia.
    + exists arr. split; [done|]. split; [done|]. intros k.
      case_decide; [f_equal; lia|done].
Qed.

Lemma reverse_subarray_reverse_array_loop (fuel : nat) :
  forall (arr : list Z) (start end_ : Z),
    ArrayOperations.reverse_subarray fuel arr start end_
    = ArrayOperations.reverse_array_loop fuel arr start end_.
Proof.
  induction fuel as [|fuel IH]; intros arr start end_; [done|].
  cbn [ArrayOperations.reverse_subarray ArrayOperations.reverse_array_loop].
  destruct (start <? end_); [|done].
  destruct (load arr start) as [temp| |]; cbn [mbind outcome_bind]; [|done..].
  destruct (load arr end_) as [v| |]; cbn [mbind outcome_bind]; [|done..].
  destruct (store arr start v) as [arr1| |]; cbn [mbind outcome_bind]; [|done..].
  destruct (store arr1 end_ temp) as [arr2| |]; cbn [mbind outcome_bind]; [|done..].
  apply IH.
Qed.

Lemma lookup_total_reverse (l : list Z) (k : nat) :
  (k < length l)%nat -> reverse l !!! k = l !!! (length l - S k)%nat.
Proof.
  intros Hk. by rewrite !list_lookup_total_alt, reverse_lookup.
Qed.

(** X29. [reverse_array] reverses the first [size] cells of the array in
    place and leaves the cells behind them as they are. *)
Theorem reverse_array_correct (fuel : nat) (arr : list Z) (size : Z) :
  0 <= size <= Z.of_nat (length arr) -> size <= INT_MAX -> size < Z.of_nat fuel ->
  ArrayOperations.reverse_array fuel arr size
  = Done (reverse (take (Z.to_nat size) arr) ++ drop (Z.to_nat size) arr).
Proof.
  intros Hsize Hmax Hfuel. unfold ArrayOperations.reverse_array.
  rewrite wrap_id by int_range.
  destruct (reverse_array_loop_spec (Z.to_nat size) fuel arr 0 (Z.to_nat size))
    as (arr' & Hrun & Hlen & Hk); [lia..|].
  cbn [Nat.add] in Hrun. rewrite Z2Nat.id in Hrun by lia.
  change (Z.of_nat 0) with 0 in Hrun. rewrite Hrun. f_equal.
  apply list_eq_total.
  - rewrite Hlen, length_app, length_reverse, length_take, length_drop. lia.
  - intros k Hlt. rewrite Hlen in Hlt. rewrite Hk.
    destruct (decide (k < Z.to_nat size)%nat).
    + rewrite lookup_total_app_l by (rewrite length_reverse, length_take; lia).
      rewrite lookup_total_reverse by (rewrite length_take; lia).
      rewrite length_take, Nat.min_l by lia.
      rewrite lookup_total_take_lt by lia.
      rewrite decide_True by lia. f_equal. lia.
    + rewrite lookup_total_app_r by (rewrite length_reverse, length_take; lia).
      rewrite length_reverse, length_take, lookup_total_drop.
      rewrite decide_False by lia. f_equal. lia.
Qed.

Lemma reverse_array_correct_witness :
  ArrayOperations.reverse_array 5 [1; 2; 3; 4; 9] 4 = Done [4; 3; 2; 1; 9].
Proof.
  apply (reverse_array_correct 5 [1; 2; 3; 4; 9] 4).
  - simpl. lia.
  - unfold INT_MAX. lia.
  - simpl. lia.
Defined.

Lemma copy_from_offset_loop_spec (src : list Z) (offset n : nat) :
  Z.of_nat (offset + n) <= INT_MAX -> (offset + n <= length src)%nat ->
  forall (d fuel i : nat) (dest : list Z),
    (i + d = n)%nat -> (d < fuel)%nat -> (n <= length dest)%nat ->
    exists dest',
      ArrayOperations.copy_from_offset_loop fuel dest src (Z.of_nat offset) (Z.of_nat n)
        (Z.of_nat i) = Done dest'
      /\ length dest' = length dest
      /\ forall k, dest' !!! k
                   = if decide (i <= k < n)%nat
                     then src !!! (offset + k)%nat else dest !!! k.
Proof.
  intros Hmax Hsrc.
  induction d as [|d IH]; intros fuel i dest Hd Hfuel Hdest;
    (destruct fuel as [|fuel]; [lia|]); cbn [ArrayOperations.copy_from_offset_loop].
  - destruct (Z.ltb_spec (Z.of_nat i) (Z.of_nat n)); [lia|].
    exists dest. split; [done|]. split; [done|]. intros k. case_decide; [lia|done].
  - destruct (Z.ltb_spec (Z.of_nat i) (Z.of_nat n)); [|lia].
    rewrite !wrap_id by int_range.
    replace (Z.of_nat offset + Z.of_nat i) with (Z.of_nat (offset + i)) by lia.
    rewrite load_total by lia. cbn [mbind outcome_bind].
    rewrite store_total by lia. cbn [mbind outcome_bind].
    replace (Z.of_nat i + 1) with (Z.of_nat (S i)) by lia.
    destruct (IH fuel (S i) (<[i := src !!! (offset + i)%nat]> dest))
      as (dest' & -> & Hlen' & Hk); [lia|lia|rewrite length_insert; lia|].
    exists dest'. split; [done|]. rewrite Hlen', length_insert. split; [done|].
    intros k. rewrite Hk. sort_lookup; try done; f_equal; lia.
Qed.

Lemma shift_left_loop_spec (size p : nat) :
  Z.of_nat size <= INT_MAX -> (p <= size)%nat ->
  forall (d fuel i : nat) (arr : list Z),
    (i + d + p = size)%nat -> (d < fuel)%nat -> (size <= length arr)%nat ->
    exists arr',
      ArrayOperations.shift_left_loop fuel arr (Z.of_nat size) (Z.of_nat p) (Z.of_nat i)
      = Done arr'
      /\ length arr' = length arr
      /\ forall k, arr' !!! k
                   = if decide (i <= k < size - p)%nat
                     then arr !!! (k + p)%nat else arr !!! k.
Proof.
  intros Hmax Hp.
  induction d as [|d IH]; intros fuel i arr Hd Hfuel Hlen;
    (destruct fuel as [|fuel]; [lia|]); cbn [ArrayOperations.shift_left_loop];
    rewrite (wrap_id (Z.of_nat size - Z.of_nat p)) by int_range.
  - destruct (Z.ltb_spec (Z.of_nat i) (Z.of_nat size - Z.of_nat p)); [lia|].
    exists arr. split; [done|]. split; [done|]. intros k. case_decide; [lia|done].
  - destruct (Z.ltb_spec (Z.of_nat i) (Z.of_nat size - Z.of_nat p)); [|lia].
    rewrite !wrap_id by int_range.
    replace (Z.of_nat i + Z.of_nat p) with (Z.of_nat (i + p)) by lia.
    rewrite load_total by lia. cbn [mbind outcome_bind].
    rewrite store_total by lia. cbn [mbind outcome_bind].
    replace (Z.of_nat i + 1) with (Z.of_nat (S i)) by lia.
    destruct (IH fuel (S i) (<[i := arr !!! (i + p)%nat]> arr))
      as (arr' & -> & Hlen' & Hk); [lia|lia|rewrite length_insert; lia|].
    exists arr'. split; [done|]. rewrite Hlen', length_insert. split; [done|].
    intros k. rewrite Hk. sort_lookup; try done; f_equal; lia.
Qed.

Lemma shift_right_loop_spec (p : nat) :
  (0 < p)%nat ->
  forall (d fuel : nat) (arr : list Z),
    (p + d <= length arr)%nat -> Z.of_nat (p + d) <= INT_MAX -> (d < fuel)%nat ->
    exists arr',
      ArrayOperations.shift_right_loop fuel arr (Z.of_nat p) (Z.of_nat (p + d) - 1)
      = Done arr'
      /\ length arr' = length arr
      /\ forall k, arr' !!! k
                   = if decide (p <= k < p + d)%nat
                     then arr !!! (k - p)%nat else arr !!! k.
Proof.
  intros Hp.
  induction d as [|d IH]; intros fuel arr Hlen Hmax Hfuel;
    (destruct fuel as [|fuel]; [lia|]); cbn [ArrayOperations.shift_right_loop].
  - destruct (Z.geb_spec (Z.of_nat (p + 0) - 1) (Z.of_nat p)); [lia|].
    exists arr. split; [done|]. split; [done|]. intros k. case_decide; [lia|done].
  - destruct (Z.geb_spec (Z.of_nat (p + S d) - 1) (Z.of_nat p)); [|lia].
    rewrite !wrap_id by int_range.
    replace (Z.of_nat (p + S d) - 1 - Z.of_nat p) with (Z.of_nat d) by lia.
    rewrite load_total by lia. cbn [mbind outcome_bind].
    replace (Z.of_nat (p + S d) - 1) with (Z.of_nat (p + d)) by lia.
    rewrite store_total by lia. cbn [mbind outcome_bind].
    destruct (IH fuel (<[(p + d)%nat := arr !!! d]> arr))
      as (arr' & -> & Hlen' & Hk); [rewrite length_insert; lia|lia|lia|].
    exists arr'. split; [done|]. rewrite Hlen', length_insert. split; [done|].
    intros k. rewrite Hk. sort_lookup; try done; f_equal; lia.
Qed.

(** [reverse_subarray] on the cells from [start] up to [start + len - 1]. *)
Lemma reverse_subarray_spec (fuel : nat) (arr : list Z) (start len : nat) :
  (start + len <= length arr)%nat -> Z.of_nat (start + len) <= INT_MAX ->
  (len < fuel)%nat ->
  exists arr',
    ArrayOperations.reverse_subarray fuel arr (Z.of_nat start)
      (Z.of_nat (start + len) - 1) = Done arr'
    /\ length arr' = length arr
    /\ forall k, arr' !!! k
                 = if decide (start <= k < start + len)%nat
                   then arr !!! (start + (start + len - 1 - k))%nat else arr !!! k.
Proof.
  intros Hlen Hmax Hfuel. rewrite reverse_subarray_reverse_array_loop.
  apply (reverse_array_loop_spec len); lia.
Qed.

Lemma int_rem_nonneg (a b : Z) :
  0 <= a <= INT_MAX -> 0 < b ->
  ArrayOperations.int_rem a b = Done (a mod b).
Proof.
  intros Ha Hb. unfold ArrayOperations.int_rem.
  destruct (Z.eqb_spec b 0); [lia|].
  rewrite Z.rem_mod_nonneg by lia.
  pose proof (Z.mod_pos_bound a b Hb). pose proof (Z.mod_le a b ltac:(lia) Hb).
  by rewrite wrap_id by int_range.
Qed.

(** The cell that lands in cell [k] when the first [size] cells move by
    [p] places to the left. *)
Lemma rotate_left_spec (fuel : nat) (temp arr : list Z) (size positions : Z) :
  0 < size <= Z.of_nat (length arr) -> size <= INT_MAX ->
  0 <= positions <= INT_MAX ->
  Z.of_nat (length temp) = ArrayOperations.MAX_ROTATE_BUFFER ->
  size < Z.of_nat fuel ->
  exists arr',
    ArrayOperations.rotate_left fuel temp arr size positions = Done arr'
    /\ length arr' = length arr
    /\ forall k, arr' !!! k
                 = if decide (Z.of_nat k < size)
                   then arr !!! Z.to_nat ((Z.of_nat k + positions) mod size)
                   else arr !!! k.
Proof.
  intros Hsize Hmax Hpos Htemp Hfuel. unfold ArrayOperations.rotate_left.
  unfold ArrayOperations.MAX_ROTATE_BUFFER in *.
  destruct (Z.eqb_spec size 0); [lia|].
  rewrite int_rem_nonneg by lia. cbn [mbind outcome_bind].
  pose proof (Z.mod_pos_bound positions size ltac:(lia)) as Hp.
  assert (Hidx : forall k : nat, Z.of_nat k < size ->
            (Z.of_nat k + positions) mod size
            = if decide (Z.of_nat k + positions mod size < size)
              then Z.of_nat k + positions mod size
              else Z.of_nat k + positions mod size - size).
  { intros k Hk. rewrite <- Zplus_mod_idemp_r. case_decide.
    - apply Z.mod_small. lia.
    - symmetry. apply (Z.mod_unique _ _ 1); lia. }
  remember (positions mod size) as p eqn:Hpdef. clear Hpdef.
  destruct (Z.eqb_spec p 0) as [->|Hp0].
  { exists arr. split; [done|]. split; [done|]. intros k. case_decide; [|done].
    rewrite Hidx by done. rewrite decide_True by lia. f_equal. lia. }
  destruct (Z.gtb_spec p 256) as [Hbig|Hsmall].
  - destruct (reverse_subarray_spec fuel arr 0 (Z.to_nat p))
      as (a1 & Hrun1 & Hlen1 & Hk1); [lia..|].
    replace (Z.of_nat (0 + Z.to_nat p) - 1) with (p - 1) in Hrun1 by lia.
    change (Z.of_nat 0) with 0 in Hrun1.
    rewrite !wrap_id by int_range. rewrite Hrun1. cbn [mbind outcome_bind].
    destruct (reverse_subarray_spec fuel a1 (Z.to_nat p) (Z.to_nat (size - p)))
      as (a2 & Hrun2 & Hlen2 & Hk2); [lia..|].
    replace (Z.of_nat (Z.to_nat p + Z.to_nat (size - p)) - 1) with (size - 1)
      in Hrun2 by lia.
    rewrite Z2Nat.id in Hrun2 by lia.
    rewrite Hrun2. cbn [mbind outcome_bind].
    destruct (reverse_subarray_spec fuel a2 0 (Z.to_nat size))
      as (a3 & Hrun3 & Hlen3 & Hk3); [lia..|].
    replace (Z.of_nat (0 + Z.to_nat size) - 1) with (size - 1) in Hrun3 by lia.
    change (Z.of_nat 0) with 0 in Hrun3. rewrite Hrun3.
    exists a3. split; [done|]. split; [lia|]. intros k.
    rewrite Hk3, !Hk2, !Hk1.
    destruct (decide (Z.of_nat k < size)) as [Hk|Hk].
    + rewrite Hidx by done.
      repeat case_decide; try lia; f_equal; lia.
    + repeat case_decide; try lia; f_equal; lia.
  - destruct (copy_loop_spec arr (Z.to_nat p) ltac:(lia) ltac:(lia)
                (Z.to_nat p) fuel 0 temp)
      as (t1 & Hrun1 & Hlen1 & Hk1); [lia..|].
    rewrite Z2Nat.id in Hrun1 by lia. change (Z.of_nat 0) with 0 in Hrun1.
    rewrite Hrun1. cbn [mbind outcome_bind].
    destruct (shift_left_loop_spec (Z.to_nat size) (Z.to_nat p) ltac:(lia) ltac:(lia)
                (Z.to_nat (size - p)) fuel 0 arr)
      as (a1 & Hrun2 & Hlen2 & Hk2); [lia..|].
    rewrite !Z2Nat.id in Hrun2 by lia. change (Z.of_nat 0) with 0 in Hrun2.
    rewrite Hrun2. cbn [mbind outcome_bind].
    rewrite wrap_id by int_range.
    destruct (copy_to_offset_loop_spec t1 (Z.to_nat (size - p)) (Z.to_nat p)
                ltac:(lia) ltac:(lia) (Z.to_nat p) fuel 0 a1)
      as (a2 & Hrun3 & Hlen3 & Hk3); [lia..|].
    rewrite !Z2Nat.id in Hrun3 by lia. change (Z.of_nat 0) with 0 in Hrun3.
    rewrite Hrun3.
    exists a2. split; [done|]. split; [lia|]. intros k.
    rewrite Hk3, !Hk2, !Hk1.
    destruct (decide (Z.of_nat k < size)) as [Hk|Hk].
    + rewrite Hidx by done.
      repeat case_decide; try lia; f_equal; lia.
    + repeat case_decide; try lia; f_equal; lia.
Qed.

(** The cell that lands in cell [k] when the first [size] cells move by
    [p] places to the right. *)
Lemma rotate_right_spec (fuel : nat) (temp arr : list Z) (size positions : Z) :
  0 < size <= Z.of_nat (length arr) -> size <= INT_MAX ->
  0 <= positions <= INT_MAX ->
  Z.of_nat (length temp) = ArrayOperations.MAX_ROTATE_BUFFER ->
  size < Z.of_nat fuel ->
  exists arr',
    ArrayOperations.rotate_right fuel temp arr size positions = Done arr'
    /\ length arr' = length arr
    /\ forall k, arr' !!! k
                 = if decide (Z.of_nat k < size)
                   then arr !!! Z.to_nat ((Z.of_nat k - positions) mod size)
                   else arr !!! k.
Proof.
  intros Hsize Hmax Hpos Htemp Hfuel. unfold ArrayOperations.rotate_right.
  unfold ArrayOperations.MAX_ROTATE_BUFFER in *.
  destruct (Z.eqb_spec size 0); [lia|].
  rewrite int_rem_nonneg by lia. cbn [mbind outcome_bind].
  pose proof (Z.mod_pos_bound positions size ltac:(lia)) as Hp.
  assert (Hidx : forall k : nat, Z.of_nat k < size ->
            (Z.of_nat k - positions) mod size
            = if decide (positions mod size <= Z.of_nat k)
              then Z.of_nat k - positions mod size
              else Z.of_nat k - positions mod size + size).
  { intros k Hk. rewrite <- Zminus_mod_idemp_r. case_decide.
    - apply Z.mod_small. lia.
    - symmetry. apply (Z.mod_unique _ _ (-1)); lia. }
  remember (positions mod size) as p eqn:Hpdef. clear Hpdef.
  destruct (Z.eqb_spec p 0) as [->|Hp0].
  { exists arr. split; [done|]. split; [done|]. intros k. case_decide; [|done].
    rewrite Hidx by done. rewrite decide_True by lia. f_equal. lia. }
  destruct (Z.gtb_spec p 256) as [Hbig|Hsmall].
  - destruct (reverse_subarray_spec fuel arr 0 (Z.to_nat size))
      as (a1 & Hrun1 & Hlen1 & Hk1); [lia..|].
    replace (Z.of_nat (0 + Z.to_nat size) - 1) with (size - 1) in Hrun1 by lia.
    change (Z.of_nat 0) with 0 in Hrun1.
    rewrite !wrap_id by int_range. rewrite Hrun1. cbn [mbind outcome_bind].
    destruct (reverse_subarray_spec fuel a1 0 (Z.to_nat p))
      as (a2 & Hrun2 & Hlen2 & Hk2); [lia..|].
    replace (Z.of_nat (0 + Z.to_nat p) - 1) with (p - 1) in Hrun2 by lia.
    change (Z.of_nat 0) with 0 in Hrun2.
    rewrite Hrun2. cbn [mbind outcome_bind].
    destruct (reverse_subarray_spec fuel a2 (Z.to_nat p) (Z.to_nat (size - p)))
      as (a3 & Hrun3 & Hlen3 & Hk3); [lia..|].
    replace (Z.of_nat (Z.to_nat p + Z.to_nat (size - p)) - 1) with (size - 1)
      in Hrun3 by lia.
    rewrite Z2Nat.id in Hrun3 by lia. rewrite Hrun3.
    exists a3. split; [done|]. split; [lia|]. intros k.
    rewrite Hk3, !Hk2, !Hk1.
    destruct (decide (Z.of_nat k < size)) as [Hk|Hk].
    + rewrite Hidx by done.
      repeat case_decide; try lia; f_equal; lia.
    + repeat case_decide; try lia; f_equal; lia.
  - rewrite !wrap_id by int_range.
    destruct (copy_from_offset_loop_spec arr (Z.to_nat (size - p)) (Z.to_nat p)
                ltac:(lia) ltac:(lia) (Z.to_nat p) fuel 0 temp)
      as (t1 & Hrun1 & Hlen1 & Hk1); [lia..|].
    rewrite !Z2Nat.id in Hrun1 by lia. change (Z.of_nat 0) with 0 in Hrun1.
    rewrite Hrun1. cbn [mbind outcome_bind].
    destruct (shift_right_loop_spec (Z.to_nat p) ltac:(lia)
                (Z.to_nat (size - p)) fuel arr)
      as (a1 & Hrun2 & Hlen2 & Hk2); [lia..|].
    replace (Z.of_nat (Z.to_nat p + Z.to_nat (size - p)) - 1) with (size - 1)
      in Hrun2 by lia.
    rewrite Z2Nat.id in Hrun2 by lia.
    rewrite Hrun2. cbn [mbind outcome_bind].
    destruct (copy_loop_spec t1 (Z.to_nat p) ltac:(lia) ltac:(lia)
                (Z.to_nat p) fuel 0 a1)
      as (a2 & Hrun3 & Hlen3 & Hk3); [lia..|].
    rewrite Z2Nat.id in Hrun3 by lia. change (Z.of_nat 0) with 0 in Hrun3.
    rewrite Hrun3.
    exists a2. split; [done|]. split; [lia|]. intros k.
    rewrite Hk3, !Hk2, !Hk1.
    destruct (decide (Z.of_nat k < size)) as [Hk|Hk].
    + rewrite Hidx by done.
      repeat case_decide; try lia; f_equal; lia.
    + repeat case_decide; try lia; f_equal; lia.
Qed.

(** X30. [rotate_left] moves the first [size] cells by [positions mod size]
    places to the left, the cells that fall off coming back in at the end;
    [rotate_right] moves them to the right by as much; each leaves the
    cells behind the first [size] as they are, and [rotate_right] undoes
    [rotate_left] by the same number of positions.  This holds for both
    ways the code takes: through the buffer, and by three reversals when
    the buffer is too small. *)
Theorem rotate_left_rotate_right_correct (fuel : nat) (temp arr : list Z)
  (size positions : Z) :
  0 < size <= Z.of_nat (length arr) -> size <= INT_MAX ->
  0 <= positions <= INT_MAX ->
  Z.of_nat (length temp) = ArrayOperations.MAX_ROTATE_BUFFER ->
  size < Z.of_nat fuel ->
  ArrayOperations.rotate_left fuel temp arr size positions
  = Done (drop (Z.to_nat (positions mod size)) (take (Z.to_nat size) arr)
          ++ take (Z.to_nat (positions mod size)) arr
          ++ drop (Z.to_nat size) arr)
  /\ ArrayOperations.rotate_right fuel temp arr size positions
     = Done (drop (Z.to_nat (size - positions mod size)) (take (Z.to_nat size) arr)
             ++ take (Z.to_nat (size - positions mod size)) arr
             ++ drop (Z.to_nat size) arr)
  /\ (left ← ArrayOperations.rotate_left fuel temp arr size positions;
      ArrayOperations.rotate_right fuel temp left size positions) = Done arr.
Proof.
  intros Hsize Hmax Hpos Htemp Hfuel.
  pose proof (Z.mod_pos_bound positions size ltac:(lia)) as Hp.
  destruct (rotate_left_spec fuel temp arr size positions)
    as (l & Hrunl & Hlenl & Hkl); [done..|].
  destruct (rotate_right_spec fuel temp arr size positions)
    as (r & Hrunr & Hlenr & Hkr); [done..|].
  destruct (rotate_right_spec fuel temp l size positions)
    as (lr & Hrunlr & Hlenlr & Hklr); [lia|done..|].
  rewrite Hrunl, Hrunr. cbn [mbind outcome_bind]. rewrite Hrunlr.
  split; [|split]; f_equal; apply list_eq_total.
  - rewrite Hlenl, !length_app, length_drop, !length_take, length_drop. lia.
  - intros k Hlt. rewrite Hlenl in Hlt. rewrite Hkl.
    case_decide as Hk.
    + rewrite <- Zplus_mod_idemp_r.
      destruct (decide (Z.of_nat k + positions mod size < size)).
      * rewrite Z.mod_small by lia.
        rewrite lookup_total_app_l by (rewrite length_drop, length_take; lia).
        rewrite lookup_total_drop, lookup_total_take_lt by lia. f_equal. lia.
      * rewrite <- (Z.mod_unique (Z.of_nat k + positions mod size) size 1
                     (Z.of_nat k + positions mod size - size)) by lia.
        rewrite lookup_total_app_r by (rewrite length_drop, length_take; lia).
        rewrite length_drop, length_take.
        rewrite lookup_total_app_l by (rewrite length_take; lia).
        rewrite lookup_total_take_lt by lia. f_equal. lia.
    + rewrite lookup_total_app_r by (rewrite length_drop, length_take; lia).
      rewrite length_drop, length_take.
      rewrite lookup_total_app_r by (rewrite length_take; lia).
      rewrite length_take, lookup_total_drop. f_equal. lia.
  - rewrite Hlenr, !length_app, length_drop, !length_take, length_drop. lia.
  - intros k Hlt. rewrite Hlenr in Hlt. rewrite Hkr.
    case_decide as Hk.
    + rewrite <- Zminus_mod_idemp_r.
      destruct (decide (positions mod size <= Z.of_nat k)).
      * rewrite Z.mod_small by lia.
        rewrite lookup_total_app_r by (rewrite length_drop, length_take; lia).
        rewrite length_drop, length_take.
        rewrite lookup_total_app_l by (rewrite length_take; lia).
        rewrite lookup_total_take_lt by lia. f_equal. lia.
      * rewrite <- (Z.mod_unique (Z.of_nat k - positions mod size) size (-1)
                     (Z.of_nat k - positions mod size + size)) by lia.
        rewrite lookup_total_app_l by (rewrite length_drop, length_take; lia).
        rewrite lookup_total_drop, lookup_total_take_lt by lia. f_equal. lia.
    + rewrite lookup_total_app_r by (rewrite length_drop, length_take; lia).
      rewrite length_drop, length_take.
      rewrite lookup_total_app_r by (rewrite length_take; lia).
      rewrite length_take, lookup_total_drop. f_equal. lia.
  - lia.
  - intros k Hlt. rewrite Hklr. case_decide as Hk; [|by rewrite Hkl, decide_False].
    rewrite Hkl.
    pose proof (Z.mod_pos_bound (Z.of_nat k - positions) size ltac:(lia)).
    rewrite decide_True by lia. rewrite Z2Nat.id by lia.
    rewrite Zplus_mod_idemp_l.
    replace (Z.of_nat k - positions + positions) with (Z.of_nat k) by lia.
    rewrite Z.mod_small by lia. by rewrite Nat2Z.id.
Qed.

Lemma rotate_left_rotate_right_correct_witness :
  ArrayOperations.rotate_left 5 (replicate 256 0) [1; 2; 3; 4; 9] 4 1
  = Done [2; 3; 4; 1; 9].
Proof.
  apply (rotate_left_rotate_right_correct 5 (replicate 256 0) [1; 2; 3; 4; 9] 4 1).
  - simpl. lia.
  - unfold INT_MAX. lia.
  - unfold INT_MAX. lia.
  - reflexivity.
  - simpl. lia.
Defined.
